(** * hashR: the harvesting engine and its repository cache

  A shallow embedding of [cache/cache.go] (package [cache]) and
  [core/hashr.go] (package [hashr]) together with the properties of the
  engine that the design document states about them.

  Conventions of the embedding:
  - a Go [string] is a Rocq [string]; file contents are strings of bytes;
  - a Go function returning [(T, error)] returns a [Result T], or a pair
    when the source uses both components;
  - the file system is explicit state ([os.FS]) threaded through every
    function that touches files;
  - a [*sync.Map] keyed by digest is a [gmap string _]; the cache owns one
    [cpb.Entries] object per key, so an update through the pointer returned
    by [Load] is an update of the value stored under that key;
  - what the Go runtime and third-party libraries compute (path cleaning,
    JSON and protobuf codecs, SHA-256) is taken from the class [Runtime]. *)

From stdpp Require Import base option list gmap strings.
From Stdlib Require Import ZArith Ascii.
From Stdlib Require String.

Local Open Scope Z_scope.

(** ** Errors and results *)

(** Go [error] values.  The OS errors are the ones the modelled system calls
  produce; [Errorf msg e] is [fmt.Errorf(msg + ": %v", e)], which formats
  the cause into the message and therefore does not wrap it. *)
Inductive error : Type :=
  | ENOENT | EEXIST | EACCES | EISDIR | ENOTDIR | ENOTEMPTY | ENOSPC | EBADF
  | ErrNew (msg : string)
  | Errorf (msg : string) (cause : error).

Fixpoint Error (e : error) : string :=
  match e with
  | ENOENT => "no such file or directory"
  | EEXIST => "file exists"
  | EACCES => "permission denied"
  | EISDIR => "is a directory"
  | ENOTDIR => "not a directory"
  | ENOTEMPTY => "directory not empty"
  | ENOSPC => "no space left on device"
  | EBADF => "bad file descriptor"
  | ErrNew msg => msg
  | Errorf msg cause => msg +:+ ": " +:+ Error cause
  end.

Inductive Result (A : Type) : Type :=
  | Ok (a : A)
  | Err (e : error).
Arguments Ok {A} a.
Arguments Err {A} e.

(** ** Package [strings] of the Go library (the functions the engine uses) *)
Module GoStrings.

(** [strings.HasPrefix(s, prefix)]. *)
Definition HasPrefix (s prefix : string) : bool := String.prefix prefix s.

(** Simple case folding of one byte: the ASCII letters.  Quick hashes are
    hexadecimal digests and job states are ASCII words, so this is the
    fragment of Unicode folding the engine exercises. *)
Definition fold_byte (c : ascii) : ascii :=
  let n := nat_of_ascii c in
  if (Nat.leb 65 n && Nat.leb n 90)%bool then ascii_of_nat (n + 32) else c.

(** [strings.EqualFold(s, t)]. *)
Fixpoint EqualFold (s t : string) : bool :=
  match s, t with
  | EmptyString, EmptyString => true
  | String a s', String b t' =>
      (Ascii.eqb (fold_byte a) (fold_byte b) && EqualFold s' t')%bool
  | _, _ => false
  end.

(** [strings.Contains(s, substr)]. *)
Fixpoint Contains (s substr : string) : bool :=
  if String.prefix substr s then true
  else match s with
       | EmptyString => false
       | String _ s' => Contains s' substr
       end.

(** The loop of [strings.FieldsFunc]: [cur] is the field being read. *)
Fixpoint fieldsFrom (f : ascii → bool) (cur s : string) : list string :=
  match s with
  | EmptyString => if decide (cur = EmptyString) then [] else [cur]
  | String a s' =>
      if f a
      then if decide (cur = EmptyString) then fieldsFrom f EmptyString s'
           else cur :: fieldsFrom f EmptyString s'
      else fieldsFrom f (cur +:+ String a EmptyString) s'
  end.

(** [strings.FieldsFunc(s, f)]: the maximal runs of bytes that do not
    satisfy [f].  (The separators of the callers are ASCII, so splitting
    bytes and splitting code points agree.) *)
Definition FieldsFunc (s : string) (f : ascii → bool) : list string :=
  fieldsFrom f EmptyString s.

End GoStrings.

(** ** The file system *)
Module os.

(** One entry of the file system.  The permission bits say whether the
    calling process may read the entry (for a directory: search it and
    list it), write to it (for a directory: create entries in it) or
    unlink it.  A directory can be unlinked only when it is empty, which
    [Remove] checks on the file system. *)
Record Node : Type := mkNode {
  is_dir : bool;
  data : string;
  readable : bool;
  writable : bool;
  removable : bool;
}.

(** Paths to entries, and the number of bytes that can still be written
    before the device is full.  An entry is stored under its whole path;
    the hierarchy is the one the separators of the paths spell out, and
    an entry can be reached only through directories that exist and can
    be searched.  Paths are not normalised: a doubled or trailing
    separator is part of the name. *)
Record FS : Type := mkFS {
  nodes : gmap string Node;
  free : nat;
}.

Definition file (contents : string) : Node := mkNode false contents true true true.
Definition dir : Node := mkNode true EmptyString true true true.

(** The directories a path runs through, outermost first:
    [ancestors "/var/cache/f" = ["/var"; "/var/cache"]].  The root is not
    an entry: it exists and can be searched and written. *)
Fixpoint ancestorsFrom (seen : string) (named : bool) (rest : string) : list string :=
  match rest with
  | EmptyString => []
  | String c rest' =>
      if Ascii.eqb c "/"
      then (if named then [seen] else []) ++ ancestorsFrom (seen +:+ "/") false rest'
      else ancestorsFrom (seen +:+ String c EmptyString) true rest'
  end.

Definition ancestors (p : string) : list string := ancestorsFrom EmptyString false p.

(** Path resolution through the directories [dirs]: the error of the first
    one that is missing ([ENOENT]), is not a directory ([ENOTDIR]) or may
    not be searched ([EACCES]). *)
Fixpoint walkList (m : gmap string Node) (dirs : list string) : option error :=
  match dirs with
  | [] => None
  | d :: rest =>
      match m !! d with
      | None => Some ENOENT
      | Some n =>
          if is_dir n
          then (if readable n then walkList m rest else Some EACCES)
          else Some ENOTDIR
      end
  end.

Definition walk (fs : FS) (p : string) : option error :=
  if decide (p = EmptyString) then Some ENOENT else walkList (nodes fs) (ancestors p).

(** The entry that the path [p] resolves to. *)
Definition lookup (fs : FS) (p : string) : option Node :=
  match walk fs p with
  | Some _ => None
  | None => nodes fs !! p
  end.

(** Whether [d] is a directory that may be searched. *)
Definition searchable (m : gmap string Node) (d : string) : bool :=
  match m !! d with
  | Some n => is_dir n && readable n
  | None => false
  end.

(** The error of a system call on a path that resolves to no entry. *)
Definition missing (fs : FS) (p : string) : error :=
  match walk fs p with
  | Some e => e
  | None => ENOENT
  end.

(** Whether entries may be created in the directory that holds [p]. *)
Definition parentWritable (fs : FS) (p : string) : bool :=
  match last (ancestors p) with
  | None => true
  | Some d =>
      match nodes fs !! d with
      | Some n => writable n
      | None => false
      end
  end.

(** Whether some entry lies below [p]. *)
Definition occupied (fs : FS) (p : string) : bool :=
  bool_decide (map_Exists (λ q _, p ∈ ancestors q) (nodes fs)).

(** [os.Stat(p)]: only the error is used by the callers. *)
Definition Stat (fs : FS) (p : string) : option error :=
  match lookup fs p with
  | None => Some (missing fs p)
  | Some _ => None
  end.

(** [os.IsNotExist(err)]: true for [ENOENT] only; [ENOTDIR] and [EACCES]
    are other errors. *)
Definition IsNotExist (e : option error) : bool :=
  match e with
  | Some ENOENT => true
  | _ => false
  end.

(** [ioutil.ReadFile(p)]. *)
Definition ReadFile (fs : FS) (p : string) : Result string :=
  match lookup fs p with
  | None => Err (missing fs p)
  | Some n =>
      if is_dir n then Err EISDIR
      else if readable n then Ok (data n) else Err EACCES
  end.

(** [os.Remove(p)]: unlink a file or remove an empty directory. *)
Definition Remove (fs : FS) (p : string) : FS * option error :=
  match lookup fs p with
  | None => (fs, Some (missing fs p))
  | Some n =>
      if removable n
      then (if is_dir n && occupied fs p
            then (fs, Some ENOTEMPTY)
            else (mkFS (delete p (nodes fs)) (free fs + String.length (data n)), None))
      else (fs, Some EACCES)
  end.

(** [os.Create(p)]: create the file in its directory, which must exist,
    or truncate it.  The returned handle is the path. *)
Definition Create (fs : FS) (p : string) : FS * option error :=
  match walk fs p with
  | Some e => (fs, Some e)
  | None =>
      match nodes fs !! p with
      | None =>
          if parentWritable fs p
          then (mkFS (<[p := file EmptyString]> (nodes fs)) (free fs), None)
          else (fs, Some EACCES)
      | Some n =>
          if is_dir n then (fs, Some EISDIR)
          else if writable n
          then (mkFS (<[p := mkNode false EmptyString (readable n) true (removable n)]> (nodes fs))
                     (free fs + String.length (data n)), None)
          else (fs, Some EACCES)
      end
  end.

(** [f.Write(b)] on the handle of [p]: the bytes that fit are appended,
    and a short write is an error. *)
Definition Write (fs : FS) (p : string) (b : string) : FS * option error :=
  match lookup fs p with
  | None => (fs, Some EBADF)
  | Some n =>
      let k := Nat.min (String.length b) (free fs) in
      let n' := mkNode (is_dir n) (data n +:+ String.substring 0 k b)
                       (readable n) (writable n) (removable n) in
      (mkFS (<[p := n']> (nodes fs)) (free fs - k),
       if Nat.ltb k (String.length b) then Some ENOSPC else None)
  end.

(** [ioutil.WriteFile(p, b, perm)]: open with create and truncate, write,
    close. *)
Definition WriteFile (fs : FS) (p : string) (b : string) : FS * option error :=
  match Create fs p with
  | (fs1, Some e) => (fs1, Some e)
  | (fs1, None) => Write fs1 p b
  end.

(** [os.Mkdir(p, perm)]: one directory, in a directory that exists. *)
Definition Mkdir (fs : FS) (p : string) : FS * option error :=
  match walk fs p with
  | Some e => (fs, Some e)
  | None =>
      match nodes fs !! p with
      | Some _ => (fs, Some EEXIST)
      | None =>
          if parentWritable fs p
          then (mkFS (<[p := dir]> (nodes fs)) (free fs), None)
          else (fs, Some EACCES)
      end
  end.

(** [os.Open(p)]: open for reading; the handle is the entry.  A directory
    can be opened, and reading from it fails. *)
Definition Open (fs : FS) (p : string) : Result Node :=
  match lookup fs p with
  | None => Err (missing fs p)
  | Some n => if readable n then Ok n else Err EACCES
  end.

(** [os.MkdirAll(p, perm)] goes down the directories of [p] and then [p]
    itself, and creates the ones that are missing; [parent] says whether
    the directory reached so far may be written.  The directories made
    before an error stay. *)
Fixpoint mkdirChain (m : gmap string Node) (parent : bool) (dirs : list string)
  : gmap string Node * option error :=
  match dirs with
  | [] => (m, None)
  | d :: rest =>
      match m !! d with
      | Some n =>
          if is_dir n then
            match rest with
            | [] => (m, None)
            | _ :: _ =>
                if readable n then mkdirChain m (writable n) rest
                else (m, Some EACCES)
            end
          else (m, Some ENOTDIR)
      | None =>
          if parent then mkdirChain (<[d := dir]> m) true rest
          else (m, Some EACCES)
      end
  end.

Definition MkdirAll (fs : FS) (p : string) : FS * option error :=
  if decide (p = EmptyString) then (fs, Some ENOENT) else
  let r := mkdirChain (nodes fs) true (ancestors p ++ [p]) in
  (mkFS r.1 (free fs), r.2).

End os.

(** ** Package [common]: the values exchanged between the stages *)
Module common.

(** Modelled from the spec: the struct [common.Sample] declared in package
    [common]; its fields are the ones [cache.Check] and [saveSamples] read
    and write. *)
Record Sample : Type := mkSample {
  Sha256 : string;
  Paths : list string;
  Upload : bool;
}.

(** Modelled from the spec: the struct [common.Extraction], with the fields
    the engine and the cache use. *)
Record Extraction : Type := mkExtraction {
  SourceID : string;
  RepoName : string;
  BaseDir : string;
  Path : string;
  SourceSHA256 : string;
}.

Definition emptyExtraction : Extraction :=
  mkExtraction EmptyString EmptyString EmptyString EmptyString EmptyString.

End common.

(** ** Package [cpb]: the messages of the cache file *)
Module cpb.

(** Modelled from the spec: the protobuf message [cpb.CacheEntry], one
    occurrence of a file; the field names are those of the fixtures in
    [cache_test.go]. *)
Record CacheEntry : Type := mkCacheEntry {
  SourceId : string;
  SourceHash : string;
  Path : list string;
}.

(** Modelled from the spec: the protobuf message [cpb.Entries], the value
    stored under a file digest. *)
Record Entries : Type := mkEntries {
  LastUpdated : Z;
  GetEntries : list CacheEntry;
}.

End cpb.

(** The contents of a repository cache ([*sync.Map], and the [Samples] field
  of [cpb.Cache]). *)
Abbreviation Cache := (gmap string cpb.Entries).

(** ** What the runtime provides *)
Class Runtime : Type := {
  (** [filepath.Join(elem...)] *)
  filepath_Join : list string → string;
  (** [filepath.Base(path)] *)
  filepath_Base : string → string;
  (** [filepath.Split(path)], the directory component *)
  filepath_Split_dir : string → string;
  (** [json.Unmarshal(data, &samples)] *)
  json_Unmarshal : string → Result (list common.Sample);
  (** [json.Marshal(samples)] *)
  json_Marshal : list common.Sample → Result string;
  (** [proto.Marshal(cache)] *)
  proto_Marshal : Cache → Result string;
  (** [proto.Unmarshal(data, cache)] *)
  proto_Unmarshal : string → Result Cache;
  (** [fmt.Sprintf("%x", sha256.Sum256(data))] *)
  sha256_hex : string → string;
  (** [exec.Command(name, args...).Run()]: the effect of an external command
      on the file system, and its outcome *)
  exec_Run : list string → os.FS → os.FS * option error;
  (** the [i]-th reading of the wall clock, in nanoseconds *)
  time_Now : nat → Z;
}.

(** ** Package [cache] *)
Module cache.
Import common.

Section WithRuntime.
Context `{Runtime}.

(** Every path of every manifest entry is joined with the extraction
    directory.  The loop of the source assigns through [sample.Paths[i]]:
    the loop variable is a copy of the struct, but its slice shares the
    backing array of the element of [samples], so the assignment is seen in
    the returned slice. *)
Definition resolvePaths (dir : string) (samples : list Sample) : list Sample :=
  map (λ sample,
         mkSample (Sha256 sample)
                  (map (λ p, filepath_Join [dir; p]) (Paths sample))
                  (Upload sample))
      samples.

Definition readJSON (fs : os.FS) (extraction : Extraction) : Result (list Sample) :=
  let pathJSON := filepath_Join [Path extraction; "hashes.json"] in
  match os.ReadFile fs pathJSON with
  | Err err => Err (Errorf "error while reading hashes.json file" err)
  | Ok data =>
      match json_Unmarshal data with
      | Err err => Err (Errorf "error unmarshalling hashes.json file" err)
      | Ok samples => Ok (resolvePaths (Path extraction) samples)
      end
  end.

(** The path of the cache file of a repository. *)
Definition cachePath (repoName cacheDir : string) : string :=
  filepath_Join [cacheDir; "hashr-cache-" +:+ repoName].

(** [Save] saves the cache to a local file. *)
Definition Save (fs : os.FS) (repoName cacheDir : string) (cacheMap : Cache)
  : os.FS * option error :=
  let cachePath := cachePath repoName cacheDir in
  (* the Range loop copies every key of the map into the message *)
  let cache := cacheMap in
  match proto_Marshal cache with
  | Err err => (fs, Some (Errorf ("error marshalling " +:+ repoName +:+ " repo cache") err))
  | Ok data =>
      match os.Create fs cachePath with
      | (fs1, Some err) =>
          (fs1, Some (Errorf ("error opening " +:+ repoName +:+ " repo cache file for write") err))
      | (fs1, None) =>
          match os.Write fs1 cachePath data with
          | (fs2, Some err) =>
              (fs2, Some (Errorf ("error writing to " +:+ repoName +:+ " repo cache file") err))
          | (fs2, None) => (fs2, None)
          end
      end
  end.

(** The recovery of [Load] from a file it cannot use. *)
Definition removeCorrupted (fs : os.FS) (repoName cachePath : string)
  : os.FS * Result Cache :=
  match os.Remove fs cachePath with
  | (fs1, Some err) =>
      (fs1, Err (Errorf ("error while trying to delete the " +:+ repoName +:+ " repo cache file") err))
  | (fs1, None) => (fs1, Ok ∅)
  end.

(** [Load] reads cache entries from a file stored locally.  If the file is
    not present, the cache is created in memory. *)
Definition Load (fs : os.FS) (repoName cacheDir : string) : os.FS * Result Cache :=
  let cachePath := cachePath repoName cacheDir in
  if os.IsNotExist (os.Stat fs cachePath) then (fs, Ok ∅) else
  match os.ReadFile fs cachePath with
  | Err _ => removeCorrupted fs repoName cachePath
  | Ok data =>
      match proto_Unmarshal data with
      | Err _ => removeCorrupted fs repoName cachePath
      | Ok cache => (fs, Ok cache)
      end
  end.

(** One iteration of the loop of [Check]: [now] is the reading of the clock
    by [timestamppb.Now()]. *)
Definition checkSample (extraction : Extraction) (now : Z)
    (cache : Cache) (sample : Sample) : Cache * Sample :=
  let newCacheEntry :=
    cpb.mkCacheEntry (SourceID extraction) (SourceSHA256 extraction) [] in
  let newExport := mkSample (Sha256 sample) (Paths sample) false in
  match cache !! Sha256 sample with
  | Some sampleCache =>
      (<[Sha256 sample :=
           cpb.mkEntries now (cpb.GetEntries sampleCache ++ [newCacheEntry])]> cache,
       newExport)
  | None =>
      (<[Sha256 sample := cpb.mkEntries now [newCacheEntry]]> cache,
       mkSample (Sha256 newExport) (Paths newExport) true)
  end.

(** The loop of [Check] from iteration [i] on, with the cache and the
    exports accumulated so far. *)
Fixpoint checkLoop (extraction : Extraction) (clock : nat → Z) (i : nat)
    (samples : list Sample) (cache : Cache) (exports : list Sample)
  : Cache * list Sample :=
  match samples with
  | [] => (cache, exports)
  | sample :: rest =>
      let '(cache1, newExport) := checkSample extraction (clock i) cache sample in
      checkLoop extraction clock (S i) rest cache1 (exports ++ [newExport])
  end.

(** [Check] checks if files present in a given extraction are already in the
    local cache.  [clock i] is the time at iteration [i]. *)
Definition Check (fs : os.FS) (clock : nat → Z) (extraction : Extraction)
    (cache : Cache) : Cache * Result (list Sample) :=
  match readJSON fs extraction with
  | Err err => (cache, Err (Errorf "error while reading hashes.json file" err))
  | Ok samples =>
      let '(cache1, exports) := checkLoop extraction clock 0 samples cache [] in
      (cache1, Ok exports)
  end.

End WithRuntime.
End cache.

(** ** Package [hashr]: interfaces and data *)
Module Source.
(** [Source] represents data to be processed.  [Preprocess] works on the
    local file system; [QuickSHA256Hash] is the digest the source reports
    every time it is asked. *)
Record t : Type := mk {
  ID : string;
  RepoName : string;
  RepoPath : string;
  LocalPath : string;
  RemotePath : string;
  Preprocess : os.FS → os.FS * Result string;
  QuickSHA256Hash : Result string;
}.
End Source.

Module Importer.
(** [Importer] represents importer instance that will be used to import data
    for processing. *)
Record t : Type := mk {
  DiscoverRepo : Result (list Source.t);
  RepoName : string;
  RepoPath : string;
}.
End Importer.

Module Processor.
(** [ImageExport] runs the extractor and returns the local path to the
    folder with extracted data. *)
Record t : Type := mk {
  ImageExport : string → os.FS → os.FS * Result string;
}.
End Processor.

Module ProcessingSource.
(** [ProcessingSource] holds data related to a processing source. *)
Record t : Type := mk {
  ID : string;
  Repo : string;
  RepoPath : string;
  RemoteSourcePath : string;
  Sha256 : string;
  Status : string;
  ImportedAt : Z;
  PreprocessingDuration : Z;
  ProcessingDuration : Z;
  ExportDuration : Z;
  SampleCount : Z;
  ExportCount : Z;
  Error : string;
}.

Definition setSha256 (v : string) (p : t) : t :=
  mk (ID p) (Repo p) (RepoPath p) (RemoteSourcePath p) v (Status p)
     (ImportedAt p) (PreprocessingDuration p) (ProcessingDuration p)
     (ExportDuration p) (SampleCount p) (ExportCount p) (Error p).
Definition setStatus (v : string) (p : t) : t :=
  mk (ID p) (Repo p) (RepoPath p) (RemoteSourcePath p) (Sha256 p) v
     (ImportedAt p) (PreprocessingDuration p) (ProcessingDuration p)
     (ExportDuration p) (SampleCount p) (ExportCount p) (Error p).
Definition setPreprocessingDuration (v : Z) (p : t) : t :=
  mk (ID p) (Repo p) (RepoPath p) (RemoteSourcePath p) (Sha256 p) (Status p)
     (ImportedAt p) v (ProcessingDuration p)
     (ExportDuration p) (SampleCount p) (ExportCount p) (Error p).
Definition setProcessingDuration (v : Z) (p : t) : t :=
  mk (ID p) (Repo p) (RepoPath p) (RemoteSourcePath p) (Sha256 p) (Status p)
     (ImportedAt p) (PreprocessingDuration p) v
     (ExportDuration p) (SampleCount p) (ExportCount p) (Error p).
Definition setExportDuration (v : Z) (p : t) : t :=
  mk (ID p) (Repo p) (RepoPath p) (RemoteSourcePath p) (Sha256 p) (Status p)
     (ImportedAt p) (PreprocessingDuration p) (ProcessingDuration p)
     v (SampleCount p) (ExportCount p) (Error p).
Definition setSampleCount (v : Z) (p : t) : t :=
  mk (ID p) (Repo p) (RepoPath p) (RemoteSourcePath p) (Sha256 p) (Status p)
     (ImportedAt p) (PreprocessingDuration p) (ProcessingDuration p)
     (ExportDuration p) v (ExportCount p) (Error p).
Definition setExportCount (v : Z) (p : t) : t :=
  mk (ID p) (Repo p) (RepoPath p) (RemoteSourcePath p) (Sha256 p) (Status p)
     (ImportedAt p) (PreprocessingDuration p) (ProcessingDuration p)
     (ExportDuration p) (SampleCount p) v (Error p).
Definition setError (v : string) (p : t) : t :=
  mk (ID p) (Repo p) (RepoPath p) (RemoteSourcePath p) (Sha256 p) (Status p)
     (ImportedAt p) (PreprocessingDuration p) (ProcessingDuration p)
     (ExportDuration p) (SampleCount p) (ExportCount p) v.
End ProcessingSource.

Module Storage.
(** [Storage] represents storage that is used to store data about processed
    sources: [FetchJobs] gives the state stored under every quick hash. *)
Record t : Type := mk {
  UpdateJobs : string → ProcessingSource.t → option error;
  FetchJobs : Result (gmap string string);
}.
End Storage.

Module Exporter.
(** One call of [Export]: repository name and path, source id, source
    hash, source path, and the samples. *)
Record call : Type := mkCall {
  repoName : string;
  repoPath : string;
  sourceID : string;
  sourceHash : string;
  sourcePath : string;
  samples : list common.Sample;
}.

(** [Exporter] represents exporter instance that will be used to export
    extracted data. *)
Record t : Type := mk {
  Export : call → option error;
  Name : string;
}.
End Exporter.

(** ** Package [hashr]: the engine *)
Module hashr.
Import common.

(** [HashR] holds data related to running instance of HashR (the fields
    fixed for a run; the mutable ones are in [State]). *)
Record HashR : Type := mkHashR {
  Importers : list Importer.t;
  Processor : Processor.t;
  Exporter : Exporter.t;
  Storage : Storage.t;
  ProcessingWorkerCount : Z;
  ExportWorkerCount : Z;
  CacheDir : string;
  Dev : bool;
  Export : bool;
  ExportPath : string;
  SourcesForReprocessing : list string;
}.

(** The states of a processing job. *)
Definition discovered : string := "discovered".
Definition preprocessed : string := "preprocessed".
Definition processed : string := "processed".
Definition cached : string := "cached".
Definition exported : string := "exported".
Definition failed : string := "failed".
Definition reprocess : string := "reprocess".

(** What the code of package [hashr] does to the world outside the
    process, in order, and the points where it takes and releases [h.mu].
    [EvExec] is a command that the package starts itself with
    [exec.Command]; what an importer or a processor runs inside
    [Preprocess] or [ImageExport] belongs to these interfaces and shows in
    their effect on the file system only. *)
Inductive Event : Type :=
| EvUpdateJobs (qHash : string) (p : ProcessingSource.t)
| EvExec (cmd : list string)
| EvExport (c : Exporter.call)
| EvCheck (sourceID : string)
| EvSave (repoName : string)
| EvLock
| EvUnlock.

(** The mutable part of a run: the file system, the cache [c] of the
    repository being processed, the fields [cacheSaveCounter], [mu] and
    [processingSources] of [HashR], the number of clock readings so far,
    and the events so far. *)
Record State : Type := mkState {
  fs : os.FS;
  cache : Cache;
  cacheSaveCounter : Z;
  mu : bool;
  processingSources : gmap string ProcessingSource.t;
  ticks : nat;
  trace : list Event;
}.

Definition M (A : Type) : Type := State → A * State.
Definition ret {A} (a : A) : M A := λ st, (a, st).
Definition bind {A B} (k : A → M B) (m : M A) : M B :=
  λ st, let '(a, st1) := m st in k a st1.

#[global] Instance M_ret : MRet M := @ret.
#[global] Instance M_bind : MBind M := @bind.

Definition emit (e : Event) : M unit := λ st,
  (tt, mkState (fs st) (cache st) (cacheSaveCounter st) (mu st)
               (processingSources st) (ticks st) (trace st ++ [e])).
Definition setFs (v : os.FS) : M unit := λ st,
  (tt, mkState v (cache st) (cacheSaveCounter st) (mu st)
               (processingSources st) (ticks st) (trace st)).
Definition setCache (v : Cache) : M unit := λ st,
  (tt, mkState (fs st) v (cacheSaveCounter st) (mu st)
               (processingSources st) (ticks st) (trace st)).
Definition setCounter (v : Z) : M unit := λ st,
  (tt, mkState (fs st) (cache st) v (mu st)
               (processingSources st) (ticks st) (trace st)).
Definition setMu (v : bool) : M unit := λ st,
  (tt, mkState (fs st) (cache st) (cacheSaveCounter st) v
               (processingSources st) (ticks st) (trace st)).
Definition setSources (v : gmap string ProcessingSource.t) : M unit := λ st,
  (tt, mkState (fs st) (cache st) (cacheSaveCounter st) (mu st)
               v (ticks st) (trace st)).
Definition setTicks (v : nat) : M unit := λ st,
  (tt, mkState (fs st) (cache st) (cacheSaveCounter st) (mu st)
               (processingSources st) v (trace st)).
Definition get : M State := λ st, (st, st).

Section WithRuntime.
Context `{Runtime}.

(** [time.Now()]. *)
Definition timeNow : M Z := λ st,
  (time_Now (ticks st),
   mkState (fs st) (cache st) (cacheSaveCounter st) (mu st)
           (processingSources st) (S (ticks st)) (trace st)).

(** [time.Since(start)]. *)
Definition timeSince (start : Z) : M Z :=
  now ← timeNow; ret (now - start).

(** An assignment through the pointer [h.processingSources[qHash]].  (On a
    missing key the source dereferences nil; the worker only gets there
    after it has stored the record.) *)
Definition updateSource (qHash : string) (f : ProcessingSource.t → ProcessingSource.t)
  : M unit :=
  st ← get; setSources (alter f qHash (processingSources st)).

(** [h.Storage.UpdateJobs(ctx, qHash, h.processingSources[qHash])]; a
    failure is logged and nothing else. *)
Definition updateJobs (h : HashR) (qHash : string) : M unit :=
  st ← get;
  match processingSources st !! qHash with
  | Some p => emit (EvUpdateJobs qHash p)
  | None => ret tt
  end.

Fixpoint contains (slice : list string) (s : string) : bool :=
  match slice with
  | [] => false
  | element :: rest =>
      if GoStrings.EqualFold s element then true else contains rest s
  end.

(** The loop of [newSources] over the discovered sources. *)
Fixpoint newSourcesLoop (h : HashR) (processedSources : gmap string string)
    (sources : list Source.t) (newSources : list Source.t) : list Source.t :=
  match sources with
  | [] => newSources
  | source :: rest =>
      match Source.QuickSHA256Hash source with
      | Err _ => newSourcesLoop h processedSources rest newSources
      | Ok qHash =>
          let '(status, processed) :=
            match processedSources !! qHash with
            | Some status => (status, true)
            | None => (EmptyString, false)
            end in
          if (negb processed
              || contains (SourcesForReprocessing h) qHash
              || GoStrings.EqualFold status reprocess)%bool
          then newSourcesLoop h processedSources rest (newSources ++ [source])
          else newSourcesLoop h processedSources rest newSources
      end
  end.

(** [newSources] returns sources that were not yet processed. *)
Definition newSources (h : HashR) (i : Importer.t) : Result (list Source.t) :=
  match Importer.DiscoverRepo i with
  | Err err => Err (Errorf (Importer.RepoName i +:+ ": error discovering repo") err)
  | Ok sources =>
      match Storage.FetchJobs (Storage h) with
      | Err err => Err (Errorf "could not fetch processed sources from storage" err)
      | Ok processedSources => Ok (newSourcesLoop h processedSources sources [])
      end
  end.

Definition sha256sum (fs : os.FS) (path : string) : Result string :=
  match os.ReadFile fs path with
  | Err err => Err err
  | Ok data => Ok (sha256_hex data)
  end.

(** [process] executes functions required to export files using the
    extractor.  It returns the extraction together with the error. *)
Definition process (h : HashR) (source : Source.t) (processor : Processor.t)
  : M (Extraction * option error) :=
  let qhash := match Source.QuickSHA256Hash source with
               | Ok q => q
               | Err _ => EmptyString
               end in
  start ← timeNow;
  st ← get;
  let '(fs1, r) := Source.Preprocess source (fs st) in
  setFs fs1;;
  match r with
  | Err err => ret (emptyExtraction, Some (Errorf "error while preprocessing" err))
  | Ok plasoInput =>
      let baseDir := filepath_Split_dir (Source.LocalPath source) in
      d ← timeSince start;
      updateSource qhash (ProcessingSource.setPreprocessingDuration d);;
      start ← timeNow;
      st ← get;
      match sha256sum (fs st) (Source.LocalPath source) with
      | Err err =>
          ret (mkExtraction (Source.ID source) (Source.RepoName source) baseDir
                            EmptyString EmptyString,
               Some (Errorf "error while hashing" err))
      | Ok sum =>
          let '(fs2, r) := Processor.ImageExport processor plasoInput (fs st) in
          setFs fs2;;
          match r with
          | Err err =>
              ret (mkExtraction (Source.ID source) (Source.RepoName source) baseDir
                                EmptyString sum,
                   Some (Errorf "error while processing" err))
          | Ok path =>
              d ← timeSince start;
              updateSource qhash (ProcessingSource.setProcessingDuration d);;
              ret (mkExtraction (Source.ID source) (Source.RepoName source) baseDir
                                path sum,
                   None)
          end
      end
  end.

(** The root under which the importers create the local copies. *)
Definition tempRoot : string := "/tmp/hashr".

Definition cleanupLocalStorage (path : string) : M (option error) :=
  let cmd := ["sudo"; "rm"; "-rf"; path] in
  if GoStrings.HasPrefix path tempRoot then
    st ← get;
    emit (EvExec cmd);;
    let '(fs1, err) := exec_Run cmd (fs st) in
    setFs fs1;;
    match err with
    | Some err => ret (Some (Errorf ("error while trying to remove " +:+ path) err))
    | None => ret None
    end
  else ret None.

Definition handleError (h : HashR) (quickHash extractionBaseDir : string)
    (err : error) : M unit :=
  updateSource quickHash (ProcessingSource.setStatus failed);;
  updateSource quickHash (ProcessingSource.setError (Error err));;
  updateJobs h quickHash;;
  _ ← cleanupLocalStorage extractionBaseDir;
  ret tt.

(** The inner loop of [saveSamples]: the first of the paths that [os.Stat]
    accepts, or the empty path. *)
Fixpoint firstValid (fs : os.FS) (paths : list string) : string :=
  match paths with
  | [] => EmptyString
  | path :: rest =>
      match os.Stat fs path with
      | None => path
      | Some _ => firstValid fs rest
      end
  end.

(** One iteration of the loop of [saveSamples]: the entry appended to
    [samplesOut], or the error returned. *)
Definition saveSample (destDir : string) (fs : os.FS) (sample : Sample)
  : os.FS * Result Sample :=
  if negb (Upload sample) then (fs, Ok (mkSample (Sha256 sample) [] false))
  else
    match os.Mkdir fs (filepath_Join [destDir; Sha256 sample]) with
    | (fs1, Some err) => (fs1, Err err)
    | (fs1, None) =>
        let samplePath := firstValid fs1 (Paths sample) in
        match os.ReadFile fs1 samplePath with
        | Err err => (fs1, Err err)
        | Ok input =>
            let destFile :=
              filepath_Join [destDir; Sha256 sample; filepath_Base samplePath] in
            match os.WriteFile fs1 destFile input with
            | (fs2, Some err) => (fs2, Err err)
            | (fs2, None) => (fs2, Ok (mkSample (Sha256 sample) [destFile] true))
            end
        end
    end.

Fixpoint saveLoop (destDir : string) (fs : os.FS) (samples samplesOut : list Sample)
  : os.FS * Result (list Sample) :=
  match samples with
  | [] => (fs, Ok samplesOut)
  | sample :: rest =>
      match saveSample destDir fs sample with
      | (fs1, Err err) => (fs1, Err err)
      | (fs1, Ok out) => saveLoop destDir fs1 rest (samplesOut ++ [out])
      end
  end.

(** The directory of a source under the export path. *)
Definition destDirOf (h : HashR) (sourceImporter sourceID sourceHash : string) : string :=
  let subDir := sourceImporter +:+ "___" +:+ sourceID +:+ "___" +:+ sourceHash in
  filepath_Join [ExportPath h; subDir].

Definition saveSamples (h : HashR) (fs : os.FS)
    (sourceImporter sourceID sourceHash : string) (samples : list Sample)
  : os.FS * option error :=
  let destDir := destDirOf h sourceImporter sourceID sourceHash in
  match os.MkdirAll fs destDir with
  | (fs0, Some err) => (fs0, Some err)
  | (fs0, None) =>
      match saveLoop destDir fs0 samples [] with
      | (fs1, Err err) => (fs1, Some err)
      | (fs1, Ok samplesOut) =>
          match json_Marshal samplesOut with
          | Err err => (fs1, Some err)
          | Ok jsonBytes =>
              os.WriteFile fs1 (filepath_Join [destDir; "samples.json"]) jsonBytes
          end
      end
  end.

(** [cache.Check(extraction, c)] on the cache of the repository. *)
Definition cacheCheck (extraction : Extraction) : M (Result (list Sample)) :=
  st ← get;
  emit (EvCheck (SourceID extraction));;
  let '(c1, r) :=
    cache.Check (fs st) (λ i, time_Now (ticks st + i)%nat) extraction (cache st) in
  setCache c1;;
  match r with
  | Ok samples => setTicks (ticks st + length samples)%nat;; mret (Ok samples)
  | Err err => mret (Err err)
  end.

(** [cache.Save(source.RepoName(), h.CacheDir, c)]. *)
Definition cacheSave (h : HashR) (repoName : string) : M (option error) :=
  st ← get;
  emit (EvSave repoName);;
  let '(fs1, err) := cache.Save (fs st) repoName (CacheDir h) (cache st) in
  setFs fs1;;
  mret err.

Definition lock : M unit := emit EvLock;; setMu true.
Definition unlock : M unit := emit EvUnlock;; setMu false.

(** The loop that counts the samples to upload into [ExportCount]. *)
Fixpoint countExports (qHash : string) (samples : list Sample) : M unit :=
  match samples with
  | [] => mret tt
  | sample :: rest =>
      (if Upload sample
       then updateSource qHash
              (λ p, ProcessingSource.setExportCount (ProcessingSource.ExportCount p + 1) p)
       else mret tt);;
      countExports qHash rest
  end.

(** The end of an iteration of the worker whose export succeeded. *)
Definition finishSource (h : HashR) (qHash : string) (extraction : Extraction)
  : M unit :=
  updateSource qHash (ProcessingSource.setStatus exported);;
  updateJobs h qHash;;
  _ ← cleanupLocalStorage (BaseDir extraction);
  unlock;;
  st ← get;
  setCounter (cacheSaveCounter st + 1).

(** The part of an iteration of the worker that runs under [h.mu]. *)
Definition exportSource (h : HashR) (source : Source.t) (qHash : string)
    (extraction : Extraction) (samples : list Sample) : M unit :=
  lock;;
  st ← get;
  (if Z.ltb 20 (cacheSaveCounter st)
   then _ ← cacheSave h (Source.RepoName source); setCounter 0
   else mret tt);;
  if Export h then
    start ← timeNow;
    let call :=
      Exporter.mkCall (Source.RepoName source) (Source.RepoPath source)
                      (SourceID extraction) (SourceSHA256 extraction)
                      (Source.RemotePath source) samples in
    emit (EvExport call);;
    match Exporter.Export (Exporter h) call with
    | Some err => handleError h qHash (BaseDir extraction) err;; unlock
    | None =>
        d ← timeSince start;
        updateSource qHash (ProcessingSource.setExportDuration d);;
        updateSource qHash (ProcessingSource.setSampleCount (Z.of_nat (length samples)));;
        countExports qHash samples;;
        finishSource h qHash extraction
    end
  else
    st ← get;
    let '(fs1, err) :=
      saveSamples h (fs st) (Source.RepoName source) (SourceID extraction)
                  (SourceSHA256 extraction) samples in
    setFs fs1;;
    match err with
    | Some err => handleError h qHash (BaseDir extraction) err;; unlock
    | None => finishSource h qHash extraction
    end.

(** One iteration of the loop of [processingWorker]: the source received
    from the channel is taken through the stages. *)
Definition processSource (h : HashR) (source : Source.t) : M unit :=
  match Source.QuickSHA256Hash source with
  | Err _ => mret tt
  | Ok qHash =>
      now ← timeNow;
      st ← get;
      setSources
        (<[qHash :=
             ProcessingSource.mk (Source.ID source) (Source.RepoName source)
               (Source.RepoPath source) (Source.RemotePath source) EmptyString
               discovered (now / 1000000000) 0 0 0 0 0 EmptyString]>
           (processingSources st));;
      updateJobs h qHash;;
      '(extraction, err) ← process h source (Processor h);
      match err with
      | Some err => handleError h qHash (BaseDir extraction) err
      | None =>
          updateSource qHash (ProcessingSource.setSha256 (SourceSHA256 extraction));;
          updateSource qHash (ProcessingSource.setStatus processed);;
          updateJobs h qHash;;
          r ← cacheCheck extraction;
          match r with
          | Err err => handleError h qHash (BaseDir extraction) err
          | Ok samples =>
              updateSource qHash (ProcessingSource.setStatus cached);;
              updateJobs h qHash;;
              exportSource h source qHash extraction samples
          end
      end
  end.

(** [processingWorker] on the sources this worker receives, one after the
    other. *)
Fixpoint processingWorker (h : HashR) (newSources : list Source.t) : M unit :=
  match newSources with
  | [] => mret tt
  | source :: rest => processSource h source;; processingWorker h rest
  end.

(** The engine with the answer of [h.Storage.FetchJobs] at one moment of
    the run. *)
Definition withJobs (h : HashR) (jobs : Result (gmap string string)) : HashR :=
  mkHashR (Importers h) (Processor h) (Exporter h)
          (Storage.mk (Storage.UpdateJobs (Storage h)) jobs)
          (ProcessingWorkerCount h) (ExportWorkerCount h) (CacheDir h) (Dev h)
          (Export h) (ExportPath h) (SourcesForReprocessing h).

(** The loop of [Run] over the importers.  [fetch] gives the answer of the
    job store after the events so far.  The workers of a repository are
    started [ProcessingWorkerCount] times: with none the new sources are
    never received; one worker receives them in order, which is also one
    of the schedules of several workers. *)
Fixpoint runImporters (h : HashR)
    (fetch : list Event → Result (gmap string string))
    (importers : list Importer.t) : M unit :=
  match importers with
  | [] => mret tt
  | importer :: rest =>
      st ← get;
      match newSources (withJobs h (fetch (trace st))) importer with
      | Err _ => runImporters h fetch rest
      | Ok [] => runImporters h fetch rest
      | Ok (source :: sources) =>
          let '(fs1, r) := cache.Load (fs st) (Importer.RepoName importer) (CacheDir h) in
          setFs fs1;;
          match r with
          | Err _ => runImporters h fetch rest
          | Ok c =>
              setCache c;;
              (if decide (ProcessingWorkerCount h ≤ 0) then mret tt
               else processingWorker h (source :: sources));;
              _ ← cacheSave h (Importer.RepoName importer);
              runImporters h fetch rest
          end
      end
  end.

(** [Run] executes main processing loop for hashR. *)
Definition Run (h : HashR) (fetch : list Event → Result (gmap string string))
  : M (option error) :=
  setSources ∅;;
  setCounter 0;;
  runImporters h fetch (Importers h);;
  mret None.

End WithRuntime.
End hashr.

(** ** Package [postgres]: the job store in PostgreSQL

    The table [jobs] of the database, by its primary key [quick_sha256].
    The database answers every statement: a failure of the connection is
    not modelled. *)
Module postgres.

(** A row of the table [jobs], without the key. *)
Record Row : Type := mkRow {
  imported_at : Z;
  id : string;
  repo : string;
  repo_path : string;
  location : string;
  sha256 : string;
  status : string;
  error : string;
  preprocessing_duration : Z;
  processing_duration : Z;
  export_duration : Z;
  files_extracted : Z;
  files_exported : Z;
}.

(** [Storage] allows to interact with PostgreSQL instance. *)
Record Storage : Type := mkStorage {
  jobs : gmap string Row;
}.

Definition rowExists (s : Storage) (qHash : string) : bool :=
  match jobs s !! qHash with
  | Some _ => true
  | None => false
  end.

(** [int(d.Seconds())] for a duration in nanoseconds: the whole seconds,
    truncated towards zero.  The source goes through [float64]; the sum of
    the whole and the fractional part is exact to less than a nanosecond
    for durations under 2^24 seconds, beyond which it can round up to the
    next second. *)
Definition seconds (d : Z) : Z := Z.quot d 1000000000.

(** The values [$2] to [$14] of the statement of [UpdateJobs]. *)
Definition values (p : ProcessingSource.t) : Row :=
  mkRow (ProcessingSource.ImportedAt p) (ProcessingSource.ID p)
        (ProcessingSource.Repo p) (ProcessingSource.RepoPath p)
        (ProcessingSource.RemoteSourcePath p) (ProcessingSource.Sha256 p)
        (ProcessingSource.Status p) (ProcessingSource.Error p)
        (seconds (ProcessingSource.PreprocessingDuration p))
        (seconds (ProcessingSource.ProcessingDuration p))
        (seconds (ProcessingSource.ExportDuration p))
        (ProcessingSource.SampleCount p) (ProcessingSource.ExportCount p).

(** [UpdateJobs]: [UPDATE jobs SET ... WHERE quick_sha256 = $1] when the row
    exists, and [INSERT INTO jobs ...] otherwise. *)
Definition UpdateJobs (s : Storage) (qHash : string) (p : ProcessingSource.t)
  : Storage :=
  if rowExists s qHash
  then mkStorage (alter (λ _, values p) qHash (jobs s))
  else mkStorage (<[qHash := values p]> (jobs s)).

(** [FetchJobs]: [SELECT quick_sha256, status FROM jobs] into a map. *)
Definition FetchJobs (s : Storage) : gmap string string :=
  status <$> jobs s.

End postgres.

(** ** Package [common] of the importers: extraction of an archive *)
Module importers.

(** The types of entries of [archive/tar] that [ExtractTarGz] tells
    apart. *)
Inductive Typeflag : Type := TypeReg | TypeDir | TypeOther.

(** An entry as [tarReader.Next] and the reads that follow deliver it: the
    header, the bytes of the body, and the error that ends the body if it
    is damaged. *)
Record Entry : Type := mkEntry {
  Name : string;
  Type_ : Typeflag;
  body : string;
  bodyErr : option error;
}.

(** The entries of an archive, and the error of [tarReader.Next] after the
    last of them ([None] for [io.EOF]). *)
Definition Archive : Type := list Entry * option error.

(** The slash and the backslash (code 92). *)
Definition isSlashRune (r : ascii) : bool :=
  (Ascii.eqb r "/" || Ascii.eqb r "092")%bool.

Definition containsDotDot (v : string) : bool :=
  if negb (GoStrings.Contains v "..") then false
  else existsb (String.eqb "..") (GoStrings.FieldsFunc v isSlashRune).

Section WithRuntime.
Context `{Runtime}.

(** [gzip.NewReader] and [tar.NewReader] on the bytes of a file. *)
Variable untar : string → Result Archive.

(** The loop of [ExtractTarGz] over the entries. *)
Fixpoint extractLoop (fs : os.FS) (outputFolder : string) (entries : list Entry)
    (final : option error) : os.FS * option error :=
  match entries with
  | [] => (fs, final)
  | entry :: rest =>
      if containsDotDot (Name entry) then extractLoop fs outputFolder rest final
      else
        let destEntry := filepath_Join [outputFolder; Name entry] in
        match Type_ entry with
        | TypeDir =>
            if os.IsNotExist (os.Stat fs destEntry) then
              match os.MkdirAll fs destEntry with
              | (fs1, Some err) =>
                  (fs1, Some (Errorf "error while creating destination directory" err))
              | (fs1, None) => extractLoop fs1 outputFolder rest final
              end
            else extractLoop fs outputFolder rest final
        | TypeReg =>
            match os.Create fs destEntry with
            | (fs1, Some err) =>
                (fs1, Some (Errorf "error while creating destination file" err))
            | (fs1, None) =>
                match os.Write fs1 destEntry (body entry) with
                | (fs2, Some err) =>
                    (fs2, Some (Errorf "error while extracting destination file" err))
                | (fs2, None) =>
                    match bodyErr entry with
                    | Some err =>
                        (fs2, Some (Errorf "error while extracting destination file" err))
                    | None => extractLoop fs2 outputFolder rest final
                    end
                end
            end
        | TypeOther => extractLoop fs outputFolder rest final
        end
  end.

(** [ExtractTarGz] extracts tar.gz file to given output folder.  If
    directory does not exist, it will be created. *)
Definition ExtractTarGz (fs : os.FS) (tarGzPath outputFolder : string)
  : os.FS * option error :=
  let '(fs0, err) :=
    if os.IsNotExist (os.Stat fs outputFolder) then
      match os.MkdirAll fs outputFolder with
      | (fs0, Some err2) =>
          (fs0, Some (Errorf "error while creating target directory" err2))
      | (fs0, None) => (fs0, None)
      end
    else (fs, None) in
  match err with
  | Some err => (fs0, Some err)
  | None =>
      match os.Open fs0 tarGzPath with
      | Err err => (fs0, Some err)
      | Ok gzFile =>
          match untar (os.data gzFile) with
          | Err err => (fs0, Some err)
          | Ok (entries, final) => extractLoop fs0 outputFolder entries final
          end
      end
  end.

End WithRuntime.
End importers.

(** ** Package [targz]: the quick hash of a source *)
Module targz.

Definition chunkSize : N := 1024 * 1024 * 10.

(** [TarGzFile] holds data related to targz archive. *)
Record TarGzFile : Type := mkTarGzFile {
  filename : string;
  remotePath : string;
  localPath : string;
  quickSha256hash : string;
  repoPath : string;
}.

Definition setQuickSha256hash (v : string) (i : TarGzFile) : TarGzFile :=
  mkTarGzFile (filename i) (remotePath i) (localPath i) v (repoPath i).

Section WithRuntime.
Context `{Runtime}.

(** [QuickSHA256Hash] calculates sha256 hash of .tar.gz file: of the whole
    file when it is smaller than two chunks, and of its first and its last
    chunk otherwise.  The result is kept in the object. *)
Definition QuickSHA256Hash (fs : os.FS) (i : TarGzFile) : TarGzFile * Result string :=
  if negb (String.eqb (quickSha256hash i) EmptyString)
  then (i, Ok (quickSha256hash i))
  else
    match os.Open fs (remotePath i) with
    | Err err => (i, Err err)
    | Ok f =>
        let size := N.of_nat (String.length (os.data f)) in
        if (size <? chunkSize * 2)%N then
          if os.is_dir f then (i, Err EISDIR)
          else
            let sum := sha256_hex (os.data f) in
            (setQuickSha256hash sum i, Ok sum)
        else
          if os.is_dir f then (i, Err EISDIR)
          else
            let header := String.substring 0 (N.to_nat chunkSize) (os.data f) in
            let footer :=
              String.substring (N.to_nat (size - chunkSize)) (N.to_nat chunkSize)
                               (os.data f) in
            let sum := sha256_hex (header +:+ footer) in
            (setQuickSha256hash sum i, Ok sum)
    end.

End WithRuntime.
End targz.

(** ** Workers running in parallel on one cache

    The part of an iteration of [processingWorker] that touches what the
    workers of a repository share: the loop of [cache.Check] on the
    [sync.Map] [c], and the region under [h.mu] that follows it.  A step is
    one operation on a shared object: [cache.Load], [cache.Store], the
    update of an entry through the pointer that [Load] returned (its two
    assignments, to [Entries] and to [LastUpdated], taken together),
    [Lock], [Unlock].  The [sync.Map] maps a digest to a pointer, and the
    heap maps a pointer to the [cpb.Entries] it designates.  The manifest
    has been read by [readJSON] before the loop; reading it touches nothing
    that is shared. *)
Module workers.
Import common.

(** Where a worker is in its iteration. *)
Inductive Pc : Type :=
(** in the loop of [Check], before [cache.Load] of the head of [rest] *)
| InCheck (i : nat) (rest exports : list Sample)
(** in the loop of [Check], after [cache.Load] has returned [found] *)
| Loaded (i : nat) (sample : Sample) (found : option nat) (rest exports : list Sample)
(** [Check] has returned [samples]; before [h.mu.Lock()] *)
| BeforeLock (samples : list Sample)
(** under [h.mu]: periodic save, export or save to disk, cleanup *)
| Exporting (samples : list Sample)
(** before [h.mu.Unlock()] *)
| BeforeUnlock (samples : list Sample)
(** the iteration is over; [samples] is what [Check] returned *)
| Done (samples : list Sample).

Record Worker : Type := mkWorker {
  extraction : Extraction;
  clock : nat → Z;
  pc : Pc;
}.

Record Shared : Type := mkShared {
  (** the [sync.Map]: digest to pointer *)
  cmap : gmap string nat;
  (** the objects the pointers designate *)
  heap : gmap nat cpb.Entries;
  (** the next pointer to allocate *)
  next : nat;
  (** the worker that holds [h.mu], if any *)
  mu : option nat;
}.

Record Global : Type := mkGlobal {
  shared : Shared;
  pool : list Worker;
}.

(** One step of a worker on the shared state; [None] when the worker
    cannot move (it waits for [h.mu], or it is done). *)
Definition stepWorker (t : nat) (w : Worker) (s : Shared) : option (Worker * Shared) :=
  let newCacheEntry :=
    cpb.mkCacheEntry (SourceID (extraction w)) (SourceSHA256 (extraction w)) [] in
  let goto pc1 := mkWorker (extraction w) (clock w) pc1 in
  match pc w with
  | InCheck i [] exports => Some (goto (BeforeLock exports), s)
  | InCheck i (sample :: rest) exports =>
      Some (goto (Loaded i sample (cmap s !! Sha256 sample) rest exports), s)
  | Loaded i sample (Some ptr) rest exports =>
      let newExport := mkSample (Sha256 sample) (Paths sample) false in
      Some (goto (InCheck (S i) rest (exports ++ [newExport])),
            mkShared (cmap s)
              (alter (λ e, cpb.mkEntries (clock w i)
                             (cpb.GetEntries e ++ [newCacheEntry])) ptr (heap s))
              (next s) (mu s))
  | Loaded i sample None rest exports =>
      let newExport := mkSample (Sha256 sample) (Paths sample) true in
      Some (goto (InCheck (S i) rest (exports ++ [newExport])),
            mkShared (<[Sha256 sample := next s]> (cmap s))
              (<[next s := cpb.mkEntries (clock w i) [newCacheEntry]]> (heap s))
              (S (next s)) (mu s))
  | BeforeLock samples =>
      match mu s with
      | None => Some (goto (Exporting samples),
                      mkShared (cmap s) (heap s) (next s) (Some t))
      | Some _ => None
      end
  | Exporting samples => Some (goto (BeforeUnlock samples), s)
  | BeforeUnlock samples =>
      Some (goto (Done samples), mkShared (cmap s) (heap s) (next s) None)
  | Done _ => None
  end.

(** Worker [t] takes a step. *)
Definition step (t : nat) (g : Global) : option Global :=
  w ← pool g !! t;
  '(w1, s1) ← stepWorker t w (shared g);
  Some (mkGlobal s1 (<[t := w1]> (pool g))).

(** The workers take steps in the order of the schedule. *)
Fixpoint run (schedule : list nat) (g : Global) : option Global :=
  match schedule with
  | [] => Some g
  | t :: rest => g1 ← step t g; run rest g1
  end.

(** The contents of the cache: the entries each digest points to. *)
Definition contents (s : Shared) : Cache := omap (λ ptr, heap s !! ptr) (cmap s).

(** A worker that enters [cache.Check] with the manifest [samples]. *)
Definition enter (extraction : Extraction) (clock : nat → Z) (samples : list Sample)
  : Worker :=
  mkWorker extraction clock (InCheck 0 samples []).

(** The samples a worker has got back from [Check]. *)
Definition returned (w : Worker) : list Sample :=
  match pc w with
  | BeforeLock samples | Exporting samples | BeforeUnlock samples | Done samples =>
      samples
  | _ => []
  end.

(** The number of samples of a digest that the workers got back with the
    upload flag set. *)
Definition uploads (g : Global) (digest : string) : nat :=
  length (filter (λ sample, Sha256 sample = digest ∧ Upload sample = true)
                 (concat (map returned (pool g)))).

(** Is the worker inside the loop of [cache.Check]? *)
Definition checking (w : Worker) : bool :=
  match pc w with
  | InCheck _ _ _ | Loaded _ _ _ _ _ => true
  | _ => false
  end.

(** The [sync.Map] is well formed: distinct digests point to distinct
    objects, and every pointer designates an allocated object. *)
Definition wellFormed (s : Shared) : Prop :=
  (∀ k1 k2 ptr, cmap s !! k1 = Some ptr → cmap s !! k2 = Some ptr → k1 = k2)
  ∧ (∀ k ptr, cmap s !! k = Some ptr → (ptr < next s)%nat ∧ is_Some (heap s !! ptr)).

End workers.

(** ** Vocabulary of the properties *)
Section Vocabulary.
Context `{Runtime}.
Import common.

(** The cache when the entry at index [i] of the manifest is processed,
    that is, after the entries before it. *)
Definition cacheAt (clock : nat → Z) (extraction : Extraction) (cache0 : Cache)
    (manifest : list Sample) (i : nat) : Cache :=
  (cache.checkLoop extraction clock 0
     (take i (cache.resolvePaths (Path extraction) manifest)) cache0 []).1.

(** The samples of a digest that are to be uploaded. *)
Definition uploadsOf (digest : string) (samples : list Sample) : list Sample :=
  filter (λ sample, Sha256 sample = digest ∧ Upload sample = true) samples.

(** [cache.Check] on the extractions of several sources, one after the
    other on the same cache, as a single worker does it: the samples
    returned for all of them.  A source whose manifest cannot be read
    contributes nothing. *)
Fixpoint checkAll (fs : os.FS) (clock : nat → Z) (extractions : list Extraction)
    (cache0 : Cache) : list Sample :=
  match extractions with
  | [] => []
  | extraction :: rest =>
      match cache.Check fs clock extraction cache0 with
      | (cache1, Ok samples) => samples ++ checkAll fs clock rest cache1
      | (cache1, Err _) => checkAll fs clock rest cache1
      end
  end.

(** The digests listed by the manifests that can be read. *)
Fixpoint digestsOf (fs : os.FS) (extractions : list Extraction) : list string :=
  match extractions with
  | [] => []
  | extraction :: rest =>
      match cache.readJSON fs extraction with
      | Ok samples => map Sha256 samples ++ digestsOf fs rest
      | Err _ => digestsOf fs rest
      end
  end.

(** The occurrences stored under a digest. *)
Definition occurrences (c : Cache) (digest : string) : list cpb.CacheEntry :=
  from_option cpb.GetEntries [] (c !! digest).

(** A source is new for a run when its quick hash is not in the job store,
    or is on the list of sources to reprocess, or is stored with the state
    [reprocess]; the two comparisons are those of [strings.EqualFold]. *)
Definition isNew (h : hashr.HashR) (jobs : gmap string string) (qHash : string)
  : Prop :=
  jobs !! qHash = None
  ∨ (∃ element, element ∈ hashr.SourcesForReprocessing h
                ∧ GoStrings.EqualFold qHash element = true)
  ∨ (∃ status, jobs !! qHash = Some status
               ∧ GoStrings.EqualFold status hashr.reprocess = true).

(** The states written to the job store for a quick hash, in order. *)
Fixpoint statusesOf (qHash : string) (tr : list hashr.Event) : list string :=
  match tr with
  | [] => []
  | hashr.EvUpdateJobs q p :: rest =>
      if decide (q = qHash) then ProcessingSource.Status p :: statusesOf qHash rest
      else statusesOf qHash rest
  | _ :: rest => statusesOf qHash rest
  end.

(** The commands that package [hashr] has run itself, in order. *)
Fixpoint execs (tr : list hashr.Event) : list (list string) :=
  match tr with
  | [] => []
  | hashr.EvExec cmd :: rest => cmd :: execs rest
  | _ :: rest => execs rest
  end.

(** The deletion that [cleanupLocalStorage] attempts for a path: the
    command [sudo rm -rf path] when the path begins with the temp root, and
    nothing otherwise. *)
Definition purge (path : string) : list (list string) :=
  if GoStrings.HasPrefix path hashr.tempRoot
  then [["sudo"; "rm"; "-rf"; path]]
  else [].


(** Partial correctness of a computation of the engine: from a state that
    satisfies [P], the result and the final state satisfy [Q].  The
    computations are total functions, so this is also total correctness. *)
Definition hoare {A} (P : hashr.State → Prop) (m : hashr.M A)
    (Q : A → hashr.State → Prop) : Prop :=
  ∀ st, P st → Q (m st).1 (m st).2.

(** The observation of a state that the properties of a worker are about:
    the state of the job of [qHash] in memory, the states written to the
    job store for it, and the commands run. *)
Definition observed (qHash : string) (status : string) (written : list string)
    (cmds : list (list string)) (st : hashr.State) : Prop :=
  (ProcessingSource.Status <$> hashr.processingSources st !! qHash) = Some status
  ∧ statusesOf qHash (hashr.trace st) = written
  ∧ execs (hashr.trace st) = cmds.

(** What one iteration of the loop of [saveSamples] does for a sample, from
    the file system [fs] to [fs2], and the entry [out] it adds to the
    manifest.  A sample that is not to be uploaded changes nothing and is
    listed without paths.  For a sample to be uploaded, the directory of its
    digest is created; [src] is the first of its paths that exists then;
    the bytes of [src] are in the destination file afterwards, and the
    sample is listed with the destination as its only path. *)
Definition copiedTo (destDir : string) (fs fs2 : os.FS) (sample out : Sample)
  : Prop :=
  if Upload sample then
    ∃ fsd before src after input,
      os.Mkdir fs (filepath_Join [destDir; Sha256 sample]) = (fsd, None)
      ∧ Paths sample = before ++ src :: after
      ∧ Forall (λ p, os.Stat fsd p ≠ None) before
      ∧ os.Stat fsd src = None
      ∧ os.ReadFile fsd src = Ok input
      ∧ out = mkSample (Sha256 sample)
                [filepath_Join [destDir; Sha256 sample; filepath_Base src]] true
      ∧ (os.data <$> os.lookup fs2
           (filepath_Join [destDir; Sha256 sample; filepath_Base src]))
        = Some input
  else fs2 = fs ∧ out = mkSample (Sha256 sample) [] false.

(** The iterations for a list of samples, one after the other. *)
Fixpoint copiedAll (destDir : string) (fs : os.FS) (samples : list Sample)
    (fs1 : os.FS) (manifest : list Sample) : Prop :=
  match samples, manifest with
  | [], [] => fs1 = fs
  | sample :: samples', out :: manifest' =>
      ∃ fs2, copiedTo destDir fs fs2 sample out
             ∧ copiedAll destDir fs2 samples' fs1 manifest'
  | _, _ => False
  end.

(** The calls of [cache.Check] and the operations on [h.mu], in order. *)
Fixpoint mutexEvents (tr : list hashr.Event) : list hashr.Event :=
  match tr with
  | [] => []
  | hashr.EvCheck id :: rest => hashr.EvCheck id :: mutexEvents rest
  | hashr.EvLock :: rest => hashr.EvLock :: mutexEvents rest
  | hashr.EvUnlock :: rest => hashr.EvUnlock :: mutexEvents rest
  | _ :: rest => mutexEvents rest
  end.

(** An event that is neither a write to the job store nor a command. *)
Definition silentEvent (e : hashr.Event) : Prop :=
  match e with
  | hashr.EvUpdateJobs _ _ | hashr.EvExec _ => False
  | _ => True
  end.

(** What [observed] looks at. *)
Definition obs (qHash : string) (st : hashr.State)
  : option string * list string * list (list string) :=
  (ProcessingSource.Status <$> hashr.processingSources st !! qHash,
   statusesOf qHash (hashr.trace st),
   execs (hashr.trace st)).

(** A computation that changes nothing of what is observed. *)
Definition quiet {A} (qHash : string) (m : hashr.M A) : Prop :=
  ∀ st, obs qHash (m st).2 = obs qHash st.

(** The base directory of the extraction that [process] returns for a
    source: empty when preprocessing fails, and the directory of the local
    path otherwise. *)
Definition baseDirOf (source : Source.t) (fs : os.FS) : string :=
  match (Source.Preprocess source fs).2 with
  | Ok _ => filepath_Split_dir (Source.LocalPath source)
  | Err _ => EmptyString
  end.

(** The sequences of states a job goes through. *)
Definition lifecycles : list (list string) :=
  [ [hashr.discovered; hashr.failed];
    [hashr.discovered; hashr.processed; hashr.failed];
    [hashr.discovered; hashr.processed; hashr.cached; hashr.failed];
    [hashr.discovered; hashr.processed; hashr.cached; hashr.exported] ].

(** A computation that leaves a part of the state, given by a projection,
    as it is. *)
Definition preserves {A B} (proj : hashr.State → B) (m : hashr.M A) : Prop :=
  ∀ st, proj (m st).2 = proj st.

(** What a job record says about its source, its state, its counts and its
    error. *)
Definition summary (p : ProcessingSource.t)
  : string * string * string * string * string * Z * Z * string :=
  (ProcessingSource.ID p, ProcessingSource.Repo p, ProcessingSource.RepoPath p,
   ProcessingSource.RemoteSourcePath p, ProcessingSource.Status p,
   ProcessingSource.SampleCount p, ProcessingSource.ExportCount p,
   ProcessingSource.Error p).

(** The summary of the job of a source in a given state, with given counts
    and error. *)
Definition summaryOf (source : Source.t) (status : string) (samples exports : Z)
    (err : string) : string * string * string * string * string * Z * Z * string :=
  (Source.ID source, Source.RepoName source, Source.RepoPath source,
   Source.RemotePath source, status, samples, exports, err).

(** The calls of the exporter, in order. *)
Fixpoint exportCalls (tr : list hashr.Event) : list Exporter.call :=
  match tr with
  | [] => []
  | hashr.EvExport call :: rest => call :: exportCalls rest
  | _ :: rest => exportCalls rest
  end.

(** The summary of the job of [qHash] in memory and the calls of the
    exporter. *)
Definition ledger (qHash : string) (st : hashr.State)
  : option (string * string * string * string * string * Z * Z * string)
    * list Exporter.call :=
  (summary <$> hashr.processingSources st !! qHash,
   exportCalls (hashr.trace st)).

(** The number of samples to upload. *)
Definition uploadCount (samples : list Sample) : Z :=
  Z.of_nat (length (filter (λ sample, Upload sample = true) samples)).

(** What the record of a job says at the end of an iteration. *)
Definition settled (h : hashr.HashR) (source : Source.t) (q : string)
    (calls : list Exporter.call) (st : hashr.State) : Prop :=
  (∃ msg, ledger q st = (Some (summaryOf source hashr.failed 0 0 msg), calls)
          ∨ ∃ call, hashr.Export h = true
                    ∧ ledger q st
                      = (Some (summaryOf source hashr.failed 0 0 msg),
                         calls ++ [call]))
  ∨ (if hashr.Export h
     then ∃ call,
            ledger q st
            = (Some (summaryOf source hashr.exported
                       (Z.of_nat (length (Exporter.samples call)))
                       (uploadCount (Exporter.samples call)) EmptyString),
               calls ++ [call])
     else ledger q st
          = (Some (summaryOf source hashr.exported 0 0 EmptyString), calls)).

(** The number of times the cache of the repository was saved from within
    an iteration. *)
Fixpoint saves (tr : list hashr.Event) : nat :=
  match tr with
  | [] => 0
  | hashr.EvSave _ :: rest => S (saves rest)
  | _ :: rest => saves rest
  end.

(** The number of times a job was written to the job store in the state
    [exported]. *)
Fixpoint exportedJobs (tr : list hashr.Event) : nat :=
  match tr with
  | [] => 0
  | hashr.EvUpdateJobs _ p :: rest =>
      if decide (ProcessingSource.Status p = hashr.exported)
      then S (exportedJobs rest) else exportedJobs rest
  | _ :: rest => exportedJobs rest
  end.

(** The exported jobs that neither a save from within an iteration (21 each)
    nor the counter accounts for. *)
Definition balance (st : hashr.State) : Z :=
  Z.of_nat (exportedJobs (hashr.trace st))
  - 21 * Z.of_nat (saves (hashr.trace st))
  - hashr.cacheSaveCounter st.

(** The state of the job of [qHash] in memory, the balance and the
    counter. *)
Definition tally (qHash : string) (st : hashr.State) : option string * Z * Z :=
  (ProcessingSource.Status <$> hashr.processingSources st !! qHash,
   balance st,
   hashr.cacheSaveCounter st).

(** The job store after the calls of [UpdateJobs] that a trace records, in
    order, on the PostgreSQL storage. *)
Fixpoint replay (tr : list hashr.Event) (db : postgres.Storage) : postgres.Storage :=
  match tr with
  | [] => db
  | hashr.EvUpdateJobs q p :: rest => replay rest (postgres.UpdateJobs db q p)
  | _ :: rest => replay rest db
  end.

(** The answer of [FetchJobs] of the PostgreSQL storage during a run, from
    the table [db] before the first event. *)
Definition fetchFrom (db : postgres.Storage) (tr : list hashr.Event)
  : Result (gmap string string) :=
  Ok (postgres.FetchJobs (replay tr db)).

(** The form of the commands that the worker starts itself. *)
Definition isPurge (cmd : list string) : Prop :=
  ∃ path, cmd = ["sudo"; "rm"; "-rf"; path]
          ∧ GoStrings.HasPrefix path "/tmp/hashr" = true.

(** The paths that [saveSamples] may create or write for a list of samples
    under the directory of a source: the directory, the manifest, and for
    every sample to upload the directory of its digest and a file named
    after one of its paths. *)
Definition exportTargets (destDir : string) (samples : list Sample) : list string :=
  destDir :: filepath_Join [destDir; "samples.json"]
  :: flat_map
       (λ sample,
          if Upload sample
          then filepath_Join [destDir; Sha256 sample]
               :: map (λ path, filepath_Join [destDir; Sha256 sample; filepath_Base path])
                      (Paths sample)
          else [])
       samples.

(** An entry of an archive on whose account [ExtractTarGz] may create or
    write [path]: a file or a directory none of whose path components is
    [..]; [path] is the output folder joined with its name or, for a
    directory, a directory on the way there that is missing in [fs]. *)
Definition extractedFrom (outputFolder : string) (entries : list importers.Entry)
    (fs : os.FS) (path : string) : Prop :=
  ∃ entry,
    entry ∈ entries
    ∧ importers.Type_ entry ≠ importers.TypeOther
    ∧ (".." ∉ GoStrings.FieldsFunc (importers.Name entry) importers.isSlashRune)
    ∧ (path = filepath_Join [outputFolder; importers.Name entry]
       ∨ (importers.Type_ entry = importers.TypeDir
          ∧ path ∈ os.ancestors (filepath_Join [outputFolder; importers.Name entry])
          ∧ os.nodes fs !! path = None)).

(** Every sample of a call of the exporter has its digest in the cache. *)
Definition registered (c : Cache) (call : Exporter.call) : Prop :=
  Forall (λ sample, is_Some (c !! Sha256 sample)) (Exporter.samples call).

(** The cache of the repository and the calls of the exporter. *)
Definition stock (st : hashr.State) : Cache * list Exporter.call :=
  (hashr.cache st, exportCalls (hashr.trace st)).

(** The events that matter for the critical section of a worker: the calls
    of [cache.Check], [cache.Save] and of the exporter and the operations on
    [h.mu], in order. *)
Fixpoint criticalEvents (tr : list hashr.Event) : list hashr.Event :=
  match tr with
  | [] => []
  | hashr.EvUpdateJobs _ _ :: rest | hashr.EvExec _ :: rest => criticalEvents rest
  | e :: rest => e :: criticalEvents rest
  end.

(** Whether [h.mu] is held, and the critical events so far. *)
Definition crit (st : hashr.State) : bool * list hashr.Event :=
  (hashr.mu st, criticalEvents (hashr.trace st)).

(** A call of [cache.Save] or of the exporter. *)
Definition isSaveOrExport (e : hashr.Event) : Prop :=
  match e with
  | hashr.EvSave _ | hashr.EvExport _ => True
  | _ => False
  end.

End Vocabulary.

(** ** A runtime to execute the model

    Paths are joined with a slash, without cleaning; the codecs are
    line-oriented text formats: a manifest is [digest=path,path;...], a
    cache file is [digest=source,hash|source,hash;...].  This runtime is
    only used to run the engine on the concrete inputs below. *)
Module TextRuntime.
Import common.

Fixpoint splitOn (sep : ascii) (cur : string) (s : string) : list string :=
  match s with
  | EmptyString => [String.rev cur]
  | String a s' =>
      if Ascii.eqb a sep then String.rev cur :: splitOn sep EmptyString s'
      else splitOn sep (String a cur) s'
  end.

Definition fields (sep : ascii) (s : string) : list string :=
  filter (λ w, w ≠ EmptyString) (splitOn sep EmptyString s).

Definition Join (elem : list string) : string :=
  String.concat "/" (filter (λ w, w ≠ EmptyString) elem).

Definition Base (path : string) : string :=
  List.last (fields "/" path) ".".

Fixpoint dirOf (acc cur : string) (s : string) : string :=
  match s with
  | EmptyString => String.rev acc
  | String a s' =>
      if Ascii.eqb a "/" then dirOf (String a (cur +:+ acc)) EmptyString s'
      else dirOf acc (String a cur) s'
  end.

Definition decodeSample (w : string) : Result Sample :=
  match splitOn "=" EmptyString w with
  | [digest; paths] => Ok (mkSample digest (fields "," paths) false)
  | _ => Err (ErrNew "invalid character")
  end.

Fixpoint decodeAll {A} (f : string → Result A) (ws : list string) : Result (list A) :=
  match ws with
  | [] => Ok []
  | w :: rest =>
      match f w, decodeAll f rest with
      | Ok a, Ok l => Ok (a :: l)
      | Err e, _ => Err e
      | _, Err e => Err e
      end
  end.

Definition Unmarshal (data : string) : Result (list Sample) :=
  decodeAll decodeSample (fields ";" data).

Definition encodeSample (s : Sample) : string :=
  Sha256 s +:+ "=" +:+ String.concat "," (Paths s) +:+ "="
    +:+ (if Upload s then "true" else "false").

Definition Marshal (samples : list Sample) : Result string :=
  Ok (String.concat ";" (map encodeSample samples)).

Definition decodeOccurrence (w : string) : Result cpb.CacheEntry :=
  match splitOn "," EmptyString w with
  | [source; hash] => Ok (cpb.mkCacheEntry source hash [])
  | _ => Err (ErrNew "cannot parse invalid wire-format data")
  end.

Definition decodeEntries (w : string) : Result (string * cpb.Entries) :=
  match splitOn "=" EmptyString w with
  | [digest; occs] =>
      match decodeAll decodeOccurrence (fields "|" occs) with
      | Ok l => Ok (digest, cpb.mkEntries 0 l)
      | Err e => Err e
      end
  | _ => Err (ErrNew "cannot parse invalid wire-format data")
  end.

Definition protoUnmarshal (data : string) : Result Cache :=
  match decodeAll decodeEntries (fields ";" data) with
  | Ok l => Ok (list_to_map l)
  | Err e => Err e
  end.

Definition encodeOccurrence (o : cpb.CacheEntry) : string :=
  cpb.SourceId o +:+ "," +:+ cpb.SourceHash o.

Definition encodeEntries (kv : string * cpb.Entries) : string :=
  kv.1 +:+ "=" +:+ String.concat "|" (map encodeOccurrence (cpb.GetEntries kv.2)).

Definition protoMarshal (c : Cache) : Result string :=
  Ok (String.concat ";" (map encodeEntries (map_to_list c))).

(** [sudo rm -rf path] removes every entry whose path starts with [path];
    any other command is not found. *)
Definition run (cmd : list string) (fs : os.FS) : os.FS * option error :=
  match cmd with
  | [_; _; _; path] =>
      (os.mkFS (filter (λ kv, ¬ String.prefix path kv.1) (os.nodes fs)) (os.free fs),
       None)
  | _ => (fs, Some (ErrNew "executable file not found"))
  end.

#[export] Instance runtime : Runtime := {|
  filepath_Join := Join;
  filepath_Base := Base;
  filepath_Split_dir := dirOf EmptyString EmptyString;
  json_Unmarshal := Unmarshal;
  json_Marshal := Marshal;
  proto_Marshal := protoMarshal;
  proto_Unmarshal := protoUnmarshal;
  sha256_hex := λ data, "sha256:" +:+ data;
  exec_Run := run;
  time_Now := λ i, 1000000000 * Z.of_nat i;
|}.

End TextRuntime.

(** ** Concrete inputs *)
Module Inputs.
Import common.

(** An extraction of source [src1] whose manifest lists two digests, the
    second one with two paths. *)
Definition extraction1 : Extraction :=
  mkExtraction "src1" "repo" "/tmp/hashr-src1-1/" "/tmp/hashr-src1-1/export"
               "5a3b7f".

Definition manifest1 : list Sample :=
  [mkSample "A" ["a.txt"] false; mkSample "B" ["b.txt"; "c.txt"] false].

Definition fs1 : os.FS :=
  os.mkFS {[ "/tmp" := os.dir;
             "/tmp/hashr-src1-1" := os.dir;
             "/tmp/hashr-src1-1/export" := os.dir;
             "/tmp/hashr-src1-1/export/hashes.json" := os.file "A=a.txt;B=b.txt,c.txt" ]}
          1000.

(** A manifest that lists the digest [A] twice, for two files with the same
    contents. *)
Definition fsTwice : os.FS :=
  os.mkFS {[ "/tmp" := os.dir;
             "/tmp/hashr-src1-1" := os.dir;
             "/tmp/hashr-src1-1/export" := os.dir;
             "/tmp/hashr-src1-1/export/hashes.json" := os.file "A=a.txt;A=b.txt" ]}
          1000.

(** A cache that already knows digest [B] from source [src0]. *)
Definition cacheB : Cache :=
  {[ "B" := cpb.mkEntries 7 [cpb.mkCacheEntry "src0" "dcb3a5" []] ]}.

Definition clock (i : nat) : Z := 100 + Z.of_nat i.

(** A cache directory whose cache file for [repo] holds bytes that do not
    parse and cannot be unlinked by the engine (the directory is not
    writable for it). *)
Definition fsCorrupt : os.FS :=
  os.mkFS {[ "/var" := os.dir;
             "/var/cache" := os.mkNode true EmptyString true false true;
             "/var/cache/hashr-cache-repo" := os.mkNode false "garbage" true true false ]}
          1000.

(** The same, with a file that cannot be read either. *)
Definition fsUnreadable : os.FS :=
  os.mkFS {[ "/var" := os.dir;
             "/var/cache" := os.mkNode true EmptyString true false true;
             "/var/cache/hashr-cache-repo" := os.mkNode false "A=src0,dcb3a5" false false false ]}
          1000.

(** A cache file that does not parse and can be unlinked. *)
Definition fsGarbage : os.FS :=
  os.mkFS {[ "/var" := os.dir;
             "/var/cache" := os.dir;
             "/var/cache/hashr-cache-repo" := os.file "garbage" ]} 1000.

(** A file system without a cache file. *)
Definition fsEmpty : os.FS := os.mkFS ∅ 1000.

(** A cache directory that holds no cache file yet. *)
Definition fsCacheDir : os.FS :=
  os.mkFS {[ "/var" := os.dir; "/var/cache" := os.dir ]} 1000.

(** No cache file, and the path given as the cache directory is a regular
    file. *)
Definition fsCacheIsFile : os.FS :=
  os.mkFS {[ "/var" := os.dir; "/var/cache" := os.file "notes" ]} 1000.

(** No cache file, and a cache directory that the engine may not search. *)
Definition fsCacheLocked : os.FS :=
  os.mkFS {[ "/var" := os.dir;
             "/var/cache" := os.mkNode true EmptyString false false false ]} 1000.

(** A device with three free bytes that holds the cache of an earlier run. *)
Definition fsFull : os.FS :=
  os.mkFS {[ "/var" := os.dir;
             "/var/cache" := os.dir;
             "/var/cache/hashr-cache-repo" := os.file "A=s0,h0" ]} 3.

(** A source that is already on disk: preprocessing has nothing to do. *)
Definition source (id qHash local : string) : Source.t :=
  Source.mk id "repo" "/srv/repo" local ("/srv/repo/" +:+ id)
            (λ fs, (fs, Ok local)) (Ok qHash).

Definition processor : Processor.t :=
  Processor.mk (λ input fs, (fs, Ok "/tmp/hashr-src1-1/export")).

Definition exporter : Exporter.t := Exporter.mk (λ _, None) "null".

(** An engine whose job store knows the jobs [jobs] and which was started
    with the quick hashes [again] to reprocess. *)
Definition engine (jobs : gmap string string) (again : list string) (export : bool)
  : hashr.HashR :=
  hashr.mkHashR [] processor exporter (Storage.mk (λ _ _, None) (Ok jobs))
                2 2 "/var/cache" false export "/tmp/hashr-uploads" again.

Definition importer (sources : list Source.t) : Importer.t :=
  Importer.mk (Ok sources) "repo" "/srv/repo".

(** The local copy of [src1] and its extraction, already on disk. *)
Definition fsRun : os.FS :=
  os.mkFS {[ "/tmp" := os.dir;
             "/tmp/hashr-src1-1" := os.dir;
             "/tmp/hashr-src1-1/export" := os.dir;
             "/tmp/hashr-src1-1/img.tar" := os.file "image";
             "/tmp/hashr-src1-1/export/hashes.json" := os.file "A=a.txt;B=b.txt,c.txt";
             "/tmp/hashr-src1-1/export/a.txt" := os.file "aaa";
             "/tmp/hashr-src1-1/export/b.txt" := os.file "bbb" ]}
          1000.

Definition source1 : Source.t := source "src1" "abc123" "/tmp/hashr-src1-1/img.tar".

(** A source whose local copy is outside the temp root. *)
Definition sourceHome : Source.t := source "src3" "fed987" "/home/user/img.tar".




(** The state of a run before the first source, with the cache [c]. *)
Definition start (fs : os.FS) (c : Cache) : hashr.State :=
  hashr.mkState fs c 0 false ∅ 0 [].

(** The samples of [src1] after the cache check: [A] is new and its file
    exists, [B] is known. *)
Definition samples1 : list Sample :=
  [mkSample "A" ["/tmp/hashr-src1-1/export/missing.txt";
                 "/tmp/hashr-src1-1/export/a.txt"] true;
   mkSample "B" ["/tmp/hashr-src1-1/export/b.txt";
                 "/tmp/hashr-src1-1/export/c.txt"] false].

(** Two workers on an empty cache; the manifests of their sources both list
    the digest [A]. *)
Definition extraction2 : Extraction :=
  mkExtraction "src2" "repo" "/tmp/hashr-src2-1/" "/tmp/hashr-src2-1/export"
               "dcb3a5".

Definition twoWorkers : workers.Global :=
  workers.mkGlobal (workers.mkShared ∅ ∅ 0 None)
    [workers.enter extraction1 clock [mkSample "A" ["/tmp/hashr-src1-1/export/a.txt"] false];
     workers.enter extraction2 clock [mkSample "A" ["/tmp/hashr-src2-1/export/a.txt"] false]].

(** A source whose preprocessing creates the temp directory of the local
    copy and then fails. *)
Definition sourceBroken : Source.t :=
  Source.mk "src4" "repo" "/srv/repo" EmptyString "/srv/repo/src4"
            (λ fs, (os.mkFS (<["/tmp/hashr-src4-1/" := os.dir]> (os.nodes fs))
                            (os.free fs),
                    Err (ErrNew "gzip: invalid header")))
            (Ok "bad404").

(** An archive of two chunks and six bytes between them. *)
Fixpoint pad (n : nat) : string :=
  match n with
  | O => EmptyString
  | S n' => String "x" (pad n')
  end.

Definition chunk : string := pad (N.to_nat targz.chunkSize).

Definition archive : targz.TarGzFile :=
  targz.mkTarGzFile "big.tar.gz" "/srv/repo/big.tar.gz" EmptyString EmptyString
                    "/srv/repo".

Definition fsArchive : os.FS :=
  os.mkFS {[ "/srv" := os.dir;
             "/srv/repo" := os.dir;
             "/srv/repo/big.tar.gz" := os.file (chunk +:+ "middle" +:+ chunk) ]} 0.

Definition fsSmall : os.FS :=
  os.mkFS {[ "/srv" := os.dir;
             "/srv/repo" := os.dir;
             "/srv/repo/big.tar.gz" := os.file "small" ]} 0.

(** An engine with one worker and one repository of two sources. *)
Definition engine1 : hashr.HashR :=
  hashr.mkHashR [importer [source1; sourceHome]] processor exporter
                (Storage.mk (λ _ _, None) (Ok ∅))
                1 2 "/var/cache" false true "/tmp/hashr-uploads" [].

(** A row of the job store for a job that was exported. *)
Definition rowExported : postgres.Row :=
  postgres.mkRow 0 "src1" "repo" "/srv/repo" "/srv/repo/src1" "5a3b7f" "exported"
                 EmptyString 0 0 0 2 1.

(** A cache as the text codec of the runtime writes and reads it back. *)
Definition cachePlain : Cache :=
  {[ "A" := cpb.mkEntries 0 [cpb.mkCacheEntry "s0" "h0" []; cpb.mkCacheEntry "s1" "h1" []];
     "B" := cpb.mkEntries 0 [cpb.mkCacheEntry "s0" "h0" []] ]}.

Definition cacheA2 : Cache :=
  {[ "A" := cpb.mkEntries 7 [cpb.mkCacheEntry "s0" "h0" []; cpb.mkCacheEntry "s1" "h1" []] ]}.

End Inputs.

(** * Properties *)

(** ** The file system *)
Section FileSystem.

Lemma length_append (a b : string) :
  String.length (a +:+ b) = (String.length a + String.length b)%nat.
Proof. induction a as [|c a IH]; simpl; [done|]. by rewrite IH. Qed.

Lemma ancestorsFrom_length (rest : string) : ∀ seen named a,
  a ∈ os.ancestorsFrom seen named rest →
  (String.length seen ≤ String.length a
   ∧ String.length a < String.length seen + String.length rest)%nat.
Proof.
  induction rest as [|c rest IH]; intros seen named a; simpl.
  { intros Hin. by apply elem_of_nil in Hin. }
  destruct (Ascii.eqb c "/").
  - rewrite elem_of_app. intros [Hin|Hin].
    + destruct named; [|by apply elem_of_nil in Hin].
      apply list_elem_of_singleton in Hin as ->. lia.
    + apply IH in Hin. rewrite length_append in Hin. simpl in Hin. lia.
  - intros Hin. apply IH in Hin. rewrite length_append in Hin. simpl in Hin. lia.
Qed.

Example ancestors_examples :
  os.ancestors "/var/cache/hashr-cache-repo" = ["/var"; "/var/cache"]
  ∧ os.ancestors "/tmp" = []
  ∧ os.ancestors "export/a.txt" = ["export"].
Proof. vm_compute. done. Qed.

(** A path is not one of the directories it runs through. *)
Lemma not_own_ancestor (p : string) : p ∉ os.ancestors p.
Proof.
  intros Hin. apply ancestorsFrom_length in Hin. simpl in Hin. lia.
Qed.

Lemma walkList_ext (m m' : gmap string os.Node) (dirs : list string) :
  (∀ d, d ∈ dirs → m' !! d = m !! d) →
  os.walkList m' dirs = os.walkList m dirs.
Proof.
  induction dirs as [|d dirs IH]; intros Hext; simpl; [done|].
  rewrite (Hext d) by apply list_elem_of_here.
  rewrite IH; [done|]. intros d' Hd'. apply Hext. by apply list_elem_of_further.
Qed.

Lemma walkList_None (m : gmap string os.Node) (dirs : list string) :
  os.walkList m dirs = None ↔ Forall (λ d, os.searchable m d = true) dirs.
Proof.
  induction dirs as [|d dirs IH]; simpl; [by split; [constructor|]|].
  rewrite Forall_cons, <- IH. unfold os.searchable.
  destruct (m !! d) as [n|]; [|by split; [|intros [? _]]].
  destruct (os.is_dir n); [|by split; [|intros [? _]]].
  destruct (os.readable n); simpl; [|by split; [|intros [? _]]].
  by split; [|intros [_ ?]].
Qed.

Lemma walk_nonempty (fs : os.FS) (p : string) :
  os.walk fs p = None → p ≠ EmptyString.
Proof. unfold os.walk. by case_decide. Qed.

Lemma lookup_Some (fs : os.FS) (p : string) (n : os.Node) :
  os.lookup fs p = Some n ↔ os.walk fs p = None ∧ os.nodes fs !! p = Some n.
Proof.
  unfold os.lookup. destruct (os.walk fs p); [by split; [|intros [? _]]|].
  by split; [|intros [_ ?]].
Qed.

Lemma lookup_raw (fs : os.FS) (p : string) (n : os.Node) :
  os.lookup fs p = Some n → os.nodes fs !! p = Some n.
Proof. intros Hl. by apply lookup_Some in Hl as [_ ?]. Qed.

Lemma Stat_None (fs : os.FS) (p : string) :
  os.Stat fs p = None ↔ is_Some (os.lookup fs p).
Proof.
  unfold os.Stat. destruct (os.lookup fs p); [by split; [eexists|]|].
  by split; [|intros [? ?]].
Qed.

Lemma Stat_missing (fs : os.FS) (p : string) :
  os.walk fs p = None → os.nodes fs !! p = None → os.Stat fs p = Some ENOENT.
Proof.
  intros Hw Hn. unfold os.Stat, os.lookup, os.missing. by rewrite Hw, Hn.
Qed.

(** The errors of path resolution. *)
Lemma walkList_errors (m : gmap string os.Node) (dirs : list string) (e : error) :
  os.walkList m dirs = Some e → e = ENOENT ∨ e = ENOTDIR ∨ e = EACCES.
Proof.
  induction dirs as [|d dirs IH]; simpl; [done|].
  destruct (m !! d) as [n|]; [|intros [= <-]; by left].
  destruct (os.is_dir n); [|intros [= <-]; by right; left].
  destruct (os.readable n); [done|]. intros [= <-]. by right; right.
Qed.

Lemma missing_errors (fs : os.FS) (p : string) :
  os.missing fs p = ENOENT ∨ os.missing fs p = ENOTDIR ∨ os.missing fs p = EACCES.
Proof.
  unfold os.missing, os.walk. case_decide; [by left|].
  destruct (os.walkList (os.nodes fs) (os.ancestors p)) as [e|] eqn:Hw; [|by left].
  by apply walkList_errors in Hw.
Qed.

(** A change of the entry at [p] alone is not seen at another path [q],
    when it leaves [p] a directory that can be searched or not as it was,
    or when nothing lies at [q]. *)
Lemma lookup_frame (fs fs' : os.FS) (p q : string) :
  q ≠ p →
  (∀ d, d ≠ p → os.nodes fs' !! d = os.nodes fs !! d) →
  (p ∈ os.ancestors q →
     os.searchable (os.nodes fs') p = os.searchable (os.nodes fs) p
     ∨ os.nodes fs !! q = None) →
  os.lookup fs' q = os.lookup fs q.
Proof.
  intros Hq Hsame Hp. unfold os.lookup, os.walk.
  case_decide; [done|]. rewrite (Hsame q Hq).
  destruct (decide (p ∈ os.ancestors q)) as [Hin|Hout].
  - destruct (Hp Hin) as [Hs|Hnone].
    + assert (os.walkList (os.nodes fs') (os.ancestors q) = None
              ↔ os.walkList (os.nodes fs) (os.ancestors q) = None) as Hiff.
      { rewrite !walkList_None. apply Forall_iff. intros d.
        destruct (decide (d = p)) as [->|Hd]; [by rewrite Hs|].
        unfold os.searchable. by rewrite (Hsame d Hd). }
      destruct (os.walkList (os.nodes fs') (os.ancestors q)),
               (os.walkList (os.nodes fs) (os.ancestors q)); try done.
      * by destruct Hiff as [_ Hx]; specialize (Hx eq_refl).
      * by destruct Hiff as [Hx _]; specialize (Hx eq_refl).
    + rewrite Hnone. by do 2 case_match.
  - rewrite (walkList_ext (os.nodes fs) (os.nodes fs')); [done|].
    intros d Hd. apply Hsame. by intros ->.
Qed.

(** Nor does a change at [p] alone disturb the resolution of [p]. *)
Lemma walk_self (fs fs' : os.FS) (p : string) :
  (∀ d, d ≠ p → os.nodes fs' !! d = os.nodes fs !! d) →
  os.walk fs' p = os.walk fs p.
Proof.
  intros Hsame. unfold os.walk. case_decide; [done|].
  apply walkList_ext. intros d Hd. apply Hsame. intros ->.
  by apply not_own_ancestor in Hd.
Qed.

Lemma lookup_self (fs fs' : os.FS) (p : string) :
  (∀ d, d ≠ p → os.nodes fs' !! d = os.nodes fs !! d) →
  os.walk fs p = None →
  os.lookup fs' p = os.nodes fs' !! p.
Proof.
  intros Hsame Hw. unfold os.lookup. by rewrite (walk_self fs fs' p Hsame), Hw.
Qed.

(** [os.Create] without error: the path resolved, and the entry is now an
    empty regular file with the permissions it had, or a new one. *)
Lemma Create_ok (fs fsc : os.FS) (p : string) :
  os.Create fs p = (fsc, None) →
  ∃ r rm,
    os.walk fs p = None
    ∧ os.nodes fsc = <[p := os.mkNode false EmptyString r true rm]> (os.nodes fs)
    ∧ os.searchable (os.nodes fs) p = false
    ∧ (∀ n, os.nodes fs !! p = Some n → r = os.readable n)
    ∧ (os.nodes fs !! p = None → r = true).
Proof.
  unfold os.Create, os.searchable.
  destruct (os.walk fs p) as [e|] eqn:Hw; [done|].
  destruct (os.nodes fs !! p) as [n|] eqn:Hn.
  - destruct (os.is_dir n) eqn:Hd; [done|]. destruct (os.writable n); [|done].
    intros [= <-]. exists (os.readable n), (os.removable n). simpl.
    repeat split; [by intros ? [= <-] | done].
  - destruct (os.parentWritable fs p); [|done].
    intros [= <-]. exists true, true. by repeat split.
Qed.

Lemma Create_frame_lookup (fs fsc : os.FS) (p q : string) :
  os.Create fs p = (fsc, None) → q ≠ p → os.lookup fsc q = os.lookup fs q.
Proof.
  intros Hc Hq. destruct (Create_ok fs fsc p Hc) as (r & rm & _ & Hnodes & Hs & _).
  apply (lookup_frame fs fsc p q Hq).
  - intros d Hd. by rewrite Hnodes, lookup_insert_ne.
  - intros _. left. rewrite Hs, Hnodes. unfold os.searchable.
    by rewrite lookup_insert_eq.
Qed.

(** [f.Write]: the entry keeps its kind and permissions. *)
Lemma Write_nodes (fs fsw : os.FS) (p b : string) (e : option error) :
  os.Write fs p b = (fsw, e) →
  os.nodes fsw = os.nodes fs
  ∨ ∃ n, os.lookup fs p = Some n
      ∧ os.nodes fsw
        = <[p := os.mkNode (os.is_dir n)
                  (os.data n +:+ String.substring 0 (String.length b `min` os.free fs) b)
                  (os.readable n) (os.writable n) (os.removable n)]> (os.nodes fs)
      ∧ e = (if Nat.ltb (String.length b `min` os.free fs) (String.length b)
             then Some ENOSPC else None).
Proof.
  unfold os.Write. destruct (os.lookup fs p) as [n|] eqn:Hn.
  - intros [= <- <-]. right. by exists n.
  - intros [= <- _]. by left.
Qed.

Lemma Write_frame_lookup (fs fsw : os.FS) (p b q : string) (e : option error) :
  os.Write fs p b = (fsw, e) → q ≠ p → os.lookup fsw q = os.lookup fs q.
Proof.
  intros Hw Hq. destruct (Write_nodes fs fsw p b e Hw) as [Hsame|(n & Hn & Hnodes & _)].
  - apply (lookup_frame fs fsw p q Hq); [by rewrite Hsame|].
    intros _. left. by rewrite Hsame.
  - apply (lookup_frame fs fsw p q Hq).
    + intros d Hd. by rewrite Hnodes, lookup_insert_ne.
    + intros _. left. rewrite Hnodes. unfold os.searchable.
      rewrite lookup_insert_eq. by rewrite (lookup_raw fs p n Hn).
Qed.

(** [os.Remove] without error: the entry is gone and no other path sees a
    change. *)
Lemma Remove_ok (fs fs1 : os.FS) (p : string) :
  os.Remove fs p = (fs1, None) →
  ∃ n, os.lookup fs p = Some n
    ∧ os.removable n = true
    ∧ (os.is_dir n && os.occupied fs p = false)
    ∧ fs1 = os.mkFS (delete p (os.nodes fs)) (os.free fs + String.length (os.data n)).
Proof.
  unfold os.Remove. destruct (os.lookup fs p) as [n|] eqn:Hn; [|done].
  destruct (os.removable n) eqn:Hrm; [|done].
  destruct (os.is_dir n && os.occupied fs p) eqn:Hocc; [done|].
  intros [= <-]. by exists n.
Qed.

Lemma Remove_frame_lookup (fs fs1 : os.FS) (p q : string) :
  os.Remove fs p = (fs1, None) → q ≠ p → os.lookup fs1 q = os.lookup fs q.
Proof.
  intros Hr Hq. destruct (Remove_ok fs fs1 p Hr) as (n & Hn & _ & Hocc & ->).
  apply lookup_raw in Hn.
  apply (lookup_frame _ _ p q Hq); simpl.
  - intros d Hd. by rewrite lookup_delete_ne.
  - intros Hin. unfold os.searchable. rewrite lookup_delete_eq, Hn.
    destruct (os.is_dir n); [|by left]. right. simpl in Hocc.
    unfold os.occupied in Hocc. apply bool_decide_eq_false in Hocc.
    destruct (os.nodes fs !! q) as [nq|] eqn:Hnq; [|done].
    exfalso. apply Hocc. exists q, nq. by split.
Qed.

Lemma Remove_gone (fs fs1 : os.FS) (p : string) :
  os.Remove fs p = (fs1, None) → os.Stat fs1 p = Some ENOENT.
Proof.
  intros Hr. destruct (Remove_ok fs fs1 p Hr) as (n & Hn & _ & _ & ->).
  apply lookup_Some in Hn as [Hw _]. apply Stat_missing; simpl.
  - rewrite <- Hw. apply walk_self. simpl. intros d Hd. by rewrite lookup_delete_ne.
  - apply lookup_delete_eq.
Qed.

(** What the calls do to the stored entries. *)
Lemma Create_frame (fs : os.FS) (p q : string) :
  q ≠ p → os.nodes (os.Create fs p).1 !! q = os.nodes fs !! q.
Proof.
  intros Hne. unfold os.Create. destruct (os.walk fs p); [done|].
  destruct (os.nodes fs !! p) as [node|].
  - destruct (os.is_dir node); [done|]. destruct (os.writable node); [|done].
    simpl. by rewrite lookup_insert_ne.
  - destruct (os.parentWritable fs p); [|done]. simpl. by rewrite lookup_insert_ne.
Qed.

Lemma Write_frame (fs : os.FS) (p b q : string) :
  q ≠ p → os.nodes (os.Write fs p b).1 !! q = os.nodes fs !! q.
Proof.
  intros Hne. unfold os.Write. destruct (os.lookup fs p); [|done].
  simpl. by rewrite lookup_insert_ne.
Qed.

Lemma WriteFile_frame (fs : os.FS) (p b q : string) :
  q ≠ p → os.nodes (os.WriteFile fs p b).1 !! q = os.nodes fs !! q.
Proof.
  intros Hne. unfold os.WriteFile.
  pose proof (Create_frame fs p q Hne) as Hc.
  destruct (os.Create fs p) as [fsc [e|]]; simpl in Hc; [done|].
  by rewrite Write_frame.
Qed.

Lemma Mkdir_frame (fs : os.FS) (p q : string) :
  q ≠ p → os.nodes (os.Mkdir fs p).1 !! q = os.nodes fs !! q.
Proof.
  intros Hne. unfold os.Mkdir. destruct (os.walk fs p); [done|].
  destruct (os.nodes fs !! p); [done|].
  destruct (os.parentWritable fs p); [|done]. simpl. by rewrite lookup_insert_ne.
Qed.

(** [os.MkdirAll] changes no entry that exists: all it does is to make
    directories that are missing on the way to its path. *)
Lemma mkdirChain_frame (dirs : list string) (q : string) : ∀ m parent,
  (os.mkdirChain m parent dirs).1 !! q = m !! q
  ∨ (q ∈ dirs ∧ m !! q = None ∧ (os.mkdirChain m parent dirs).1 !! q = Some os.dir).
Proof.
  induction dirs as [|d rest IH]; intros m parent; [by left|].
  cbn [os.mkdirChain]. destruct (m !! d) as [n|] eqn:Hd.
  - destruct (os.is_dir n); [|by left]. destruct rest as [|d' rest]; [by left|].
    destruct (os.readable n); [|by left].
    destruct (IH m (os.writable n)) as [Hl|(Hin & Hnone & Hl)]; [by left|].
    right. split; [by apply list_elem_of_further | done].
  - destruct parent; [|by left].
    destruct (IH (<[d := os.dir]> m) true) as [Hl|(Hin & Hnone & Hl)].
    + destruct (decide (q = d)) as [->|Hne].
      * right. split; [apply list_elem_of_here|]. split; [done|].
        by rewrite Hl, lookup_insert_eq.
      * left. by rewrite Hl, lookup_insert_ne.
    + right. split; [by apply list_elem_of_further|]. split; [|done].
      destruct (decide (q = d)) as [->|Hne]; [by rewrite lookup_insert_eq in Hnone|].
      by rewrite lookup_insert_ne in Hnone.
Qed.

Lemma MkdirAll_frame (fs : os.FS) (p q : string) :
  os.nodes (os.MkdirAll fs p).1 !! q = os.nodes fs !! q
  ∨ (q ∈ os.ancestors p ++ [p]
     ∧ os.nodes fs !! q = None
     ∧ os.nodes (os.MkdirAll fs p).1 !! q = Some os.dir).
Proof.
  unfold os.MkdirAll. case_decide; [by left|]. simpl. apply mkdirChain_frame.
Qed.

End FileSystem.

(** ** The loop of [cache.Check] *)
Section CheckLoop.
Context `{Runtime}.
Import common.

Lemma checkLoop_acc ext clock l : ∀ i c acc,
  cache.checkLoop ext clock i l c acc =
  ((cache.checkLoop ext clock i l c []).1,
   acc ++ (cache.checkLoop ext clock i l c []).2).
Proof.
  induction l as [|s l IH]; intros i c acc; simpl.
  - by rewrite app_nil_r.
  - destruct (cache.checkSample ext (clock i) c s) as [c1 e].
    rewrite (IH (S i) c1 (acc ++ [e])), (IH (S i) c1 [e]).
    simpl. by rewrite <- app_assoc.
Qed.

Lemma checkLoop_length ext clock l : ∀ i c,
  length (cache.checkLoop ext clock i l c []).2 = length l.
Proof.
  induction l as [|s l IH]; intros i c; simpl; [done|].
  destruct (cache.checkSample ext (clock i) c s) as [c1 e].
  rewrite checkLoop_acc. simpl. by rewrite IH.
Qed.

Lemma checkLoop_step ext clock l : ∀ i c j s,
  l !! j = Some s →
  let cj := (cache.checkLoop ext clock i (take j l) c []).1 in
  (cache.checkLoop ext clock i l c []).2 !! j
    = Some (cache.checkSample ext (clock (i + j)%nat) cj s).2
  ∧ (cache.checkLoop ext clock i (take (S j) l) c []).1
    = (cache.checkSample ext (clock (i + j)%nat) cj s).1.
Proof.
  induction l as [|x l IH]; intros i c j s Hj; [done|].
  destruct j as [|j]; simpl in *.
  - injection Hj as ->. rewrite Nat.add_0_r.
    destruct (cache.checkSample ext (clock i) c s) as [c1 e] eqn:E.
    rewrite checkLoop_acc. simpl. by split.
  - destruct (cache.checkSample ext (clock i) c x) as [c1 e] eqn:E.
    rewrite !(checkLoop_acc _ _ _ _ _ [e]). simpl.
    destruct (IH (S i) c1 j s Hj) as [H1 H2].
    replace (i + S j)%nat with (S i + j)%nat by lia.
    split; [exact H1|].
    destruct (take j l) eqn:Et; exact H2.
Qed.

Lemma checkLoop_absent ext clock l : ∀ i c digest,
  (cache.checkLoop ext clock i l c []).1 !! digest = None
  ↔ c !! digest = None ∧ digest ∉ map Sha256 l.
Proof.
  induction l as [|x l IH]; intros i c digest; simpl.
  - split; [intros ?; split; [done|apply not_elem_of_nil] | by intros [? _]].
  - destruct (cache.checkSample ext (clock i) c x) as [c1 e] eqn:E.
    rewrite checkLoop_acc. simpl. rewrite IH.
    assert (c1 !! digest = None ↔ c !! digest = None ∧ digest ≠ Sha256 x) as ->.
    { unfold cache.checkSample in E.
      destruct (c !! Sha256 x) eqn:Ex; injection E as <- <-;
        rewrite lookup_insert_None; intuition congruence. }
    rewrite not_elem_of_cons. tauto.
Qed.

Lemma checkLoop_occurrences ext clock l : ∀ i c digest,
  ∃ n : nat,
    occurrences (cache.checkLoop ext clock i l c []).1 digest
    = occurrences c digest
      ++ replicate n (cpb.mkCacheEntry (SourceID ext) (SourceSHA256 ext) []).
Proof.
  induction l as [|x l IH]; intros i c digest; simpl.
  - exists 0%nat. by rewrite app_nil_r.
  - destruct (cache.checkSample ext (clock i) c x) as [c1 e] eqn:E.
    rewrite checkLoop_acc. simpl.
    destruct (IH (S i) c1 digest) as [n ->].
    unfold cache.checkSample in E.
    destruct (decide (Sha256 x = digest)) as [<-|Hne].
    + exists (S n). unfold occurrences.
      destruct (c !! Sha256 x) eqn:Ex; injection E as <- <-;
        rewrite lookup_insert_eq; simpl; by rewrite <- ?app_assoc.
    + exists n. unfold occurrences.
      destruct (c !! Sha256 x) eqn:Ex; injection E as <- <-;
        by rewrite lookup_insert_ne.
Qed.

End CheckLoop.

(** ** [cache.Check] *)
Section CheckProperties.
Context `{Runtime}.
Import common.

Lemma resolvePaths_fmap dir (l : list Sample) :
  cache.resolvePaths dir l
  = (λ sample, mkSample (Sha256 sample)
                 (map (λ p, filepath_Join [dir; p]) (Paths sample))
                 (Upload sample)) <$> l.
Proof. reflexivity. Qed.

Lemma resolvePaths_digests dir (l : list Sample) :
  map Sha256 (cache.resolvePaths dir l) = map Sha256 l.
Proof. induction l as [|x l IH]; simpl; [done|]. by rewrite IH. Qed.

Lemma checkSample_export ext now c s :
  let e := (cache.checkSample ext now c s).2 in
  Sha256 e = Sha256 s ∧ Paths e = Paths s
  ∧ (Upload e = true ↔ c !! Sha256 s = None)
  ∧ (Upload e = false ↔ is_Some (c !! Sha256 s)).
Proof.
  unfold cache.checkSample. destruct (c !! Sha256 s) eqn:E; simpl.
  - split; [done|]. split; [done|].
    split; split; intros Hx; try done; by eexists.
  - split; [done|]. split; [done|].
    split; split; intros Hx; try done; by destruct Hx.
Qed.

Lemma checkSample_fresh ext now c s :
  c !! Sha256 s = None →
  (cache.checkSample ext now c s).1 !! Sha256 s
  = Some (cpb.mkEntries now
            [cpb.mkCacheEntry (SourceID ext) (SourceSHA256 ext) []]).
Proof.
  intros E. unfold cache.checkSample. rewrite E. simpl.
  by rewrite lookup_insert_eq.
Qed.

(** C2 (amended).  When the manifest [hashes.json] of an extraction is read and
    parsed, [cache.Check] returns one sample per manifest entry, in order.
    The sample of an entry has the digest of the entry and the paths of the
    entry, each joined with the extraction directory.  Its upload flag is
    true exactly when the digest is absent from the cache at the moment the
    entry is processed (absent from the cache given to [Check] and not the
    digest of an earlier entry), and false exactly when it is present.  When
    the digest is absent, a fresh cache entry with a single occurrence is
    stored under it. *)
Theorem Check_upload_iff_absent (fs : os.FS) (clock : nat → Z)
    (extraction : Extraction) (cache0 : Cache) (data : string)
    (manifest : list Sample) :
  os.ReadFile fs (filepath_Join [Path extraction; "hashes.json"]) = Ok data →
  json_Unmarshal data = Ok manifest →
  ∃ cache1 exports,
    cache.Check fs clock extraction cache0 = (cache1, Ok exports)
    ∧ length exports = length manifest
    ∧ cache1 = cacheAt clock extraction cache0 manifest (length manifest)
    ∧ ∀ i entry, manifest !! i = Some entry →
        let before := cacheAt clock extraction cache0 manifest i in
        let after := cacheAt clock extraction cache0 manifest (S i) in
        ∃ sample,
          exports !! i = Some sample
          ∧ Sha256 sample = Sha256 entry
          ∧ Paths sample
            = map (λ p, filepath_Join [Path extraction; p]) (Paths entry)
          ∧ (Upload sample = true ↔ before !! Sha256 entry = None)
          ∧ (Upload sample = false ↔ is_Some (before !! Sha256 entry))
          ∧ (before !! Sha256 entry = None
             ↔ cache0 !! Sha256 entry = None
               ∧ Sha256 entry ∉ map Sha256 (take i manifest))
          ∧ (before !! Sha256 entry = None →
             after !! Sha256 entry
             = Some (cpb.mkEntries (clock i)
                       [cpb.mkCacheEntry (SourceID extraction)
                          (SourceSHA256 extraction) []])).
Proof.
  intros Hread Hjson.
  set (l := cache.resolvePaths (Path extraction) manifest).
  exists (cache.checkLoop extraction clock 0 l cache0 []).1,
         (cache.checkLoop extraction clock 0 l cache0 []).2.
  split.
  { unfold cache.Check, cache.readJSON. rewrite Hread, Hjson. fold l.
    by destruct (cache.checkLoop extraction clock 0 l cache0 []). }
  split.
  { rewrite checkLoop_length. unfold l. by rewrite resolvePaths_fmap, length_fmap. }
  split.
  { unfold cacheAt. fold l.
    replace (length manifest) with (length l)
      by (unfold l; by rewrite resolvePaths_fmap, length_fmap).
    by rewrite firstn_all. }
  intros i entry Hi before after.
  set (r := mkSample (Sha256 entry)
              (map (λ p, filepath_Join [Path extraction; p]) (Paths entry))
              (Upload entry)).
  assert (l !! i = Some r) as Hl.
  { unfold l. rewrite resolvePaths_fmap, list_lookup_fmap, Hi. done. }
  destruct (checkLoop_step extraction clock l 0 cache0 i r Hl) as [Hexp Hnext].
  fold l in Hexp, Hnext. simpl in Hexp, Hnext.
  change (cache.checkLoop extraction clock 0 (take i l) cache0 []).1
    with before in Hexp, Hnext.
  destruct (checkSample_export extraction (clock i) before r)
    as (Hsha & Hpaths & Hup & Hnup).
  eexists. split; [exact Hexp|].
  split; [exact Hsha|]. split; [exact Hpaths|].
  split; [exact Hup|]. split; [exact Hnup|]. split.
  - unfold before, cacheAt. fold l. rewrite checkLoop_absent.
    unfold l. rewrite resolvePaths_fmap, <- fmap_take, <- resolvePaths_fmap.
    rewrite resolvePaths_digests. tauto.
  - intros Habs. unfold after, cacheAt. fold l.
    rewrite Hnext. by apply (checkSample_fresh extraction (clock i) before r).
Qed.

(** Every occurrence that [cache.Check] adds under a digest carries the id
    and the SHA-256 of the source, and an empty list of paths. *)
Lemma Check_occurrences (fs : os.FS) (clock : nat → Z)
    (extraction : Extraction) (cache0 : Cache) (digest : string) :
  ∃ n : nat,
    occurrences (cache.Check fs clock extraction cache0).1 digest
    = occurrences cache0 digest
      ++ replicate n (cpb.mkCacheEntry (SourceID extraction)
                        (SourceSHA256 extraction) []).
Proof.
  unfold cache.Check. destruct (cache.readJSON fs extraction) as [l|e].
  - destruct (checkLoop_occurrences extraction clock l 0 cache0 digest) as [n Hn].
    exists n. by destruct (cache.checkLoop extraction clock 0 l cache0 []).
  - exists 0%nat. simpl. by rewrite app_nil_r.
Qed.

(** The loop of [Check] sets the upload flag for a digest once when the
    digest is absent from the cache and listed, and never otherwise. *)
Lemma checkLoop_uploads ext clock l digest : ∀ i c,
  length (uploadsOf digest (cache.checkLoop ext clock i l c []).2)
  = if decide (c !! digest = None ∧ digest ∈ map Sha256 l) then 1%nat else 0%nat.
Proof.
  unfold uploadsOf.
  induction l as [|x l IH]; intros i c; simpl.
  - rewrite decide_False; [done|]. intros [_ Hd]. by apply elem_of_nil in Hd.
  - destruct (cache.checkSample ext (clock i) c x) as [c1 e] eqn:E.
    rewrite checkLoop_acc. simpl. rewrite filter_cons.
    pose proof (checkSample_export ext (clock i) c x) as (Hsha & _ & Hup & Hnup).
    rewrite E in Hsha, Hup, Hnup. simpl in Hsha, Hup, Hnup.
    assert (c1 !! digest = None ↔ c !! digest = None ∧ digest ≠ Sha256 x) as Hc1.
    { unfold cache.checkSample in E.
      destruct (c !! Sha256 x) eqn:Ex; injection E as <- <-;
        rewrite lookup_insert_None; intuition congruence. }
    destruct (decide (Sha256 e = digest ∧ Upload e = true)) as [[Hd Hu]|Hn];
      simpl; rewrite IH.
    + apply Hup in Hu. rewrite Hsha in Hd. subst digest.
      rewrite decide_False by (rewrite Hc1; tauto).
      rewrite decide_True; [done|]. split; [done|]. apply list_elem_of_here.
    + destruct (decide (c1 !! digest = None ∧ digest ∈ map Sha256 l)) as [[H1 H2]|H1].
      * apply Hc1 in H1 as [H1 H3]. rewrite decide_True; [done|].
        split; [done|]. by apply list_elem_of_further.
      * destruct (decide (c !! digest = None ∧ digest ∈ Sha256 x :: map Sha256 l))
          as [Hd|Hd]; [|done].
        exfalso. destruct Hd as [Hcd Hin].
        destruct (decide (digest = Sha256 x)) as [->|Hne].
        -- apply Hn. split; [done|]. by apply Hup.
        -- apply elem_of_cons in Hin as [? | Hin]; [done|].
           apply H1. split; [by apply Hc1 | done].
Qed.

(** When the checks of the sources of a run are serialised, a digest is
    uploaded exactly once if it is absent from the cache at the start and
    some manifest lists it, and never otherwise. *)
Lemma serial_checks_upload_once (fs : os.FS) (clock : nat → Z) (digest : string)
    (extractions : list Extraction) : ∀ cache0 : Cache,
  length (uploadsOf digest (checkAll fs clock extractions cache0))
  = if decide (cache0 !! digest = None ∧ digest ∈ digestsOf fs extractions)
    then 1%nat else 0%nat.
Proof.
  induction extractions as [|ext rest IH]; intros cache0; simpl.
  - rewrite decide_False; [done|]. intros [_ Hd]. by apply elem_of_nil in Hd.
  - unfold cache.Check. destruct (cache.readJSON fs ext) as [l|e]; [|apply IH].
    pose proof (checkLoop_uploads ext clock l digest 0 cache0) as Hl.
    pose proof (checkLoop_absent ext clock l 0 cache0 digest) as Ha.
    destruct (cache.checkLoop ext clock 0 l cache0 []) as [cache1 exports].
    simpl in Hl, Ha. unfold uploadsOf in *. rewrite filter_app, length_app, Hl, IH.
    destruct (decide (cache0 !! digest = None ∧ digest ∈ map Sha256 l))
      as [[H1 H2]|H1].
    + rewrite decide_False by (rewrite Ha; tauto).
      rewrite decide_True; [done|]. split; [done|]. apply elem_of_app. by left.
    + destruct (decide (cache1 !! digest = None ∧ digest ∈ digestsOf fs rest))
        as [[H2 H3]|H2].
      * apply Ha in H2 as [H2 H4]. rewrite decide_True; [done|].
        split; [done|]. apply elem_of_app. by right.
      * destruct (decide (cache0 !! digest = None
                          ∧ digest ∈ map Sha256 l ++ digestsOf fs rest))
          as [Hd|Hd]; [|done].
        exfalso. destruct Hd as [Hc Hin].
        apply elem_of_app in Hin as [Hin|Hin]; [by apply H1|].
        apply H2. split; [|done]. apply Ha. split; [done|].
        intros Hx. by apply H1.
Qed.

End CheckProperties.

(** The manifest of [src1] checked against a cache that knows [B]. *)
Lemma Check_upload_iff_absent_witness :
  ∃ cache1 exports,
    cache.Check (H := TextRuntime.runtime) Inputs.fs1 Inputs.clock
                Inputs.extraction1 Inputs.cacheB = (cache1, Ok exports)
    ∧ length exports = 2%nat.
Proof.
  destruct (Check_upload_iff_absent (H := TextRuntime.runtime)
              Inputs.fs1 Inputs.clock Inputs.extraction1 Inputs.cacheB
              "A=a.txt;B=b.txt,c.txt" Inputs.manifest1)
    as (c & e & H1 & H2 & _).
  - vm_compute. reflexivity.
  - vm_compute. reflexivity.
  - exists c, e. split; [exact H1 | exact H2].
Defined.

(** C2 as stated fails: a sample does not carry every path that the
    manifest lists for its digest, but the paths of its own entry.  On a
    manifest that lists the digest [A] twice, with [a.txt] and with
    [b.txt], [cache.Check] returns two samples for [A]: the one to upload
    carries [a.txt] only, and [b.txt] is carried by the second, which is
    not uploaded. *)
Lemma Check_duplicate_digest_paths :
  json_Unmarshal (Runtime := TextRuntime.runtime) "A=a.txt;A=b.txt"
  = Ok [common.mkSample "A" ["a.txt"] false; common.mkSample "A" ["b.txt"] false]
  ∧ (cache.Check (H := TextRuntime.runtime) Inputs.fsTwice Inputs.clock
                 Inputs.extraction1 ∅).2
    = Ok [common.mkSample "A" ["/tmp/hashr-src1-1/export/a.txt"] true;
          common.mkSample "A" ["/tmp/hashr-src1-1/export/b.txt"] false].
Proof. vm_compute. split; reflexivity. Qed.

(** On the manifest of [src1] and a cache that knows [B], the sample of [A] is
    to be uploaded and the sample of [B] is not; both carry their resolved
    paths. *)
Example Check_example :
  (cache.Check (H := TextRuntime.runtime) Inputs.fs1 Inputs.clock
               Inputs.extraction1 Inputs.cacheB).2
  = Ok [common.mkSample "A" ["/tmp/hashr-src1-1/export/a.txt"] true;
        common.mkSample "B" ["/tmp/hashr-src1-1/export/b.txt";
                             "/tmp/hashr-src1-1/export/c.txt"] false].
Proof. vm_compute. reflexivity. Qed.

(** C3.  The occurrence that [cache.Check] stores for a digest records the
    id and the SHA-256 of the source, but not the path of the file: the
    field [Path] of every new occurrence is empty, both in a fresh entry
    ([A]) and in the occurrence appended to an existing entry ([B]),
    although the manifest lists the paths [a.txt], [b.txt] and [c.txt]. *)
Theorem Check_occurrence_without_path :
  let cache1 := (cache.Check (H := TextRuntime.runtime) Inputs.fs1 Inputs.clock
                             Inputs.extraction1 Inputs.cacheB).1 in
  occurrences cache1 "A" = [cpb.mkCacheEntry "src1" "5a3b7f" []]
  ∧ occurrences cache1 "B"
    = [cpb.mkCacheEntry "src0" "dcb3a5" []; cpb.mkCacheEntry "src1" "5a3b7f" []].
Proof. vm_compute. split; reflexivity. Qed.

(** ** [cache.Load] and [cache.Save] *)
Section CacheFile.
Context `{Runtime}.

Lemma substring_full (s : string) : String.substring 0 (String.length s) s = s.
Proof. induction s as [|a s IH]; simpl; [done|]. by rewrite IH. Qed.

(** A file that is created or truncated and then written without error
    holds the bytes written, and no other path changes. *)
Lemma Create_Write_node (fs fsc fsw : os.FS) (p b : string) :
  os.Create fs p = (fsc, None) →
  os.Write fsc p b = (fsw, None) →
  ∃ r rm,
    os.lookup fsw p = Some (os.mkNode false b r true rm)
    ∧ (∀ n, os.nodes fs !! p = Some n → r = os.readable n)
    ∧ (os.nodes fs !! p = None → r = true).
Proof.
  intros Hc Hw.
  destruct (Create_ok fs fsc p Hc) as (r & rm & Hwalk & Hnodes & _ & Hold & Hnew).
  assert (os.lookup fsc p = Some (os.mkNode false EmptyString r true rm)) as Hl.
  { rewrite (lookup_self fs fsc p); [by rewrite Hnodes, lookup_insert_eq| |done].
    intros d Hd. by rewrite Hnodes, lookup_insert_ne. }
  unfold os.Write in Hw. rewrite Hl in Hw. simpl in Hw.
  destruct (Nat.ltb_spec (String.length b `min` os.free fsc) (String.length b))
    as [Hlt|Hge]; [done|].
  injection Hw as <-. exists r, rm. split; [|done].
  rewrite (lookup_self fsc); simpl.
  - rewrite lookup_insert_eq.
    replace (String.length b `min` os.free fsc)%nat with (String.length b) by lia.
    by rewrite substring_full.
  - intros d Hd. by rewrite lookup_insert_ne.
  - by apply lookup_Some in Hl as [? _].
Qed.

Lemma Create_Write_ok (fs fsc fsw : os.FS) (p b : string) :
  os.Create fs p = (fsc, None) →
  os.Write fsc p b = (fsw, None) →
  ∃ node,
    os.lookup fsw p = Some node
    ∧ os.is_dir node = false
    ∧ os.data node = b
    ∧ ∀ q, q ≠ p → os.lookup fsw q = os.lookup fs q.
Proof.
  intros Hc Hw.
  destruct (Create_Write_node fs fsc fsw p b Hc Hw) as (r & rm & Hn & _).
  eexists. split; [exact Hn|]. split; [done|]. split; [done|].
  intros q Hq. rewrite <- (Create_frame_lookup fs fsc p q Hc Hq).
  by apply (Write_frame_lookup fsc _ p b q None).
Qed.

Lemma WriteFile_ok (fs fs2 : os.FS) (p b : string) :
  os.WriteFile fs p b = (fs2, None) →
  (os.data <$> os.lookup fs2 p) = Some b
  ∧ ∀ q, q ≠ p → os.lookup fs2 q = os.lookup fs q.
Proof.
  unfold os.WriteFile. destruct (os.Create fs p) as [fsc [e|]] eqn:Hc; [done|].
  intros Hw. destruct (Create_Write_ok fs fsc fs2 p b Hc Hw) as (n & Hn & _ & Hd & Ho).
  rewrite Hn. simpl. by rewrite Hd.
Qed.

(** C10 (amended).  When no cache file exists for a repository, what
    [cache.Load] does depends on the error with which the cache path fails
    to resolve.  When the path does not exist ([ENOENT]: the cache
    directory holds no such file, or is missing itself), [Load] returns the
    empty cache and no error.  When a directory of the path is a regular
    file ([ENOTDIR]) or may not be searched ([EACCES]), [os.Stat] fails
    with an error that [os.IsNotExist] does not accept; [Load] then takes
    the path for a cache file it cannot use, fails to read it and to delete
    it, and returns the error of the deletion.  In both cases the file
    system is left as it is: no file is created or deleted. *)
Theorem Load_without_file (fs : os.FS) (repoName cacheDir : string) :
  let p := cache.cachePath repoName cacheDir in
  os.lookup fs p = None →
  os.Stat fs p = Some (os.missing fs p)
  ∧ (os.missing fs p = ENOENT ∨ os.missing fs p = ENOTDIR
     ∨ os.missing fs p = EACCES)
  ∧ cache.Load fs repoName cacheDir
    = (fs, if os.IsNotExist (Some (os.missing fs p))
           then Ok ∅
           else Err (Errorf ("error while trying to delete the " +:+ repoName
                             +:+ " repo cache file") (os.missing fs p))).
Proof.
  intros p Hnone. split; [|split].
  - unfold os.Stat. by rewrite Hnone.
  - apply missing_errors.
  - unfold cache.Load, cache.removeCorrupted, os.Stat, os.ReadFile, os.Remove.
    fold p. rewrite Hnone. by destruct (os.IsNotExist (Some (os.missing fs p))).
Qed.

(** C6 (amended).  [cache.Load] reads the cache file of the repository.
    When the file is read and parsed, its contents are the cache.  When the
    file exists but cannot be read or does not parse, [Load] tries to delete
    it: if the deletion succeeds the file is gone, every other path is
    untouched, and [Load] returns the empty cache and no error; if the
    deletion fails, [Load] returns that failure as its error and leaves the
    file system as it is.  The deletion succeeds when the entry may be
    unlinked and is not a directory that holds entries. *)
Theorem Load_existing_file (fs : os.FS) (repoName cacheDir : string)
    (node : os.Node) :
  let p := cache.cachePath repoName cacheDir in
  os.lookup fs p = Some node →
  (∀ data c, os.ReadFile fs p = Ok data → proto_Unmarshal data = Ok c →
     cache.Load fs repoName cacheDir = (fs, Ok c))
  ∧ ((∃ e, os.ReadFile fs p = Err e)
     ∨ (∃ data e, os.ReadFile fs p = Ok data ∧ proto_Unmarshal data = Err e) →
     if os.removable node && negb (os.is_dir node && os.occupied fs p)
     then ∃ fs1, cache.Load fs repoName cacheDir = (fs1, Ok ∅)
                 ∧ os.lookup fs1 p = None
                 ∧ ∀ q, q ≠ p → os.lookup fs1 q = os.lookup fs q
     else cache.Load fs repoName cacheDir
          = (fs, Err (Errorf ("error while trying to delete the " +:+ repoName
                              +:+ " repo cache file")
                             (if os.removable node then ENOTEMPTY else EACCES)))).
Proof.
  intros p Hnode.
  assert (os.IsNotExist (os.Stat fs p) = false) as Hstat.
  { unfold os.Stat. by rewrite Hnode. }
  assert (if os.removable node && negb (os.is_dir node && os.occupied fs p)
          then ∃ fs1, cache.removeCorrupted fs repoName p = (fs1, Ok ∅)
                      ∧ os.lookup fs1 p = None
                      ∧ ∀ q, q ≠ p → os.lookup fs1 q = os.lookup fs q
          else cache.removeCorrupted fs repoName p
               = (fs, Err (Errorf ("error while trying to delete the " +:+ repoName
                                   +:+ " repo cache file")
                                  (if os.removable node then ENOTEMPTY else EACCES))))
    as Hrm.
  { unfold cache.removeCorrupted.
    destruct (os.Remove fs p) as [fs1 [e|]] eqn:Hr.
    - unfold os.Remove in Hr. rewrite Hnode in Hr.
      destruct (os.removable node); simpl; [|by injection Hr as <- <-].
      destruct (os.is_dir node && os.occupied fs p); simpl; [|done].
      by injection Hr as <- <-.
    - destruct (Remove_ok fs fs1 p Hr) as (n & Hn & Hrem & Hocc & _).
      rewrite Hnode in Hn. injection Hn as <-. rewrite Hrem, Hocc. simpl.
      exists fs1. split; [done|]. split.
      + pose proof (Remove_gone fs fs1 p Hr) as Hs. unfold os.Stat in Hs.
        by destruct (os.lookup fs1 p).
      + intros q Hq. by apply (Remove_frame_lookup fs fs1 p q). }
  split.
  - intros data c Hread Hparse. unfold cache.Load. fold p.
    by rewrite Hstat, Hread, Hparse.
  - intros [[e Hread]|(data & e & Hread & Hparse)];
      unfold cache.Load; fold p; rewrite Hstat, Hread, ?Hparse; exact Hrm.
Qed.

(** C7 (amended).  [cache.Save] writes the cache file in place: it creates
    or truncates the file at the cache path and writes the marshalled cache
    into it.  When [Save] returns no error, the file at the cache path holds
    exactly the marshalled cache and no other path has changed. *)
Theorem Save_without_error (fs fs1 : os.FS) (repoName cacheDir : string)
    (c : Cache) :
  let p := cache.cachePath repoName cacheDir in
  cache.Save fs repoName cacheDir c = (fs1, None) →
  ∃ data node,
    proto_Marshal c = Ok data
    ∧ os.lookup fs1 p = Some node
    ∧ os.is_dir node = false
    ∧ os.data node = data
    ∧ ∀ q, q ≠ p → os.lookup fs1 q = os.lookup fs q.
Proof.
  intros p. unfold cache.Save. fold p.
  destruct (proto_Marshal c) as [data|e]; [|done].
  destruct (os.Create fs p) as [fsc [e|]] eqn:Hc; [done|].
  destruct (os.Write fsc p data) as [fsw [e|]] eqn:Hw; [done|].
  intros [= <-].
  destruct (Create_Write_ok fs fsc fsw p data Hc Hw) as (node & Hn & Hd & Hdata & Ho).
  by exists data, node.
Qed.

End CacheFile.

(** A first run: the cache directory has no file for the repository. *)
Lemma Load_without_file_witness :
  cache.Load (H := TextRuntime.runtime) Inputs.fsCacheDir "repo" "/var/cache"
  = (Inputs.fsCacheDir, Ok ∅).
Proof.
  destruct (Load_without_file (H := TextRuntime.runtime) Inputs.fsCacheDir
              "repo" "/var/cache") as (_ & _ & Hload).
  - vm_compute. reflexivity.
  - rewrite Hload. vm_compute. reflexivity.
Defined.

(** C10 as stated fails: on a first run no cache file exists, and
    [cache.Load] returns an error when the path given as the cache
    directory is a regular file, or a directory that the engine may not
    search. *)
Lemma Load_first_run_error :
  os.lookup Inputs.fsCacheIsFile "/var/cache/hashr-cache-repo" = None
  ∧ os.nodes Inputs.fsCacheIsFile !! "/var/cache/hashr-cache-repo" = None
  ∧ cache.Load (H := TextRuntime.runtime) Inputs.fsCacheIsFile "repo" "/var/cache"
    = (Inputs.fsCacheIsFile,
       Err (Errorf "error while trying to delete the repo repo cache file" ENOTDIR))
  ∧ os.nodes Inputs.fsCacheLocked !! "/var/cache/hashr-cache-repo" = None
  ∧ cache.Load (H := TextRuntime.runtime) Inputs.fsCacheLocked "repo" "/var/cache"
    = (Inputs.fsCacheLocked,
       Err (Errorf "error while trying to delete the repo repo cache file" EACCES)).
Proof. vm_compute. repeat split; reflexivity. Qed.

(** A cache file that does not parse and can be deleted. *)
Lemma Load_existing_file_witness :
  ∃ fs1, cache.Load (H := TextRuntime.runtime) Inputs.fsGarbage "repo" "/var/cache"
         = (fs1, Ok ∅)
         ∧ os.lookup fs1 "/var/cache/hashr-cache-repo" = None.
Proof.
  destruct (Load_existing_file (H := TextRuntime.runtime) Inputs.fsGarbage
              "repo" "/var/cache" (os.file "garbage")) as [_ Hbad].
  - vm_compute. reflexivity.
  - destruct Hbad as (fs1 & H1 & H2 & _).
    + right. exists "garbage", (ErrNew "cannot parse invalid wire-format data").
      split; vm_compute; reflexivity.
    + exists fs1. split; [exact H1 | exact H2].
Defined.

(** C6 as stated fails: a cache file that does not parse (or cannot be
    read) and cannot be deleted makes [cache.Load] return an error. *)
Lemma Load_corrupt_file_error :
  cache.Load (H := TextRuntime.runtime) Inputs.fsCorrupt "repo" "/var/cache"
  = (Inputs.fsCorrupt,
     Err (Errorf "error while trying to delete the repo repo cache file" EACCES))
  ∧ cache.Load (H := TextRuntime.runtime) Inputs.fsUnreadable "repo" "/var/cache"
    = (Inputs.fsUnreadable,
       Err (Errorf "error while trying to delete the repo repo cache file" EACCES)).
Proof. split; vm_compute; reflexivity. Qed.

(** Saving a cache with one digest on a device with room. *)
Lemma Save_without_error_witness :
  ∃ data node,
    proto_Marshal (Runtime := TextRuntime.runtime) Inputs.cacheB = Ok data
    ∧ os.lookup (cache.Save (H := TextRuntime.runtime) Inputs.fsCacheDir "repo"
                    "/var/cache" Inputs.cacheB).1
                "/var/cache/hashr-cache-repo" = Some node
    ∧ os.data node = data.
Proof.
  destruct (Save_without_error (H := TextRuntime.runtime) Inputs.fsCacheDir
              (cache.Save (H := TextRuntime.runtime) Inputs.fsCacheDir "repo"
                 "/var/cache" Inputs.cacheB).1
              "repo" "/var/cache" Inputs.cacheB)
    as (data & node & H1 & H2 & _ & H3 & _).
  - vm_compute. reflexivity.
  - exists data, node. split; [exact H1|]. split; [exact H2 | exact H3].
Defined.

(** C7 as stated fails: when the device fills up during the write, [Save]
    returns an error and the file at the cache path holds neither the
    previous cache nor the new one, but a prefix of the new bytes. *)
Lemma Save_not_atomic :
  let p := "/var/cache/hashr-cache-repo" in
  let r := cache.Save (H := TextRuntime.runtime) Inputs.fsFull "repo"
                      "/var/cache" Inputs.cacheA2 in
  os.ReadFile Inputs.fsFull p = Ok "A=s0,h0"
  ∧ proto_Marshal (Runtime := TextRuntime.runtime) Inputs.cacheA2
    = Ok "A=s0,h0|s1,h1"
  ∧ r.2 = Some (Errorf "error writing to repo repo cache file" ENOSPC)
  ∧ os.ReadFile r.1 p = Ok "A=s0,h0|s1".
Proof. vm_compute. repeat split; reflexivity. Qed.

(** ** Discovery: [newSources] *)
Section Discovery.

Lemma contains_spec (slice : list string) (s : string) :
  hashr.contains slice s = true
  ↔ ∃ element, element ∈ slice ∧ GoStrings.EqualFold s element = true.
Proof.
  induction slice as [|x slice IH]; simpl.
  - split; [done|]. intros (e & He & _). by apply elem_of_nil in He.
  - destruct (GoStrings.EqualFold s x) eqn:E.
    + split; [|done]. intros _. exists x. split; [apply list_elem_of_here | done].
    + rewrite IH. split.
      * intros (e & He & Hf). exists e. split; [by apply list_elem_of_further | done].
      * intros (e & He & Hf). apply elem_of_cons in He as [-> | He]; [congruence|].
        by exists e.
Qed.

Lemma isNew_test (h : hashr.HashR) (jobs : gmap string string) (q : string) :
  (let '(status, processed) :=
     match jobs !! q with
     | Some status => (status, true)
     | None => (EmptyString, false)
     end in
   negb processed || hashr.contains (hashr.SourcesForReprocessing h) q
   || GoStrings.EqualFold status hashr.reprocess)%bool = true
  ↔ isNew h jobs q.
Proof.
  unfold isNew. rewrite <- contains_spec.
  destruct (jobs !! q) as [status|] eqn:Hq; simpl.
  - rewrite orb_true_iff. split.
    + intros [Hc | Hs]; [by right; left | right; right; by exists status].
    + intros [? | [Hc | (st & [= <-] & Hs)]]; [done | by left | by right].
  - split; [by left | done].
Qed.

Lemma newSourcesLoop_spec (h : hashr.HashR) (jobs : gmap string string)
    (sources : list Source.t) : ∀ acc,
  ∃ kept,
    hashr.newSourcesLoop h jobs sources acc = acc ++ kept
    ∧ sublist kept sources
    ∧ ∀ s, s ∈ kept ↔
        s ∈ sources ∧ ∃ q, Source.QuickSHA256Hash s = Ok q ∧ isNew h jobs q.
Proof.
  induction sources as [|x sources IH]; intros acc; simpl.
  - exists []. rewrite app_nil_r. split; [done|]. split; [done|].
    intros s. split; [by intros ?%elem_of_nil | by intros [?%elem_of_nil _]].
  - destruct (Source.QuickSHA256Hash x) as [q|e] eqn:Hq.
    + pose proof (isNew_test h jobs q) as Htest.
      destruct (jobs !! q) as [status|] eqn:Hj; simpl in *.
      * destruct (hashr.contains (hashr.SourcesForReprocessing h) q
                  || GoStrings.EqualFold status hashr.reprocess)%bool eqn:Hb.
        -- destruct (IH (acc ++ [x])) as (kept & -> & Hsub & Hin).
           exists (x :: kept). rewrite <- app_assoc. split; [done|].
           split; [by constructor|]. intros s. rewrite !elem_of_cons, Hin.
           split.
           ++ intros [-> | [Hs Hn]]; [|by split; [right|]].
              split; [by left|]. exists q. split; [done|]. by apply Htest.
           ++ intros [[-> | Hs] Hn]; [by left | by right].
        -- destruct (IH acc) as (kept & -> & Hsub & Hin).
           exists kept. split; [done|]. split; [by constructor|].
           intros s. rewrite elem_of_cons, Hin. split.
           ++ intros [Hs Hn]. by split; [right|].
           ++ intros [[-> | Hs] (q' & Hq' & Hn)]; [|by split; [|exists q']].
              rewrite Hq in Hq'. injection Hq' as <-.
              apply Htest in Hn. congruence.
      * destruct (IH (acc ++ [x])) as (kept & -> & Hsub & Hin).
        exists (x :: kept). rewrite <- app_assoc. split; [done|].
        split; [by constructor|]. intros s. rewrite !elem_of_cons, Hin.
        split.
        -- intros [-> | [Hs Hn]]; [|by split; [right|]].
           split; [by left|]. exists q. split; [done|]. by apply Htest.
        -- intros [[-> | Hs] Hn]; [by left | by right].
    + destruct (IH acc) as (kept & -> & Hsub & Hin).
      exists kept. split; [done|]. split; [by constructor|].
      intros s. rewrite elem_of_cons, Hin. split.
      * intros [Hs Hn]. by split; [right|].
      * intros [[-> | Hs] (q' & Hq' & Hn)]; [congruence | by split; [|exists q']].
Qed.

(** C5 (amended).  When the repository is discovered and the job store is
    read, [newSources] dispatches a sub-sequence of the discovered sources:
    a source is dispatched if and only if it reports a quick hash and that
    quick hash is absent from the job store, or matches an entry of the
    reprocess list, or is stored with the state [reprocess], both matches
    ignoring letter case.  Every other source is skipped, so a source whose
    quick hash is present with a state other than [reprocess] is not handed
    to a worker unless its quick hash is on the reprocess list. *)
Theorem newSources_dispatch (h : hashr.HashR) (i : Importer.t)
    (sources : list Source.t) (jobs : gmap string string) :
  Importer.DiscoverRepo i = Ok sources →
  Storage.FetchJobs (hashr.Storage h) = Ok jobs →
  ∃ new,
    hashr.newSources h i = Ok new
    ∧ sublist new sources
    ∧ (∀ s, s ∈ new ↔
         s ∈ sources ∧ ∃ q, Source.QuickSHA256Hash s = Ok q ∧ isNew h jobs q)
    ∧ (∀ s q status,
         Source.QuickSHA256Hash s = Ok q →
         jobs !! q = Some status →
         GoStrings.EqualFold status hashr.reprocess = false →
         hashr.contains (hashr.SourcesForReprocessing h) q = false →
         s ∉ new).
Proof.
  intros Hd Hf. unfold hashr.newSources. rewrite Hd, Hf.
  destruct (newSourcesLoop_spec h jobs sources []) as (kept & -> & Hsub & Hin).
  exists kept. split; [done|]. split; [done|]. split; [done|].
  intros s q status Hq Hj Hst Hc Hs. apply Hin in Hs as [_ (q' & Hq' & Hn)].
  rewrite Hq in Hq'. injection Hq' as <-.
  destruct Hn as [Hn | [Hn | (st & Hn & Hfold)]].
  - congruence.
  - apply contains_spec in Hn. congruence.
  - rewrite Hj in Hn. injection Hn as <-. congruence.
Qed.

End Discovery.

(** Two discovered sources, one of them already exported. *)
Lemma newSources_dispatch_witness :
  ∃ new,
    hashr.newSources
      (Inputs.engine {[ "abc123" := "exported" ]} [] true)
      (Inputs.importer [Inputs.source "src1" "abc123" "/tmp/hashr-src1-1/img.tar";
                        Inputs.source "src2" "def456" "/tmp/hashr-src2-1/img.tar"])
    = Ok new
    ∧ sublist new [Inputs.source "src1" "abc123" "/tmp/hashr-src1-1/img.tar";
                   Inputs.source "src2" "def456" "/tmp/hashr-src2-1/img.tar"].
Proof.
  destruct (newSources_dispatch
              (Inputs.engine {[ "abc123" := "exported" ]} [] true)
              (Inputs.importer [Inputs.source "src1" "abc123" "/tmp/hashr-src1-1/img.tar";
                                Inputs.source "src2" "def456" "/tmp/hashr-src2-1/img.tar"])
              [Inputs.source "src1" "abc123" "/tmp/hashr-src1-1/img.tar";
               Inputs.source "src2" "def456" "/tmp/hashr-src2-1/img.tar"]
              {[ "abc123" := "exported" ]})
    as (new & H1 & H2 & _).
  - reflexivity.
  - reflexivity.
  - exists new. split; [exact H1 | exact H2].
Defined.

(** C5 as stated fails.  A source whose quick hash is stored with the
    terminal state [exported] is handed to a worker when the quick hash is
    on the reprocess list; and a stored state that differs from
    [reprocess] in letter case also dispatches the source. *)
Lemma newSources_reprocess_list :
  hashr.newSources
    (Inputs.engine {[ "abc123" := "exported" ]} ["abc123"] true)
    (Inputs.importer [Inputs.source "src1" "abc123" "/tmp/hashr-src1-1/img.tar"])
  = Ok [Inputs.source "src1" "abc123" "/tmp/hashr-src1-1/img.tar"]
  ∧ hashr.newSources
      (Inputs.engine {[ "abc123" := "Reprocess" ]} [] true)
      (Inputs.importer [Inputs.source "src1" "abc123" "/tmp/hashr-src1-1/img.tar"])
    = Ok [Inputs.source "src1" "abc123" "/tmp/hashr-src1-1/img.tar"].
Proof. split; vm_compute; reflexivity. Qed.

(** ** The worker: a program logic for [hashr.M] *)
Section Worker.
Context `{Runtime}.
Import common.

Lemma hoare_bind {A B} (P : hashr.State → Prop) (Q : A → hashr.State → Prop)
    (R : B → hashr.State → Prop) (m : hashr.M A) (k : A → hashr.M B) :
  hoare P m Q → (∀ a, hoare (Q a) (k a) R) → hoare P (m ≫= k) R.
Proof.
  intros Hm Hk st HP. specialize (Hm st HP).
  unfold mbind, hashr.M_bind, hashr.bind.
  destruct (m st) as [a st1]. by apply Hk.
Qed.

Lemma hoare_conseq {A} (P P' : hashr.State → Prop)
    (Q Q' : A → hashr.State → Prop) (m : hashr.M A) :
  hoare P' m Q' → (∀ st, P st → P' st) → (∀ a st, Q' a st → Q a st) →
  hoare P m Q.
Proof. intros Hm HP HQ st Hst. apply HQ, Hm, HP, Hst. Qed.

Lemma quiet_hoare {A} q (m : hashr.M A) s w c :
  quiet q m → hoare (observed q s w c) m (λ _, observed q s w c).
Proof.
  intros Hq st (H1 & H2 & H3). specialize (Hq st). unfold obs in Hq.
  injection Hq as E1 E2 E3. unfold observed. by rewrite E1, E2, E3.
Qed.

Lemma quiet_ret {A} q (a : A) : quiet q (mret a).
Proof. by intros st. Qed.

Lemma quiet_bind {A B} q (m : hashr.M A) (k : A → hashr.M B) :
  quiet q m → (∀ a, quiet q (k a)) → quiet q (m ≫= k).
Proof.
  intros Hm Hk st. unfold mbind, hashr.M_bind, hashr.bind.
  specialize (Hm st). destruct (m st) as [a st1]. simpl in Hm.
  by rewrite (Hk a st1).
Qed.

Lemma statusesOf_app q (t1 t2 : list hashr.Event) :
  statusesOf q (t1 ++ t2) = statusesOf q t1 ++ statusesOf q t2.
Proof.
  induction t1 as [|e t1 IH]; [done|].
  destruct e; simpl; try done. case_decide; simpl; by rewrite IH.
Qed.

Lemma execs_app (t1 t2 : list hashr.Event) :
  execs (t1 ++ t2) = execs t1 ++ execs t2.
Proof.
  induction t1 as [|e t1 IH]; [done|].
  destruct e; simpl; try done. by rewrite IH.
Qed.

(** *** The primitives *)

Lemma quiet_get q : quiet q hashr.get.
Proof. by intros st. Qed.
Lemma quiet_setFs q v : quiet q (hashr.setFs v).
Proof. by intros st. Qed.
Lemma quiet_setCache q v : quiet q (hashr.setCache v).
Proof. by intros st. Qed.
Lemma quiet_setCounter q v : quiet q (hashr.setCounter v).
Proof. by intros st. Qed.
Lemma quiet_setMu q v : quiet q (hashr.setMu v).
Proof. by intros st. Qed.
Lemma quiet_setTicks q v : quiet q (hashr.setTicks v).
Proof. by intros st. Qed.
Lemma quiet_timeNow q : quiet q hashr.timeNow.
Proof. by intros st. Qed.

Lemma quiet_timeSince q start : quiet q (hashr.timeSince start).
Proof.
  apply quiet_bind; [apply quiet_timeNow | intros; apply quiet_ret].
Qed.

Lemma quiet_emit q e : silentEvent e → quiet q (hashr.emit e).
Proof.
  intros He st. unfold obs. simpl. rewrite statusesOf_app, execs_app.
  destruct e; simpl in *; try done; by rewrite !app_nil_r.
Qed.

Lemma quiet_updateSource q q' f :
  (∀ p, ProcessingSource.Status (f p) = ProcessingSource.Status p) →
  quiet q (hashr.updateSource q' f).
Proof.
  intros Hf st. unfold obs. simpl. f_equal. f_equal.
  destruct (decide (q' = q)) as [->|Hne].
  - rewrite lookup_alter_eq. destruct (hashr.processingSources st !! q); simpl; [|done].
    by rewrite Hf.
  - by rewrite lookup_alter_ne.
Qed.

Ltac quiet_tac :=
  repeat first
    [ apply quiet_ret | apply quiet_get | apply quiet_setFs
    | apply quiet_setCache | apply quiet_setCounter | apply quiet_setMu
    | apply quiet_setTicks | apply quiet_timeNow | apply quiet_timeSince
    | apply quiet_emit; exact I
    | apply quiet_updateSource; intros []; reflexivity
    | apply quiet_bind; [|intros ?]
    | match goal with
      | |- quiet _ (match ?x with _ => _ end) => destruct x
      | |- quiet _ (let '(_, _) := ?x in _) => destruct x
      | |- quiet _ (if ?x then _ else _) => destruct x
      end ].

Lemma quiet_process q h source processor :
  quiet q (hashr.process h source processor).
Proof. unfold hashr.process. quiet_tac. Qed.

Lemma quiet_cacheCheck q extraction : quiet q (hashr.cacheCheck extraction).
Proof. unfold hashr.cacheCheck. quiet_tac. Qed.

Lemma quiet_cacheSave q h repoName : quiet q (hashr.cacheSave h repoName).
Proof. unfold hashr.cacheSave. quiet_tac. Qed.

Lemma quiet_lock q : quiet q hashr.lock.
Proof. unfold hashr.lock. quiet_tac. Qed.

Lemma quiet_unlock q : quiet q hashr.unlock.
Proof. unfold hashr.unlock. quiet_tac. Qed.

Lemma quiet_countExports q q' samples : quiet q (hashr.countExports q' samples).
Proof. induction samples as [|s l IH]; simpl; quiet_tac; exact IH. Qed.

(** The base directory of the extraction returned by [process]. *)
Lemma process_baseDir h source processor st :
  BaseDir (hashr.process h source processor st).1.1
  = baseDirOf source (hashr.fs st).
Proof.
  unfold hashr.process, baseDirOf, mbind, hashr.M_bind, hashr.bind. simpl.
  destruct (Source.Preprocess source (hashr.fs st)) as [fs1 [input|e]]; simpl;
    [|done].
  destruct (hashr.sha256sum fs1 (Source.LocalPath source)) as [sum|e]; simpl;
    [|done].
  destruct (Processor.ImageExport processor input fs1) as [fs2 [path|e]]; done.
Qed.

Lemma setStatus_spec q s0 s w c :
  hoare (observed q s0 w c)
        (hashr.updateSource q (ProcessingSource.setStatus s))
        (λ _, observed q s w c).
Proof.
  intros st (H1 & H2 & H3). unfold observed. simpl.
  split; [|done]. rewrite lookup_alter_eq.
  destruct (hashr.processingSources st !! q); by simplify_eq/=.
Qed.

Lemma updateJobs_spec h q s w c :
  hoare (observed q s w c) (hashr.updateJobs h q)
        (λ _, observed q s (w ++ [s]) c).
Proof.
  intros st (H1 & H2 & H3).
  unfold hashr.updateJobs, mbind, hashr.M_bind, hashr.bind. simpl.
  destruct (hashr.processingSources st !! q) as [p|] eqn:Hp; [|done].
  injection H1 as H1. unfold observed. simpl. rewrite Hp. simpl.
  rewrite statusesOf_app, execs_app. simpl.
  case_decide; [|done]. by rewrite H1, H2, H3, app_nil_r.
Qed.

Lemma cleanupLocalStorage_spec q path s w c :
  hoare (observed q s w c) (hashr.cleanupLocalStorage path)
        (λ _, observed q s w (c ++ purge path)).
Proof.
  intros st (H1 & H2 & H3). unfold hashr.cleanupLocalStorage, purge.
  destruct (GoStrings.HasPrefix path hashr.tempRoot).
  - unfold mbind, hashr.M_bind, hashr.bind. simpl.
    destruct (exec_Run ["sudo"; "rm"; "-rf"; path] (hashr.fs st)) as [fs1 [e|]];
      unfold observed; simpl; rewrite statusesOf_app, execs_app; simpl;
      by rewrite H2, H3, app_nil_r.
  - unfold observed. simpl. by rewrite app_nil_r.
Qed.

(** A path outside the temp root is left alone: no command is run, and the
    state does not change at all. *)
Lemma cleanupLocalStorage_outside path st :
  GoStrings.HasPrefix path hashr.tempRoot = false →
  hashr.cleanupLocalStorage path st = (None, st).
Proof. intros Hp. unfold hashr.cleanupLocalStorage. by rewrite Hp. Qed.

Ltac hquiet :=
  eapply hoare_bind; [apply quiet_hoare; quiet_tac | intros ?; simpl].

Lemma handleError_spec h q base err s w c :
  hoare (observed q s w c) (hashr.handleError h q base err)
        (λ _, observed q hashr.failed (w ++ [hashr.failed]) (c ++ purge base)).
Proof.
  unfold hashr.handleError.
  eapply hoare_bind; [apply setStatus_spec | intros ?; cbv beta].
  hquiet.
  eapply hoare_bind; [apply updateJobs_spec | intros ?; cbv beta].
  eapply hoare_bind; [apply cleanupLocalStorage_spec | intros ?; cbv beta].
  by intros st Hst.
Qed.

Lemma finishSource_spec h q extraction s w c :
  hoare (observed q s w c) (hashr.finishSource h q extraction)
        (λ _, observed q hashr.exported (w ++ [hashr.exported])
                (c ++ purge (BaseDir extraction))).
Proof.
  unfold hashr.finishSource.
  eapply hoare_bind; [apply setStatus_spec | intros ?; cbv beta].
  eapply hoare_bind; [apply updateJobs_spec | intros ?; cbv beta].
  eapply hoare_bind; [apply cleanupLocalStorage_spec | intros ?; cbv beta].
  apply quiet_hoare. unfold hashr.unlock. quiet_tac.
Qed.

Lemma exportSource_spec h source q extraction samples s w c :
  hoare (observed q s w c) (hashr.exportSource h source q extraction samples)
        (λ _ st,
           observed q hashr.failed (w ++ [hashr.failed])
                    (c ++ purge (BaseDir extraction)) st
           ∨ observed q hashr.exported (w ++ [hashr.exported])
                      (c ++ purge (BaseDir extraction)) st).
Proof.
  unfold hashr.exportSource.
  eapply hoare_bind; [apply quiet_hoare, quiet_lock | intros ?; cbv beta].
  hquiet.
  eapply hoare_bind.
  { apply quiet_hoare. unfold hashr.cacheSave. quiet_tac. }
  intros ?. simpl.
  destruct (hashr.Export h).
  - hquiet. hquiet.
    destruct (Exporter.Export (hashr.Exporter h) _) as [e|].
    + eapply hoare_bind; [apply handleError_spec | intros ?; cbv beta].
      eapply hoare_conseq; [apply quiet_hoare, quiet_unlock | done |].
      intros ? st Hst. by left.
    + hquiet. hquiet. hquiet.
      eapply hoare_bind; [apply quiet_hoare, quiet_countExports | intros ?; cbv beta].
      eapply hoare_conseq; [apply finishSource_spec | done |].
      intros ? st Hst. by right.
  - hquiet.
    destruct (hashr.saveSamples _ _ _ _ _ _) as [fs1 [e|]].
    + hquiet.
      eapply hoare_bind; [apply handleError_spec | intros ?; cbv beta].
      eapply hoare_conseq; [apply quiet_hoare, quiet_unlock | done |].
      intros ? st Hst. by left.
    + hquiet.
      eapply hoare_conseq; [apply finishSource_spec | done |].
      intros ? st Hst. by right.
Qed.

Lemma hoare_pure {A} (φ : Prop) (P : hashr.State → Prop)
    (Q : A → hashr.State → Prop) (m : hashr.M A) :
  (φ → hoare P m Q) → hoare (λ st, P st ∧ φ) m Q.
Proof. intros Hm st [HP Hφ]. by apply Hm. Qed.

(** One iteration of the worker, for a source that reports the quick hash
    [q]: the job goes through one of the four life cycles, every state is
    written to the job store when it is entered, and at the end the base
    directory of the extraction is purged if it is under the temp root. *)
Lemma processSource_spec h source q st :
  Source.QuickSHA256Hash source = Ok q →
  ∃ seq final,
    seq ∈ lifecycles ∧ last seq = Some final
    ∧ observed q final (statusesOf q (hashr.trace st) ++ seq)
        (execs (hashr.trace st) ++ purge (baseDirOf source (hashr.fs st)))
        (hashr.processSource h source st).2.
Proof.
  intros Hq.
  set (w := statusesOf q (hashr.trace st)). set (c := execs (hashr.trace st)).
  set (base := baseDirOf source (hashr.fs st)).
  enough (hoare (λ s, s = st) (hashr.processSource h source)
            (λ _ s, ∃ seq final, seq ∈ lifecycles ∧ last seq = Some final
                     ∧ observed q final (w ++ seq) (c ++ purge base) s))
    as Hh by (by apply Hh).
  unfold hashr.processSource. rewrite Hq.
  eapply hoare_bind with
    (Q := λ _ s, statusesOf q (hashr.trace s) = w ∧ execs (hashr.trace s) = c
                 ∧ hashr.fs s = hashr.fs st).
  { by intros s ->. }
  intros now. eapply hoare_bind with
    (Q := λ _ s, statusesOf q (hashr.trace s) = w ∧ execs (hashr.trace s) = c
                 ∧ hashr.fs s = hashr.fs st).
  { by intros s Hs. }
  intros st1. eapply hoare_bind with
    (Q := λ _ s, observed q hashr.discovered w c s ∧ hashr.fs s = hashr.fs st).
  { intros s (H1 & H2 & H3). unfold observed. simpl.
    by rewrite lookup_insert_eq. }
  intros ?. eapply hoare_bind with
    (Q := λ _ s, observed q hashr.discovered (w ++ [hashr.discovered]) c s
                 ∧ hashr.fs s = hashr.fs st).
  { intros s [Hobs Hfs]. split; [by apply updateJobs_spec|].
    rewrite <- Hfs. unfold hashr.updateJobs, mbind, hashr.M_bind, hashr.bind.
    simpl. by destruct (hashr.processingSources s !! q). }
  intros ?. eapply hoare_bind with
    (Q := λ r s, observed q hashr.discovered (w ++ [hashr.discovered]) c s
                 ∧ BaseDir r.1 = base).
  { intros s [Hobs Hfs].
    split; [exact (quiet_hoare q _ _ _ _ (quiet_process q h source _) s Hobs)|].
    rewrite process_baseDir. unfold base. by rewrite Hfs. }
  intros [extraction err]. apply hoare_pure. simpl. intros <-.
  destruct err as [err|].
  { eapply hoare_conseq; [apply handleError_spec | done |].
    intros ? s Hs. exists [hashr.discovered; hashr.failed], hashr.failed.
    split; [unfold lifecycles; rewrite list_elem_of_In; simpl; tauto|]. split; [done|].
    by rewrite <- app_assoc in Hs. }
  hquiet.
  eapply hoare_bind; [apply setStatus_spec | intros ?; cbv beta].
  eapply hoare_bind; [apply updateJobs_spec | intros ?; cbv beta].
  eapply hoare_bind; [apply quiet_hoare, quiet_cacheCheck | intros r; cbv beta].
  destruct r as [samples|err].
  2:{ eapply hoare_conseq; [apply handleError_spec | done |].
      intros ? s Hs.
      exists [hashr.discovered; hashr.processed; hashr.failed], hashr.failed.
      split; [unfold lifecycles; rewrite list_elem_of_In; simpl; tauto|]. split; [done|].
      by rewrite <- !app_assoc in Hs. }
  eapply hoare_bind; [apply setStatus_spec | intros ?; cbv beta].
  eapply hoare_bind; [apply updateJobs_spec | intros ?; cbv beta].
  eapply hoare_conseq; [apply exportSource_spec | done |].
  intros ? s [Hs|Hs]; rewrite <- !app_assoc in Hs.
  - exists [hashr.discovered; hashr.processed; hashr.cached; hashr.failed],
           hashr.failed.
    split; [unfold lifecycles; rewrite list_elem_of_In; simpl; tauto|]. by split.
  - exists [hashr.discovered; hashr.processed; hashr.cached; hashr.exported],
           hashr.exported.
    split; [unfold lifecycles; rewrite list_elem_of_In; simpl; tauto|]. by split.
Qed.

(** C4 (amended).  For every source handled by a worker, the states written
    to the job store for its quick hash during the iteration are, in order,
    [discovered], then [processed], [cached] and [exported] as far as the
    stages succeed, with [failed] written in place of the next state when a
    stage fails.  The state [preprocessed] is never entered.  The state of
    the job in memory at the end is the last state written. *)
Theorem job_status_sequence (h : hashr.HashR) (source : Source.t) (q : string)
    (st : hashr.State) :
  Source.QuickSHA256Hash source = Ok q →
  let st1 := (hashr.processSource h source st).2 in
  ∃ seq,
    seq ∈ [ ["discovered"; "failed"];
            ["discovered"; "processed"; "failed"];
            ["discovered"; "processed"; "cached"; "failed"];
            ["discovered"; "processed"; "cached"; "exported"] ]
    ∧ statusesOf q (hashr.trace st1) = statusesOf q (hashr.trace st) ++ seq
    ∧ (ProcessingSource.Status <$> hashr.processingSources st1 !! q) = last seq
    ∧ hashr.preprocessed ∉ seq.
Proof.
  intros Hq st1.
  destruct (processSource_spec h source q st Hq)
    as (seq & final & Hseq & Hlast & Hmem & Hw & _).
  exists seq. split; [exact Hseq|]. split; [exact Hw|].
  split; [by rewrite Hlast|].
  unfold lifecycles in Hseq.
  repeat (apply elem_of_cons in Hseq as [-> | Hseq];
          [rewrite list_elem_of_In; simpl; intuition discriminate|]).
  by apply elem_of_nil in Hseq.
Qed.

(** *** The purge of the base directory *)










End Worker.

(** The source [src1] taken through all the stages. *)
Lemma job_status_sequence_witness :
  ∃ seq,
    statusesOf "abc123"
      (hashr.trace (hashr.processSource (H := TextRuntime.runtime)
                      (Inputs.engine ∅ [] true) Inputs.source1
                      (Inputs.start Inputs.fsRun Inputs.cacheB)).2)
    = [] ++ seq
    ∧ hashr.preprocessed ∉ seq.
Proof.
  destruct (job_status_sequence (H := TextRuntime.runtime)
              (Inputs.engine ∅ [] true) Inputs.source1 "abc123"
              (Inputs.start Inputs.fsRun Inputs.cacheB))
    as (seq & _ & H1 & _ & H2).
  - reflexivity.
  - exists seq. split; [exact H1 | exact H2].
Defined.

(** C4 as stated fails: when every stage succeeds, the states written for
    the job are [discovered], [processed], [cached], [exported]; the job is
    never in the state [preprocessed]. *)
Lemma job_skips_preprocessed :
  statusesOf "abc123"
    (hashr.trace (hashr.processSource (H := TextRuntime.runtime)
                    (Inputs.engine ∅ [] true) Inputs.source1
                    (Inputs.start Inputs.fsRun Inputs.cacheB)).2)
  = ["discovered"; "processed"; "cached"; "exported"].
Proof. vm_compute. reflexivity. Qed.



(** A run that ends in [exported] purges the base directory under the temp
    root, and a run on a local copy outside the temp root, which fails at
    the hashing stage, runs no command. *)
Example cleanup_examples :
  execs (hashr.trace (hashr.processSource (H := TextRuntime.runtime)
                        (Inputs.engine ∅ [] true) Inputs.source1
                        (Inputs.start Inputs.fsRun Inputs.cacheB)).2)
  = [["sudo"; "rm"; "-rf"; "/tmp/hashr-src1-1/"]]
  ∧ statusesOf "fed987"
      (hashr.trace (hashr.processSource (H := TextRuntime.runtime)
                      (Inputs.engine ∅ [] true) Inputs.sourceHome
                      (Inputs.start Inputs.fsRun Inputs.cacheB)).2)
    = ["discovered"; "failed"].
Proof. vm_compute. split; reflexivity. Qed.

(** ** Saving the samples to disk: [saveSamples] *)
Section SaveSamples.
Context `{Runtime}.
Import common.

Lemma firstValid_spec (fs : os.FS) (paths : list string) (input : string) :
  os.ReadFile fs (hashr.firstValid fs paths) = Ok input →
  ∃ before src after,
    paths = before ++ src :: after
    ∧ Forall (λ p, os.Stat fs p ≠ None) before
    ∧ os.Stat fs src = None
    ∧ hashr.firstValid fs paths = src.
Proof.
  induction paths as [|p paths IH]; simpl.
  - unfold os.ReadFile, os.lookup, os.walk. by case_decide.
  - destruct (os.Stat fs p) as [e|] eqn:Hp.
    + intros Hr. destruct (IH Hr) as (before & src & after & -> & Hb & Hs & Hf).
      exists (p :: before), src, after. split; [done|].
      split; [|done]. constructor; [by rewrite Hp | done].
    + intros _. by exists [], p, paths.
Qed.

Lemma saveSample_spec (destDir : string) (fs fs2 : os.FS) (sample out : Sample) :
  hashr.saveSample destDir fs sample = (fs2, Ok out) →
  copiedTo destDir fs fs2 sample out.
Proof.
  unfold hashr.saveSample, copiedTo. destruct (Upload sample); simpl.
  - destruct (os.Mkdir fs (filepath_Join [destDir; Sha256 sample]))
      as [fsd [e|]] eqn:Hmk; [done|].
    destruct (os.ReadFile fsd (hashr.firstValid fsd (Paths sample)))
      as [input|e] eqn:Hrd; [|done].
    destruct (firstValid_spec fsd (Paths sample) input Hrd)
      as (before & src & after & Hpaths & Hb & Hs & Hfv).
    rewrite Hfv in *.
    destruct (os.WriteFile fsd _ input) as [fsw [e|]] eqn:Hw; [done|].
    intros [= <- <-].
    exists fsd, before, src, after, input.
    by destruct (WriteFile_ok _ _ _ _ Hw) as [Hdata _].
  - by intros [= <- <-].
Qed.

Lemma saveLoop_spec (destDir : string) (samples : list Sample) :
  ∀ (fs fs1 : os.FS) (acc manifest : list Sample),
    hashr.saveLoop destDir fs samples acc = (fs1, Ok manifest) →
    ∃ outs, manifest = acc ++ outs ∧ copiedAll destDir fs samples fs1 outs.
Proof.
  induction samples as [|s samples IH]; intros fs fs1 acc manifest; simpl.
  - intros [= <- <-]. exists []. by rewrite app_nil_r.
  - destruct (hashr.saveSample destDir fs s) as [fs2 [out|e]] eqn:Hs; [|done].
    intros Hl. destruct (IH _ _ _ _ Hl) as (outs & -> & Hall).
    exists (out :: outs). rewrite <- app_assoc. split; [done|].
    exists fs2. split; [by apply saveSample_spec | done].
Qed.

Lemma copiedAll_manifest (destDir : string) (samples : list Sample) :
  ∀ (fs fs1 : os.FS) (manifest : list Sample),
    copiedAll destDir fs samples fs1 manifest →
    Forall2 (λ sample out,
               Sha256 out = Sha256 sample ∧ Upload out = Upload sample
               ∧ (Upload sample = false → Paths out = [])
               ∧ (Upload sample = true →
                  ∃ src, src ∈ Paths sample
                         ∧ Paths out = [filepath_Join [destDir; Sha256 sample;
                                                       filepath_Base src]]))
            samples manifest.
Proof.
  induction samples as [|s samples IH]; intros fs fs1 [|out manifest]; simpl;
    try done.
  intros (fs2 & Hone & Hall). constructor; [|by eapply IH].
  unfold copiedTo in Hone. destruct (Upload s) eqn:Hu.
  - destruct Hone as (fsd & before & src & after & input & _ & Hp & _ & _ & _ & -> & _).
    simpl. split; [done|]. split; [done|]. split; [done|].
    intros _. exists src. split; [|done]. rewrite Hp, elem_of_app, elem_of_cons. auto.
  - destruct Hone as [_ ->]. simpl. split; [done|]. split; [done|].
    split; [done|]. done.
Qed.

(** C9 (amended).  When export is disabled and [saveSamples] returns no
    error: the directory [<export path>/<repo>___<source id>___<source
    sha256>] exists; the samples are handled in order, and for each sample
    to be uploaded the first of its paths that exists is copied to
    [<that directory>/<sample sha256>/<base name>]; the file
    [samples.json] of that directory holds the marshalled manifest, which
    lists every sample, in order, with its digest and its upload flag.  The
    paths of a listed sample are not those of the sample: a sample that was
    copied is listed with the destination of the copy as its only path,
    and a sample that is not uploaded is listed without paths. *)
Theorem saveSamples_layout (h : hashr.HashR) (fs fs1 : os.FS)
    (repo sourceID sourceHash : string) (samples : list Sample) :
  let destDir :=
    filepath_Join [hashr.ExportPath h;
                   repo +:+ "___" +:+ sourceID +:+ "___" +:+ sourceHash] in
  hashr.saveSamples h fs repo sourceID sourceHash samples = (fs1, None) →
  ∃ fs0 fsn manifest jsonBytes,
    os.MkdirAll fs destDir = (fs0, None)
    ∧ copiedAll destDir fs0 samples fsn manifest
    ∧ Forall2 (λ sample out,
                 Sha256 out = Sha256 sample ∧ Upload out = Upload sample
                 ∧ (Upload sample = false → Paths out = [])
                 ∧ (Upload sample = true →
                    ∃ src, src ∈ Paths sample
                           ∧ Paths out = [filepath_Join [destDir; Sha256 sample;
                                                         filepath_Base src]]))
              samples manifest
    ∧ json_Marshal manifest = Ok jsonBytes
    ∧ (os.data <$> os.lookup fs1 (filepath_Join [destDir; "samples.json"]))
      = Some jsonBytes
    ∧ ∀ q, q ≠ filepath_Join [destDir; "samples.json"] →
           os.lookup fs1 q = os.lookup fsn q.
Proof.
  intros destDir. unfold hashr.saveSamples, hashr.destDirOf. fold destDir.
  destruct (os.MkdirAll fs destDir) as [fs0 [e|]] eqn:Hmk; [done|].
  destruct (hashr.saveLoop destDir fs0 samples []) as [fsn [manifest|e]] eqn:Hl;
    [|done].
  destruct (json_Marshal manifest) as [jsonBytes|e] eqn:Hj; [|done].
  intros Hw. destruct (WriteFile_ok _ _ _ _ Hw) as [Hdata Hother].
  destruct (saveLoop_spec _ _ _ _ _ _ Hl) as (outs & -> & Hall). simpl in *.
  exists fs0, fsn, outs, jsonBytes. split; [done|]. split; [done|].
  split; [by eapply copiedAll_manifest|]. done.
Qed.

End SaveSamples.

(** The two samples of [src1] saved to disk. *)
Lemma saveSamples_layout_witness :
  ∃ manifest jsonBytes,
    json_Marshal (Runtime := TextRuntime.runtime) manifest = Ok jsonBytes
    ∧ (os.data <$> os.lookup
         (hashr.saveSamples (H := TextRuntime.runtime) (Inputs.engine ∅ [] false)
            Inputs.fsRun "repo" "src1" "5a3b7f" Inputs.samples1).1
         "/tmp/hashr-uploads/repo___src1___5a3b7f/samples.json")
      = Some jsonBytes.
Proof.
  destruct (saveSamples_layout (H := TextRuntime.runtime) (Inputs.engine ∅ [] false)
              Inputs.fsRun
              (hashr.saveSamples (H := TextRuntime.runtime) (Inputs.engine ∅ [] false)
                 Inputs.fsRun "repo" "src1" "5a3b7f" Inputs.samples1).1
              "repo" "src1" "5a3b7f" Inputs.samples1)
    as (fs0 & fsn & manifest & jsonBytes & _ & _ & _ & H1 & H2 & _).
  - vm_compute. reflexivity.
  - exists manifest, jsonBytes. split; [exact H1 | exact H2].
Defined.

(** C9 as stated fails.  The manifest written for the two samples of
    [src1] lists [A], which was copied from its second path (the first one
    does not exist), with the destination of the copy as its path, and
    lists [B], which is not uploaded, without any of its two paths. *)
Lemma saveSamples_manifest_paths :
  let r := hashr.saveSamples (H := TextRuntime.runtime) (Inputs.engine ∅ [] false)
             Inputs.fsRun "repo" "src1" "5a3b7f" Inputs.samples1 in
  r.2 = None
  ∧ (hashr.saveLoop (H := TextRuntime.runtime)
       "/tmp/hashr-uploads/repo___src1___5a3b7f"
       (os.MkdirAll Inputs.fsRun "/tmp/hashr-uploads/repo___src1___5a3b7f").1
       Inputs.samples1 []).2
    = Ok [common.mkSample "A"
            ["/tmp/hashr-uploads/repo___src1___5a3b7f/A/a.txt"] true;
          common.mkSample "B" [] false]
  ∧ os.ReadFile r.1 "/tmp/hashr-uploads/repo___src1___5a3b7f/A/a.txt" = Ok "aaa"
  ∧ os.ReadFile r.1 "/tmp/hashr-uploads/repo___src1___5a3b7f/samples.json"
    = Ok "A=/tmp/hashr-uploads/repo___src1___5a3b7f/A/a.txt=true;B==false".
Proof. vm_compute. repeat split; reflexivity. Qed.

(** ** Workers in parallel *)
Section Workers.
Import common workers.

Lemma contents_lookup (s : Shared) (k : string) :
  contents s !! k = cmap s !! k ≫= λ ptr, heap s !! ptr.
Proof. unfold contents. by rewrite lookup_omap. Qed.

(** The two steps of one iteration of the loop of [Check], taken without
    another worker in between, are the iteration [cache.checkSample]. *)
Lemma iteration_refines (t : nat) (w : Worker) (s : Shared) (i : nat)
    (sample : Sample) (rest exports : list Sample) :
  wellFormed s →
  pc w = InCheck i (sample :: rest) exports →
  ∃ w1 s1 w2 s2,
    stepWorker t w s = Some (w1, s1)
    ∧ stepWorker t w1 s1 = Some (w2, s2)
    ∧ w2 = mkWorker (extraction w) (clock w)
             (InCheck (S i) rest
                (exports ++ [(cache.checkSample (extraction w) (clock w i)
                                (contents s) sample).2]))
    ∧ contents s2
      = (cache.checkSample (extraction w) (clock w i) (contents s) sample).1
    ∧ wellFormed s2 ∧ mu s2 = mu s.
Proof.
  intros [Hinj Halloc] Hpc.
  exists (mkWorker (extraction w) (clock w)
            (Loaded i sample (cmap s !! Sha256 sample) rest exports)), s.
  assert (stepWorker t w s
          = Some (mkWorker (extraction w) (clock w)
                    (Loaded i sample (cmap s !! Sha256 sample) rest exports), s))
    as H1 by (unfold stepWorker; by rewrite Hpc).
  unfold stepWorker at 2. simpl.
  destruct (cmap s !! Sha256 sample) as [ptr|] eqn:Hk.
  - destruct (Halloc _ _ Hk) as [Hlt [e He]].
    do 2 eexists. split; [exact H1|]. split; [done|].
    unfold cache.checkSample. rewrite contents_lookup, Hk. simpl. rewrite He.
    simpl. split; [done|]. split; [|split; [|done]].
    + apply map_eq. intros k. rewrite contents_lookup. simpl.
      destruct (decide (k = Sha256 sample)) as [->|Hne].
      * rewrite Hk, lookup_insert_eq. simpl. by rewrite lookup_alter_eq, He.
      * rewrite lookup_insert_ne by done. rewrite contents_lookup.
        destruct (cmap s !! k) as [p|] eqn:Hp; [simpl|done].
        rewrite lookup_alter_ne; [done|]. intros <-. by apply Hne, (Hinj _ _ ptr).
    + split; simpl; [done|]. intros k p Hp. destruct (Halloc _ _ Hp) as [? [e' He']].
      split; [done|]. destruct (decide (ptr = p)) as [<-|Hne].
      * rewrite lookup_alter_eq, He. by eexists.
      * rewrite lookup_alter_ne by done. by eexists.
  - do 2 eexists. split; [exact H1|]. split; [done|].
    unfold cache.checkSample. rewrite contents_lookup, Hk. simpl.
    split; [done|]. split; [|split; [|done]].
    + apply map_eq. intros k. rewrite contents_lookup. simpl.
      destruct (decide (k = Sha256 sample)) as [->|Hne].
      * rewrite !lookup_insert_eq. simpl. by rewrite lookup_insert_eq.
      * rewrite !lookup_insert_ne by done. rewrite contents_lookup.
        destruct (cmap s !! k) as [p|] eqn:Hp; [simpl|done].
        destruct (Halloc _ _ Hp) as [Hlt _]. rewrite lookup_insert_ne; [done|lia].
    + split; simpl.
      * intros k1 k2 p. rewrite !lookup_insert. repeat case_decide; subst; try done.
        -- intros [= <-] Hp. destruct (Halloc _ _ Hp). lia.
        -- intros Hp [= <-]. destruct (Halloc _ _ Hp). lia.
        -- apply Hinj.
      * intros k p. rewrite lookup_insert. case_decide; subst.
        -- intros [= <-]. split; [lia|]. rewrite lookup_insert_eq. by eexists.
        -- intros Hp. destruct (Halloc _ _ Hp) as [Hlt Hs]. split; [lia|].
           rewrite lookup_insert_ne; [done|lia].
Qed.

Lemma run_app (l1 l2 : list nat) (g : Global) :
  run (l1 ++ l2) g = run l1 g ≫= run l2.
Proof.
  revert g. induction l1 as [|t l1 IH]; intros g; simpl; [done|].
  destruct (step t g) as [g1|]; simpl; [apply IH | done].
Qed.

(** A worker that goes through the loop of [Check] without another worker
    in between gets back the samples of [cache.Check], and leaves the
    contents of the cache as [cache.Check] does. *)
Lemma solo_check_refines (t : nat) (rest : list Sample) :
  ∀ (g : Global) (w : Worker) (i : nat) (exports : list Sample),
    wellFormed (shared g) →
    pool g !! t = Some w →
    pc w = InCheck i rest exports →
    ∃ g1,
      run (replicate (2 * length rest + 1) t) g = Some g1
      ∧ pool g1
        = <[t := mkWorker (extraction w) (clock w)
                   (BeforeLock
                      (cache.checkLoop (extraction w) (clock w) i rest
                         (contents (shared g)) exports).2)]> (pool g)
      ∧ contents (shared g1)
        = (cache.checkLoop (extraction w) (clock w) i rest
             (contents (shared g)) exports).1
      ∧ wellFormed (shared g1) ∧ mu (shared g1) = mu (shared g).
Proof.
  induction rest as [|sample rest IH]; intros g w i exports Hwf Ht Hpc.
  - simpl. unfold step. rewrite Ht. simpl. unfold stepWorker. rewrite Hpc. simpl.
    eexists. split; [done|]. by destruct g.
  - destruct (iteration_refines t w (shared g) i sample rest exports Hwf Hpc)
      as (w1 & s1 & w2 & s2 & H1 & H2 & -> & Hc & Hwf2 & Hmu).
    replace (2 * length (sample :: rest) + 1)%nat
      with (2 + (2 * length rest + 1))%nat by (simpl; lia).
    rewrite replicate_add, run_app. simpl.
    unfold step at 2. rewrite Ht. simpl. rewrite H1. simpl.
    unfold step at 1. simpl.
    rewrite list_lookup_insert_eq by (by eapply lookup_lt_Some).
    simpl. rewrite H2. simpl. rewrite list_insert_insert_eq.
    set (w2 := mkWorker _ _ _).
    edestruct (IH (mkGlobal s2 (<[t := w2]> (pool g))) w2 (S i)) as (g1 & Hr & Hp & Hc1 & Hwf1 & Hmu1);
      [done | by apply list_lookup_insert_eq, (lookup_lt_Some _ _ _ Ht) | done |].
    exists g1. split; [exact Hr|]. simpl in *.
    rewrite Hc in Hp, Hc1. rewrite list_insert_insert_eq in Hp.
    destruct (cache.checkSample (extraction w) (clock w i) (contents (shared g)) sample)
      as [c1 e] eqn:He.
    simpl in *. split; [exact Hp|]. split; [exact Hc1|]. split; [done|]. congruence.
Qed.

(** C1.  The mutex [h.mu] is not held during [cache.Check].  With two
    workers on an empty cache and two sources whose manifests list the
    digest [A]: after one step of each worker, both are inside the loop of
    [Check], both have found [A] absent, and nobody holds the mutex; when
    they go on in turn, each of them stores an entry for [A] and gets its
    sample back with the upload flag set, so the digest is uploaded twice.
    When the first worker finishes its check before the second starts,
    the digest is uploaded once. *)
Theorem check_race_two_uploads :
  (∃ g, run [0; 1]%nat Inputs.twoWorkers = Some g
        ∧ map checking (pool g) = [true; true]
        ∧ mu (shared g) = None)
  ∧ (∃ g, run [0; 1; 0; 1; 0; 1; 0; 0; 0; 1; 1; 1]%nat Inputs.twoWorkers = Some g
          ∧ map returned (pool g)
            = [[mkSample "A" ["/tmp/hashr-src1-1/export/a.txt"] true];
               [mkSample "A" ["/tmp/hashr-src2-1/export/a.txt"] true]]
          ∧ contents (shared Inputs.twoWorkers) !! "A" = None
          ∧ uploads g "A" = 2%nat)
  ∧ (∃ g, run [0; 0; 0; 0; 0; 0; 1; 1; 1; 1; 1; 1]%nat Inputs.twoWorkers = Some g
          ∧ uploads g "A" = 1%nat).
Proof.
  split; [|split]; eexists; (split; [vm_compute; reflexivity|]);
    vm_compute; repeat split; reflexivity.
Qed.

End Workers.

(** In an iteration of the worker, [cache.Check] is called before [h.mu] is
    taken. *)
Example check_before_lock :
  mutexEvents
    (hashr.trace (hashr.processSource (H := TextRuntime.runtime)
                    (Inputs.engine ∅ [] true) Inputs.source1
                    (Inputs.start Inputs.fsRun Inputs.cacheB)).2)
  = [hashr.EvCheck "src1"; hashr.EvLock; hashr.EvUnlock].
Proof. vm_compute. reflexivity. Qed.

(** * Further properties of the cache package *)
Section CacheMore.
Context `{Runtime}.
Import common.

Lemma checkLoop_appends ext clock l digest : ∀ i c,
  occurrences (cache.checkLoop ext clock i l c []).1 digest
  = occurrences c digest
    ++ replicate (length (filter (λ s, Sha256 s = digest) l))
         (cpb.mkCacheEntry (SourceID ext) (SourceSHA256 ext) []).
Proof.
  induction l as [|x l IH]; intros i c; simpl.
  - by rewrite app_nil_r.
  - destruct (cache.checkSample ext (clock i) c x) as [c1 e] eqn:E.
    rewrite checkLoop_acc. simpl. rewrite IH, filter_cons.
    unfold cache.checkSample in E. unfold occurrences.
    destruct (decide (Sha256 x = digest)) as [<-|Hne]; simpl.
    + destruct (c !! Sha256 x) eqn:Ex; injection E as <- <-;
        rewrite lookup_insert_eq; simpl; by rewrite <- ?app_assoc.
    + destruct (c !! Sha256 x) eqn:Ex; injection E as <- <-;
        by rewrite lookup_insert_ne.
Qed.

(** [cache.Check] only appends.  The occurrences stored under a digest
    before the call are still there afterwards, in the same order, followed
    by one new occurrence for each entry of the manifest with that digest;
    a new occurrence carries the id and the SHA-256 of the source.  When
    the manifest cannot be read, nothing is appended. *)
Theorem Check_appends (fs : os.FS) (clock : nat → Z) (extraction : Extraction)
    (cache0 : Cache) (digest : string) :
  occurrences (cache.Check fs clock extraction cache0).1 digest
  = occurrences cache0 digest
    ++ replicate
         (match cache.readJSON fs extraction with
          | Ok manifest => length (filter (λ s, Sha256 s = digest) manifest)
          | Err _ => 0%nat
          end)
         (cpb.mkCacheEntry (SourceID extraction) (SourceSHA256 extraction) []).
Proof.
  unfold cache.Check. destruct (cache.readJSON fs extraction) as [l|e].
  - pose proof (checkLoop_appends extraction clock l digest 0 cache0) as Hl.
    by destruct (cache.checkLoop extraction clock 0 l cache0 []).
  - simpl. by rewrite app_nil_r.
Qed.

(** After [cache.Check], a digest is missing from the cache exactly when it
    was missing before and the manifest does not list it: [Check] forgets
    no digest and registers every digest it is shown.  When [Check] returns
    an error, the cache is the one it was given. *)
Theorem Check_registers (fs : os.FS) (clock : nat → Z) (extraction : Extraction)
    (cache0 : Cache) :
  (∀ digest,
     (cache.Check fs clock extraction cache0).1 !! digest = None
     ↔ cache0 !! digest = None
       ∧ digest ∉ match cache.readJSON fs extraction with
                  | Ok manifest => map Sha256 manifest
                  | Err _ => []
                  end)
  ∧ (∀ e, (cache.Check fs clock extraction cache0).2 = Err e →
          (cache.Check fs clock extraction cache0).1 = cache0).
Proof.
  unfold cache.Check. destruct (cache.readJSON fs extraction) as [l|e].
  - split.
    + intros digest.
      pose proof (checkLoop_absent extraction clock l 0 cache0 digest) as Hl.
      by destruct (cache.checkLoop extraction clock 0 l cache0 []).
    + intros e. by destruct (cache.checkLoop extraction clock 0 l cache0 []).
  - split; [|done]. intros digest. simpl. split; [|by intros [? _]].
    intros ?. split; [done|]. apply not_elem_of_nil.
Qed.

Lemma checkLoop_known ext clock l : ∀ i c,
  Forall (λ s, is_Some (c !! Sha256 s)) l →
  Forall (λ s, Upload s = false) (cache.checkLoop ext clock i l c []).2.
Proof.
  induction l as [|x l IH]; intros i c Hl; simpl; [done|].
  apply Forall_cons in Hl as [[ex Hx] Hl].
  unfold cache.checkSample. rewrite Hx. rewrite checkLoop_acc. simpl.
  constructor; [done|]. apply IH. eapply Forall_impl; [exact Hl|].
  intros s Hs. simpl in Hs. rewrite lookup_insert. by case_decide.
Qed.

(** Checking the same extraction a second time, on the cache that the
    first check left, uploads nothing: every sample of the second check has
    the upload flag cleared.  The second check fails only if the first one
    did. *)
Theorem Check_again_uploads_nothing (fs : os.FS) (clock1 clock2 : nat → Z)
    (extraction : Extraction) (cache0 : Cache) :
  match (cache.Check fs clock2 extraction
           (cache.Check fs clock1 extraction cache0).1).2 with
  | Ok samples => Forall (λ s, Upload s = false) samples
  | Err _ => ∃ e, (cache.Check fs clock1 extraction cache0).2 = Err e
  end.
Proof.
  unfold cache.Check. destruct (cache.readJSON fs extraction) as [l|e];
    [|by eexists].
  pose proof (λ d, checkLoop_absent extraction clock1 l 0 cache0 d) as Ha.
  destruct (cache.checkLoop extraction clock1 0 l cache0 []) as [c1 e1].
  simpl in Ha. simpl.
  pose proof (checkLoop_known extraction clock2 l 0 c1) as Hk.
  destruct (cache.checkLoop extraction clock2 0 l c1 []) as [c2 e2].
  simpl in *. apply Hk. apply Forall_forall. intros s Hs.
  destruct (c1 !! Sha256 s) eqn:E; [by eexists|].
  apply Ha in E as [_ E]. exfalso. apply E.
  apply list_elem_of_In, in_map, list_elem_of_In, Hs.
Qed.

Lemma Create_Write_readable (fs fsc fsw : os.FS) (p b : string) :
  os.Create fs p = (fsc, None) →
  os.Write fsc p b = (fsw, None) →
  (∀ n, os.lookup fs p = Some n → os.readable n = true) →
  os.ReadFile fsw p = Ok b.
Proof.
  intros Hc Hw Hr.
  destruct (Create_Write_node fs fsc fsw p b Hc Hw) as (r & rm & Hn & Hold & Hnew).
  unfold os.ReadFile. rewrite Hn. simpl.
  enough (r = true) as -> by done.
  destruct (Create_ok fs fsc p Hc) as (_ & _ & Hwalk & _).
  destruct (os.nodes fs !! p) as [n|] eqn:Hnode.
  - rewrite (Hold n eq_refl). apply Hr. by apply lookup_Some.
  - by apply Hnew.
Qed.

(** Round trip.  When the protobuf codec decodes what it encodes for this
    cache, a cache that [cache.Save] has written without error is the
    cache that [cache.Load] returns from the resulting file system, and
    [Load] changes nothing.  (The file, if it existed before, must be
    readable.) *)
Theorem Save_then_Load (fs fs1 : os.FS) (repoName cacheDir : string) (c : Cache) :
  cache.Save fs repoName cacheDir c = (fs1, None) →
  (∀ data, proto_Marshal c = Ok data → proto_Unmarshal data = Ok c) →
  (∀ n, os.lookup fs (cache.cachePath repoName cacheDir) = Some n →
        os.readable n = true) →
  cache.Load fs1 repoName cacheDir = (fs1, Ok c).
Proof.
  intros Hsave Hcodec Hr. unfold cache.Save in Hsave.
  set (p := cache.cachePath repoName cacheDir) in *.
  destruct (proto_Marshal c) as [data|e] eqn:Hm; [|done].
  destruct (os.Create fs p) as [fsc [e|]] eqn:Hc; [done|].
  destruct (os.Write fsc p data) as [fsw [e|]] eqn:Hw; [done|].
  injection Hsave as <-.
  pose proof (Create_Write_readable fs fsc fsw p data Hc Hw Hr) as Hread.
  unfold cache.Load. fold p. rewrite Hread, (Hcodec data eq_refl).
  unfold os.ReadFile in Hread. unfold os.Stat.
  by destruct (os.lookup fsw p).
Qed.

(** [cache.Load] is idempotent: loading again right after a load that
    returned no error gives the same cache and changes nothing. *)
Theorem Load_twice (fs fs1 : os.FS) (repoName cacheDir : string) (c : Cache) :
  cache.Load fs repoName cacheDir = (fs1, Ok c) →
  cache.Load fs1 repoName cacheDir = (fs1, Ok c).
Proof.
  unfold cache.Load. set (p := cache.cachePath repoName cacheDir).
  assert (∀ fs2 c2, cache.removeCorrupted fs repoName p = (fs2, Ok c2) →
            c2 = ∅ ∧ os.IsNotExist (os.Stat fs2 p) = true) as Hrm.
  { intros fs2 c2. unfold cache.removeCorrupted.
    destruct (os.Remove fs p) as [fs3 [e|]] eqn:Hr; [done|].
    intros [= <- <-]. split; [done|]. by rewrite (Remove_gone fs fs3 p Hr). }
  destruct (os.IsNotExist (os.Stat fs p)) eqn:Hs.
  { intros [= <- <-]. by rewrite Hs. }
  destruct (os.ReadFile fs p) as [data|e] eqn:Hread.
  - destruct (proto_Unmarshal data) as [c1|e] eqn:Hparse.
    + intros [= <- <-]. by rewrite Hs, Hread, Hparse.
    + intros Hx. apply Hrm in Hx as [-> ->]. done.
  - intros Hx. apply Hrm in Hx as [-> ->]. done.
Qed.

(** [cache.Load] touches nothing but the cache file, and the only thing it
    ever does to that file is to delete it: every other entry of the file
    system is as before, and the entry at the cache path is as before or
    gone. *)
Theorem Load_frame (fs : os.FS) (repoName cacheDir : string) :
  let p := cache.cachePath repoName cacheDir in
  let fs1 := (cache.Load fs repoName cacheDir).1 in
  delete p (os.nodes fs1) = delete p (os.nodes fs)
  ∧ (os.nodes fs1 !! p = os.nodes fs !! p ∨ os.nodes fs1 !! p = None).
Proof.
  intros p fs1. subst fs1. unfold cache.Load. fold p.
  assert (let fs2 := (cache.removeCorrupted fs repoName p).1 in
          delete p (os.nodes fs2) = delete p (os.nodes fs)
          ∧ (os.nodes fs2 !! p = os.nodes fs !! p ∨ os.nodes fs2 !! p = None))
    as Hrm.
  { unfold cache.removeCorrupted, os.Remove.
    destruct (os.lookup fs p) as [n|]; [|by split; [|left]].
    destruct (os.removable n); [|by split; [|left]].
    destruct (os.is_dir n && os.occupied fs p); [by split; [|left]|]. simpl.
    split; [by rewrite delete_delete_eq | right; apply lookup_delete_eq]. }
  destruct (os.IsNotExist (os.Stat fs p)); [by split; [|left]|].
  destruct (os.ReadFile fs p) as [data|e]; [|exact Hrm].
  destruct (proto_Unmarshal data); [by split; [|left] | exact Hrm].
Qed.

(** [cache.Save] touches nothing but the cache file, whether it succeeds or
    fails at any of its steps. *)
Theorem Save_frame (fs : os.FS) (repoName cacheDir : string) (c : Cache) :
  let p := cache.cachePath repoName cacheDir in
  delete p (os.nodes (cache.Save fs repoName cacheDir c).1) = delete p (os.nodes fs).
Proof.
  intros p. unfold cache.Save. fold p.
  destruct (proto_Marshal c) as [data|e]; [|done].
  assert (delete p (os.nodes (os.Create fs p).1) = delete p (os.nodes fs)) as Hc.
  { unfold os.Create. destruct (os.walk fs p); [done|].
    destruct (os.nodes fs !! p) as [n|]; simpl.
    - destruct (os.is_dir n); [done|]. destruct (os.writable n); [|done].
      simpl. by rewrite delete_insert_eq.
    - destruct (os.parentWritable fs p); [|done]. simpl.
      by rewrite delete_insert_eq. }
  destruct (os.Create fs p) as [fsc [e|]]; [done|]. simpl in Hc.
  assert (delete p (os.nodes (os.Write fsc p data).1) = delete p (os.nodes fsc)) as Hw.
  { unfold os.Write. destruct (os.lookup fsc p); [|done]. simpl.
    by rewrite delete_insert_eq. }
  destruct (os.Write fsc p data) as [fsw [e|]]; simpl in *; congruence.
Qed.

End CacheMore.

(** Saving a cache on a device with room, and loading it back. *)
Lemma Save_then_Load_witness :
  cache.Load (H := TextRuntime.runtime)
    (cache.Save (H := TextRuntime.runtime) Inputs.fsCacheDir "repo" "/var/cache"
       Inputs.cachePlain).1
    "repo" "/var/cache"
  = ((cache.Save (H := TextRuntime.runtime) Inputs.fsCacheDir "repo" "/var/cache"
        Inputs.cachePlain).1,
     Ok Inputs.cachePlain).
Proof.
  apply (Save_then_Load (H := TextRuntime.runtime) Inputs.fsCacheDir).
  - vm_compute. reflexivity.
  - intros data [= <-]. vm_compute. reflexivity.
  - intros n. vm_compute. discriminate.
Defined.

(** Loading twice from a cache directory whose file does not parse. *)
Lemma Load_twice_witness :
  cache.Load (H := TextRuntime.runtime)
    (cache.Load (H := TextRuntime.runtime) Inputs.fsGarbage "repo" "/var/cache").1
    "repo" "/var/cache"
  = ((cache.Load (H := TextRuntime.runtime) Inputs.fsGarbage "repo" "/var/cache").1,
     Ok ∅).
Proof.
  apply (Load_twice (H := TextRuntime.runtime) Inputs.fsGarbage).
  vm_compute. reflexivity.
Defined.

(** * Further properties of the worker *)
Section WorkerMore.
Context `{Runtime}.
Import common.

Lemma preserves_ret {A B} (proj : hashr.State → B) (a : A) :
  preserves proj (mret a).
Proof. by intros st. Qed.

Lemma preserves_bind {A B C} (proj : hashr.State → C) (m : hashr.M A)
    (k : A → hashr.M B) :
  preserves proj m → (∀ a, preserves proj (k a)) → preserves proj (m ≫= k).
Proof.
  intros Hm Hk st. unfold mbind, hashr.M_bind, hashr.bind.
  specialize (Hm st). destruct (m st) as [a st1]. simpl in Hm.
  by rewrite (Hk a st1).
Qed.

Lemma preserves_hoare {A B} (proj : hashr.State → B) (P : B → Prop)
    (m : hashr.M A) :
  preserves proj m → hoare (λ st, P (proj st)) m (λ _ st, P (proj st)).
Proof. intros Hm st HP. by rewrite (Hm st). Qed.

Ltac preserves_tac :=
  repeat first
    [ apply preserves_ret
    | apply preserves_bind; [|intros ?]
    | match goal with
      | |- preserves _ (match ?x with _ => _ end) => destruct x
      | |- preserves _ (let '(_, _) := ?x in _) => destruct x
      | |- preserves _ (if ?x then _ else _) => destruct x
      end
    | progress unfold hashr.timeSince, hashr.updateSource, hashr.updateJobs,
        hashr.cleanupLocalStorage, hashr.handleError, hashr.cacheCheck,
        hashr.cacheSave, hashr.lock, hashr.unlock, hashr.process
    | by intros ? ].

(** *** The counter of the periodic save *)

Lemma exportedJobs_app (t1 t2 : list hashr.Event) :
  exportedJobs (t1 ++ t2) = (exportedJobs t1 + exportedJobs t2)%nat.
Proof.
  induction t1 as [|e t1 IH]; [done|]. destruct e; simpl; try done.
  destruct (decide _); simpl; by rewrite IH.
Qed.

Lemma saves_app (t1 t2 : list hashr.Event) :
  saves (t1 ++ t2) = (saves t1 + saves t2)%nat.
Proof.
  induction t1 as [|e t1 IH]; [done|]. destruct e; simpl; by rewrite ?IH.
Qed.

Lemma tally_emit q e :
  match e with
  | hashr.EvSave _ | hashr.EvUpdateJobs _ _ => False
  | _ => True
  end →
  preserves (tally q) (hashr.emit e).
Proof.
  intros He st. unfold tally, balance. simpl.
  rewrite exportedJobs_app, saves_app. destruct e; try done; simpl;
    by rewrite !Nat.add_0_r.
Qed.

Lemma tally_updateSource q q' f :
  (∀ p, ProcessingSource.Status (f p) = ProcessingSource.Status p) →
  preserves (tally q) (hashr.updateSource q' f).
Proof.
  intros Hf st. unfold tally, balance. simpl. f_equal. f_equal.
  destruct (decide (q' = q)) as [->|Hne].
  - rewrite lookup_alter_eq. destruct (hashr.processingSources st !! q); simpl;
      by rewrite ?Hf.
  - by rewrite lookup_alter_ne.
Qed.

Lemma hoare_exists {A X} (P : X → hashr.State → Prop)
    (Q : A → hashr.State → Prop) (m : hashr.M A) :
  (∀ x, hoare (P x) m Q) → hoare (λ st, ∃ x, P x st) m Q.
Proof. intros Hm st [x HP]. by apply (Hm x). Qed.

Ltac tally_tac :=
  repeat first
    [ apply preserves_ret
    | apply tally_emit; done
    | apply tally_updateSource; done
    | apply preserves_bind; [|intros ?]
    | match goal with
      | |- preserves _ (match ?x with _ => _ end) => destruct x
      | |- preserves _ (let '(_, _) := ?x in _) => destruct x
      | |- preserves _ (if ?x then _ else _) => destruct x
      end
    | progress unfold hashr.timeSince, hashr.cleanupLocalStorage,
        hashr.cacheCheck, hashr.lock, hashr.unlock, hashr.process
    | by intros ? ].

Lemma tally_countExports q q' samples :
  preserves (tally q) (hashr.countExports q' samples).
Proof.
  induction samples as [|s l IH]; simpl; [apply preserves_ret|].
  apply preserves_bind; [|intros ?; exact IH]. tally_tac.
Qed.

Lemma tally_process q h source processor :
  preserves (tally q) (hashr.process h source processor).
Proof. tally_tac. Qed.

Lemma tally_cleanupLocalStorage q path :
  preserves (tally q) (hashr.cleanupLocalStorage path).
Proof. tally_tac. Qed.

Lemma tally_setStatus q s0 s b c :
  hoare (λ st, tally q st = (Some s0, b, c))
        (hashr.updateSource q (ProcessingSource.setStatus s))
        (λ _ st, tally q st = (Some s, b, c)).
Proof.
  intros st. unfold tally, balance. simpl. intros [= Hs <- <-].
  rewrite lookup_alter_eq.
  by destruct (hashr.processingSources st !! q).
Qed.

Lemma tally_updateJobs h q s b c :
  hoare (λ st, tally q st = (Some s, b, c))
        (hashr.updateJobs h q)
        (λ _ st, tally q st
                 = (Some s, if decide (s = hashr.exported) then b + 1 else b, c)).
Proof.
  intros st. unfold tally, balance, hashr.updateJobs, mbind, hashr.M_bind,
    hashr.bind. simpl. intros [= Hs <- <-].
  destruct (hashr.processingSources st !! q) as [p|] eqn:Hl; [|done].
  injection Hs as <-. simpl. rewrite Hl, exportedJobs_app, saves_app. simpl.
  f_equal. f_equal.
  destruct (decide (ProcessingSource.Status p = hashr.exported)); lia.
Qed.

Lemma tally_cacheSave h q repoName s b c :
  hoare (λ st, tally q st = (Some s, b, c))
        (hashr.cacheSave h repoName)
        (λ _ st, tally q st = (Some s, b - 21, c)).
Proof.
  intros st. unfold hashr.cacheSave, mbind, hashr.M_bind, hashr.bind, tally,
    balance. simpl.
  destruct (cache.Save (hashr.fs st) repoName (hashr.CacheDir h) (hashr.cache st))
    as [fs1 err].
  simpl. rewrite exportedJobs_app, saves_app. simpl.
  intros [= -> <- <-]. f_equal. f_equal. lia.
Qed.

Lemma tally_handleError h q base err s b c :
  hoare (λ st, tally q st = (Some s, b, c))
        (hashr.handleError h q base err)
        (λ _ st, tally q st = (Some hashr.failed, b, c)).
Proof.
  unfold hashr.handleError.
  eapply hoare_bind; [apply tally_setStatus | intros ?; cbv beta].
  eapply hoare_bind;
    [apply (preserves_hoare (tally q) (λ v, v = (Some hashr.failed, b, c)));
     tally_tac | intros ?; cbv beta].
  eapply hoare_bind; [apply tally_updateJobs | intros ?; cbv beta].
  rewrite decide_False by done.
  apply (preserves_hoare (tally q) (λ v, v = (Some hashr.failed, b, c))).
  tally_tac.
Qed.

Lemma tally_finishSource h q extraction s b c :
  hoare (λ st, tally q st = (Some s, b, c))
        (hashr.finishSource h q extraction)
        (λ _ st, tally q st = (Some hashr.exported, b, c + 1)).
Proof.
  unfold hashr.finishSource.
  eapply hoare_bind; [apply tally_setStatus | intros ?; cbv beta].
  eapply hoare_bind; [apply tally_updateJobs | intros ?; cbv beta].
  rewrite decide_True by done.
  do 2 (eapply hoare_bind;
    [apply (preserves_hoare (tally q) (λ v, v = (Some hashr.exported, b + 1, c)));
     tally_tac | intros ?; cbv beta]).
  intros st. unfold tally, balance. simpl. intros [= -> Hb <-].
  f_equal. f_equal. lia.
Qed.

Lemma tally_exportSource h source q extraction samples s b c :
  0 ≤ c ≤ 21 →
  hoare (λ st, tally q st = (Some s, b, c))
        (hashr.exportSource h source q extraction samples)
        (λ _ st, ∃ s' c', tally q st = (Some s', b, c') ∧ 0 ≤ c' ≤ 21).
Proof.
  intros Hc. unfold hashr.exportSource.
  eapply hoare_bind;
    [apply (preserves_hoare (tally q) (λ v, v = (Some s, b, c)));
     tally_tac | intros ?; cbv beta].
  eapply hoare_bind with
    (Q := λ a st, a = st ∧ tally q st = (Some s, b, c)); [by intros st|].
  intros st0. cbv beta.
  eapply hoare_bind with
    (Q := λ _ st, ∃ c', tally q st = (Some s, b, c') ∧ 0 ≤ c' ≤ 20).
  { intros st [-> Ht]. assert (hashr.cacheSaveCounter st = c) as Hcnt
      by (by injection Ht).
    rewrite Hcnt. destruct (Z.ltb_spec 20 c).
    - exists 0. split; [|lia].
      unfold mbind at 1, hashr.M_bind at 1, hashr.bind at 1.
      pose proof (tally_cacheSave h q (Source.RepoName source) s b c st Ht) as Hs.
      destruct (hashr.cacheSave h (Source.RepoName source) st) as [? st1].
      simpl in Hs. revert Hs. unfold tally, balance. simpl.
      intros [= -> Hb Hc1]. f_equal. f_equal. lia.
    - exists c. split; [done|lia]. }
  intros ?. cbv beta. apply hoare_exists. intros c'. apply hoare_pure.
  intros Hc'.
  assert (∀ s0, hoare (λ st, tally q st = (Some s0, b, c'))
            (hashr.finishSource h q extraction)
            (λ _ st, ∃ s' c'0, tally q st = (Some s', b, c'0) ∧ 0 ≤ c'0 ≤ 21))
    as Hfin.
  { intros s0. eapply hoare_conseq;
      [apply (tally_finishSource h q extraction s0 b c') | by intros ?? |].
    intros ? st Ht. exists hashr.exported, (c' + 1). split; [done|lia]. }
  assert (∀ s0 err, hoare (λ st, tally q st = (Some s0, b, c'))
            (hashr.handleError h q (BaseDir extraction) err;; hashr.unlock)
            (λ _ st, ∃ s' c'0, tally q st = (Some s', b, c'0) ∧ 0 ≤ c'0 ≤ 21))
    as Herr.
  { intros s0 err.
    eapply hoare_bind; [apply tally_handleError | intros ?; cbv beta].
    eapply hoare_conseq;
      [apply (preserves_hoare (tally q) (λ v, v = (Some hashr.failed, b, c')));
       tally_tac | by intros ?? |].
    intros ? st Ht. exists hashr.failed, c'. split; [done|lia]. }
  destruct (hashr.Export h).
  - do 2 (eapply hoare_bind;
      [apply (preserves_hoare (tally q) (λ v, v = (Some s, b, c')));
       tally_tac | intros ?; cbv beta]).
    destruct (Exporter.Export (hashr.Exporter h) _) as [e|]; [apply Herr|].
    do 3 (eapply hoare_bind;
      [apply (preserves_hoare (tally q) (λ v, v = (Some s, b, c')));
       tally_tac | intros ?; cbv beta]).
    eapply hoare_bind;
      [apply (preserves_hoare (tally q) (λ v, v = (Some s, b, c'))),
         tally_countExports | intros ?; cbv beta].
    apply Hfin.
  - eapply hoare_bind with
      (Q := λ a st, tally q st = (Some s, b, c')); [by intros st|].
    intros st1. cbv beta.
    destruct (hashr.saveSamples _ _ _ _ _ _) as [fs1 [e|]].
    + eapply hoare_bind;
        [apply (preserves_hoare (tally q) (λ v, v = (Some s, b, c')));
         tally_tac | intros ?; cbv beta].
      apply Herr.
    + eapply hoare_bind;
        [apply (preserves_hoare (tally q) (λ v, v = (Some s, b, c')));
         tally_tac | intros ?; cbv beta].
      apply Hfin.
Qed.

Lemma tally_processSource h source st :
  0 ≤ hashr.cacheSaveCounter st ≤ 21 →
  balance (hashr.processSource h source st).2 = balance st
  ∧ 0 ≤ hashr.cacheSaveCounter (hashr.processSource h source st).2 ≤ 21.
Proof.
  intros Hc. set (b := balance st). set (c := hashr.cacheSaveCounter st).
  enough (hoare (λ s, balance s = b ∧ hashr.cacheSaveCounter s = c)
            (hashr.processSource h source)
            (λ _ s, balance s = b ∧ 0 ≤ hashr.cacheSaveCounter s ≤ 21))
    as Hh by (by apply Hh).
  unfold hashr.processSource.
  destruct (Source.QuickSHA256Hash source) as [q|e].
  2:{ intros s [Hb Hcnt]. simpl. split; [exact Hb|]. rewrite Hcnt. exact Hc. }
  assert (∀ A (m : hashr.M A) s0,
    hoare (λ s, tally q s = (Some s0, b, c)) m
          (λ _ s, ∃ s' c', tally q s = (Some s', b, c') ∧ 0 ≤ c' ≤ 21) →
    hoare (λ s, tally q s = (Some s0, b, c)) m
          (λ _ s, balance s = b ∧ 0 ≤ hashr.cacheSaveCounter s ≤ 21)) as Hend.
  { intros A m s0 Hm s Hs. destruct (Hm s Hs) as (s' & c' & Ht & Hc').
    injection Ht as _ Hb Hcnt. by rewrite Hcnt. }
  eapply hoare_bind with
    (Q := λ _ s, balance s = b ∧ hashr.cacheSaveCounter s = c); [by intros s|].
  intros now. eapply hoare_bind with
    (Q := λ _ s, balance s = b ∧ hashr.cacheSaveCounter s = c); [by intros s|].
  intros st1. eapply hoare_bind with
    (Q := λ _ s, tally q s = (Some hashr.discovered, b, c)).
  { intros s [Hb Hcnt]. unfold tally. simpl. rewrite lookup_insert_eq. simpl.
    f_equal; [|done]. f_equal. exact Hb. }
  intros ?. cbv beta.
  eapply hoare_bind; [apply tally_updateJobs | intros ?; cbv beta].
  rewrite decide_False by done.
  eapply hoare_bind;
    [apply (preserves_hoare (tally q) (λ v, v = (Some hashr.discovered, b, c))),
       tally_process | intros [extraction err]; cbv beta].
  destruct err as [err|].
  { apply Hend. eapply hoare_conseq;
      [apply (tally_handleError h q _ err hashr.discovered b c) | by intros ?? |].
    intros ? s Hs. by exists hashr.failed, c. }
  eapply hoare_bind;
    [apply (preserves_hoare (tally q) (λ v, v = (Some hashr.discovered, b, c)));
     tally_tac | intros ?; cbv beta].
  eapply hoare_bind; [apply tally_setStatus | intros ?; cbv beta].
  eapply hoare_bind; [apply tally_updateJobs | intros ?; cbv beta].
  rewrite decide_False by done.
  eapply hoare_bind;
    [apply (preserves_hoare (tally q) (λ v, v = (Some hashr.processed, b, c)));
     tally_tac | intros r; cbv beta].
  destruct r as [samples|err].
  2:{ apply Hend. eapply hoare_conseq;
        [apply (tally_handleError h q _ err hashr.processed b c) | by intros ?? |].
      intros ? s Hs. by exists hashr.failed, c. }
  eapply hoare_bind; [apply tally_setStatus | intros ?; cbv beta].
  eapply hoare_bind; [apply tally_updateJobs | intros ?; cbv beta].
  rewrite decide_False by done.
  apply Hend. by apply tally_exportSource.
Qed.

(** A worker that runs alone, so that no other worker changes
    [cacheSaveCounter] between or during its iterations, saves the cache
    from within an iteration once for every 21 jobs that reach [exported]:
    over the sources it receives, the number of jobs written as [exported],
    less 21 for each such save, less the counter, stays what it was, and
    the counter stays between 0 and 21.  (The counter is incremented after
    [h.mu] is released and is shared by the workers of a repository; with
    several workers the count is not kept.) *)
Theorem worker_save_period (h : hashr.HashR) (sources : list Source.t)
    (st : hashr.State) :
  0 ≤ hashr.cacheSaveCounter st ≤ 21 →
  let st1 := (hashr.processingWorker h sources st).2 in
  Z.of_nat (exportedJobs (hashr.trace st1))
  - 21 * Z.of_nat (saves (hashr.trace st1)) - hashr.cacheSaveCounter st1
  = Z.of_nat (exportedJobs (hashr.trace st))
    - 21 * Z.of_nat (saves (hashr.trace st)) - hashr.cacheSaveCounter st
  ∧ 0 ≤ hashr.cacheSaveCounter st1 ≤ 21.
Proof.
  revert st. induction sources as [|source sources IH]; intros st Hc; simpl;
    [done|].
  unfold mbind, hashr.M_bind, hashr.bind.
  destruct (tally_processSource h source st Hc) as [Hb Hc1].
  destruct (hashr.processSource h source st) as [[] st1]. simpl in Hb, Hc1.
  destruct (IH st1 Hc1) as [Hb2 Hc2]. split; [|exact Hc2].
  etrans; [exact Hb2|]. exact Hb.
Qed.

(** *** The job record at the end of an iteration *)

Lemma exportCalls_app (t1 t2 : list hashr.Event) :
  exportCalls (t1 ++ t2) = exportCalls t1 ++ exportCalls t2.
Proof.
  induction t1 as [|e t1 IH]; [done|]. destruct e; simpl; by rewrite ?IH.
Qed.

Lemma ledger_emit q e :
  match e with hashr.EvExport _ => False | _ => True end →
  preserves (ledger q) (hashr.emit e).
Proof.
  intros He st. unfold ledger. simpl. rewrite exportCalls_app.
  destruct e; try done; simpl; by rewrite app_nil_r.
Qed.

Lemma ledger_updateSource q q' f :
  (∀ p, summary (f p) = summary p) →
  preserves (ledger q) (hashr.updateSource q' f).
Proof.
  intros Hf st. unfold ledger. simpl. f_equal.
  destruct (decide (q' = q)) as [->|Hne].
  - rewrite lookup_alter_eq. destruct (hashr.processingSources st !! q); simpl;
      by rewrite ?Hf.
  - by rewrite lookup_alter_ne.
Qed.

Ltac ledger_tac :=
  repeat first
    [ apply preserves_ret
    | apply ledger_emit; done
    | apply ledger_updateSource; done
    | apply preserves_bind; [|intros ?]
    | match goal with
      | |- preserves _ (match ?x with _ => _ end) => destruct x
      | |- preserves _ (let '(_, _) := ?x in _) => destruct x
      | |- preserves _ (if ?x then _ else _) => destruct x
      end
    | progress unfold hashr.timeSince, hashr.cleanupLocalStorage,
        hashr.cacheCheck, hashr.cacheSave, hashr.lock, hashr.unlock,
        hashr.process, hashr.updateJobs
    | by intros ? ].

Ltac ledger_step v :=
  eapply hoare_bind;
    [apply (preserves_hoare (ledger _) (λ l, l = v)); ledger_tac
    | intros ?; cbv beta].

Lemma ledger_set q f sm sm' calls :
  (∀ p, summary p = sm → summary (f p) = sm') →
  hoare (λ st, ledger q st = (Some sm, calls))
        (hashr.updateSource q f)
        (λ _ st, ledger q st = (Some sm', calls)).
Proof.
  intros Hf st. unfold ledger. simpl. intros [= Hs <-].
  rewrite lookup_alter_eq.
  destruct (hashr.processingSources st !! q) as [p|]; [|done].
  injection Hs as Hs. simpl. by rewrite (Hf p Hs).
Qed.

Lemma ledger_status q source s0 s n k e calls :
  hoare (λ st, ledger q st = (Some (summaryOf source s0 n k e), calls))
        (hashr.updateSource q (ProcessingSource.setStatus s))
        (λ _ st, ledger q st = (Some (summaryOf source s n k e), calls)).
Proof. apply ledger_set. intros p. unfold summary, summaryOf. simpl. congruence. Qed.

Lemma ledger_countExports q source s n e calls samples : ∀ k,
  hoare (λ st, ledger q st = (Some (summaryOf source s n k e), calls))
        (hashr.countExports q samples)
        (λ _ st, ledger q st
                 = (Some (summaryOf source s n (k + uploadCount samples) e), calls)).
Proof.
  unfold uploadCount.
  induction samples as [|sample samples IH]; intros k; simpl.
  - intros st Hst. simpl. by rewrite Z.add_0_r.
  - rewrite filter_cons. destruct (Upload sample) eqn:Hu.
    + rewrite decide_True by done. simpl length.
      eapply hoare_bind.
      { apply (ledger_set q _ _ (summaryOf source s n (k + 1) e)).
        intros p. unfold summary, summaryOf. simpl. congruence. }
      intros ?. cbv beta.
      eapply hoare_conseq; [apply (IH (k + 1)) | by intros ?? |].
      intros ? st ->. rewrite Nat2Z.inj_succ.
      assert (∀ x, k + 1 + x = k + Z.succ x) as <- by lia. done.
    + rewrite decide_False by done.
      eapply hoare_bind; [|intros ?; apply (IH k)]. by intros st.
Qed.

Lemma ledger_handleError h q base err source s n k e calls :
  hoare (λ st, ledger q st = (Some (summaryOf source s n k e), calls))
        (hashr.handleError h q base err)
        (λ _ st, ledger q st
                 = (Some (summaryOf source hashr.failed n k (Error err)), calls)).
Proof.
  unfold hashr.handleError.
  eapply hoare_bind; [apply ledger_status | intros ?; cbv beta].
  eapply hoare_bind.
  { apply (ledger_set q _ _ (summaryOf source hashr.failed n k (Error err))).
    intros p. unfold summary, summaryOf. simpl. congruence. }
  intros ?. cbv beta.
  apply (preserves_hoare (ledger q)
           (λ l, l = (Some (summaryOf source hashr.failed n k (Error err)), calls))).
  ledger_tac.
Qed.

Lemma ledger_finishSource h q extraction source s n k e calls :
  hoare (λ st, ledger q st = (Some (summaryOf source s n k e), calls))
        (hashr.finishSource h q extraction)
        (λ _ st, ledger q st
                 = (Some (summaryOf source hashr.exported n k e), calls)).
Proof.
  unfold hashr.finishSource.
  eapply hoare_bind; [apply ledger_status | intros ?; cbv beta].
  apply (preserves_hoare (ledger q)
           (λ l, l = (Some (summaryOf source hashr.exported n k e), calls))).
  ledger_tac.
Qed.

Lemma ledger_exportSource h source q extraction samples s calls :
  hoare (λ st, ledger q st = (Some (summaryOf source s 0 0 EmptyString), calls))
        (hashr.exportSource h source q extraction samples)
        (λ _ st, settled h source q calls st).
Proof.
  unfold hashr.exportSource, settled.
  ledger_step (Some (summaryOf source s 0 0 EmptyString), calls).
  ledger_step (Some (summaryOf source s 0 0 EmptyString), calls).
  ledger_step (Some (summaryOf source s 0 0 EmptyString), calls).
  destruct (hashr.Export h).
  - ledger_step (Some (summaryOf source s 0 0 EmptyString), calls).
    set (call := Exporter.mkCall _ _ _ _ _ _).
    eapply hoare_bind with
      (Q := λ _ st, ledger q st
                    = (Some (summaryOf source s 0 0 EmptyString), calls ++ [call])).
    { intros st. unfold ledger. simpl. rewrite exportCalls_app.
      by intros [= -> ->]. }
    intros ?. cbv beta.
    destruct (Exporter.Export (hashr.Exporter h) call) as [err|].
    + eapply hoare_bind; [apply ledger_handleError | intros ?; cbv beta].
      eapply hoare_conseq;
        [apply (preserves_hoare (ledger q)
                  (λ l, l = (Some (summaryOf source hashr.failed 0 0 (Error err)),
                             calls ++ [call]))); ledger_tac
        | by intros ?? |].
      intros ? st Hst. left. exists (Error err). right. by exists call.
    + ledger_step (Some (summaryOf source s 0 0 EmptyString), calls ++ [call]).
      ledger_step (Some (summaryOf source s 0 0 EmptyString), calls ++ [call]).
      eapply hoare_bind.
      { apply (ledger_set q _ _
                 (summaryOf source s (Z.of_nat (length samples)) 0 EmptyString)).
        intros p. unfold summary, summaryOf. simpl. congruence. }
      intros ?. cbv beta.
      eapply hoare_bind; [apply ledger_countExports | intros ?; cbv beta].
      eapply hoare_conseq; [apply ledger_finishSource | intros ? Hpre; exact Hpre |].
      intros ? st Hst. right. exists call. by rewrite Hst.
  - eapply hoare_bind with
      (Q := λ _ st, ledger q st
                    = (Some (summaryOf source s 0 0 EmptyString), calls));
      [by intros st|].
    intros st1. cbv beta.
    destruct (hashr.saveSamples _ _ _ _ _ _) as [fs1 [err|]].
    + ledger_step (Some (summaryOf source s 0 0 EmptyString), calls).
      eapply hoare_bind; [apply ledger_handleError | intros ?; cbv beta].
      eapply hoare_conseq;
        [apply (preserves_hoare (ledger q)
                  (λ l, l = (Some (summaryOf source hashr.failed 0 0 (Error err)),
                             calls))); ledger_tac
        | by intros ?? |].
      intros ? st Hst. left. exists (Error err). by left.
    + ledger_step (Some (summaryOf source s 0 0 EmptyString), calls).
      eapply hoare_conseq; [apply ledger_finishSource | intros ? Hpre; exact Hpre |].
      intros ? st Hst. by right.
Qed.

(** At the end of an iteration of the worker the record of the job in memory
    names the source (id, repository name and path, remote path) and is in a
    terminal state.  A failed job has both counts at 0.  An exported job has
    no error; with the exporter enabled its sample count is the number of
    samples handed to the exporter in the one call made for it and its export
    count is the number of those to upload; with the exporter disabled both
    counts stay 0 and the exporter is not called. *)
Theorem job_record_final (h : hashr.HashR) (source : Source.t) (q : string)
    (st : hashr.State) :
  Source.QuickSHA256Hash source = Ok q →
  let st1 := (hashr.processSource h source st).2 in
  ∃ p status calls,
    hashr.processingSources st1 !! q = Some p
    ∧ exportCalls (hashr.trace st1) = exportCalls (hashr.trace st) ++ calls
    ∧ ProcessingSource.ID p = Source.ID source
    ∧ ProcessingSource.Repo p = Source.RepoName source
    ∧ ProcessingSource.RepoPath p = Source.RepoPath source
    ∧ ProcessingSource.RemoteSourcePath p = Source.RemotePath source
    ∧ ProcessingSource.Status p = status
    ∧ (status = "failed"
       ∧ ProcessingSource.SampleCount p = 0 ∧ ProcessingSource.ExportCount p = 0
       ∧ (hashr.Export h = false → calls = [])
       ∨ status = "exported"
         ∧ ProcessingSource.Error p = EmptyString
         ∧ if hashr.Export h
           then ∃ call,
                  calls = [call]
                  ∧ ProcessingSource.SampleCount p
                    = Z.of_nat (length (Exporter.samples call))
                  ∧ ProcessingSource.ExportCount p
                    = Z.of_nat (length (filter (λ sample, Upload sample = true)
                                          (Exporter.samples call)))
           else calls = []
                ∧ ProcessingSource.SampleCount p = 0
                ∧ ProcessingSource.ExportCount p = 0).
Proof.
  intros Hq st1. set (calls := exportCalls (hashr.trace st)).
  assert (settled h source q calls st1) as Hs.
  { enough (hoare (λ s, s = st) (hashr.processSource h source)
              (λ _ s, settled h source q calls s)) as Hh by (by apply Hh).
    unfold hashr.processSource. rewrite Hq.
    eapply hoare_bind with (Q := λ _ s, exportCalls (hashr.trace s) = calls);
      [by intros s ->|].
    intros now. eapply hoare_bind with
      (Q := λ _ s, exportCalls (hashr.trace s) = calls); [by intros s|].
    intros st0. eapply hoare_bind with
      (Q := λ _ s, ledger q s
                   = (Some (summaryOf source hashr.discovered 0 0 EmptyString),
                      calls)).
    { intros s Hc. unfold ledger. simpl. rewrite lookup_insert_eq. simpl.
      by rewrite Hc. }
    intros ?. cbv beta.
    ledger_step (Some (summaryOf source hashr.discovered 0 0 EmptyString), calls).
    eapply hoare_bind with
      (Q := λ _ s, ledger q s
                   = (Some (summaryOf source hashr.discovered 0 0 EmptyString),
                      calls)).
    { apply (preserves_hoare (ledger q)
               (λ l, l = (Some (summaryOf source hashr.discovered 0 0 EmptyString),
                          calls))).
      ledger_tac. }
    intros [extraction err]. cbv beta.
    destruct err as [err|].
    { eapply hoare_conseq; [apply ledger_handleError | intros ? Hpre; exact Hpre |].
      intros ? s Hs. left. exists (Error err). by left. }
    ledger_step (Some (summaryOf source hashr.discovered 0 0 EmptyString), calls).
    eapply hoare_bind; [apply ledger_status | intros ?; cbv beta].
    ledger_step (Some (summaryOf source hashr.processed 0 0 EmptyString), calls).
    eapply hoare_bind with
      (Q := λ _ s, ledger q s
                   = (Some (summaryOf source hashr.processed 0 0 EmptyString),
                      calls)).
    { apply (preserves_hoare (ledger q)
               (λ l, l = (Some (summaryOf source hashr.processed 0 0 EmptyString),
                          calls))).
      ledger_tac. }
    intros r. cbv beta. destruct r as [samples|err].
    2:{ eapply hoare_conseq; [apply ledger_handleError | intros ? Hpre; exact Hpre |].
        intros ? s Hs. left. exists (Error err). by left. }
    eapply hoare_bind; [apply ledger_status | intros ?; cbv beta].
    ledger_step (Some (summaryOf source hashr.cached 0 0 EmptyString), calls).
    apply ledger_exportSource. }
  assert (∀ sm l, ledger q st1 = (Some sm, l) →
    ∃ p, hashr.processingSources st1 !! q = Some p ∧ summary p = sm
         ∧ exportCalls (hashr.trace st1) = l) as Hl.
  { intros sm l. unfold ledger. intros [= Hp Hc].
    destruct (hashr.processingSources st1 !! q) as [p|]; [|done].
    exists p. by injection Hp as ->. }
  unfold settled in Hs. destruct Hs as [[msg [Hs|(call & He & Hs)]]|Hs].
  - destruct (Hl _ _ Hs) as (p & Hp & [= ? ? ? ? ? ? ? ?] & Hc).
    exists p, "failed", []. rewrite app_nil_r. repeat split; try done.
    left. by repeat split.
  - destruct (Hl _ _ Hs) as (p & Hp & [= ? ? ? ? ? ? ? ?] & Hc).
    exists p, "failed", [call]. repeat split; try done.
    left. repeat split; try done. by rewrite He.
  - destruct (hashr.Export h).
    + destruct Hs as [call Hs].
      destruct (Hl _ _ Hs) as (p & Hp & [= ? ? ? ? ? ? ? ?] & Hc).
      exists p, "exported", [call]. repeat split; try done.
      right. repeat split; try done. by exists call.
    + destruct (Hl _ _ Hs) as (p & Hp & [= ? ? ? ? ? ? ? ?] & Hc).
      exists p, "exported", []. rewrite app_nil_r. repeat split; try done.
      right. by repeat split.
Qed.

(** *** Commands and failures *)

Lemma processingWorker_purges (h : hashr.HashR) (sources : list Source.t) : ∀ st,
  ∃ cmds,
    execs (hashr.trace (hashr.processingWorker h sources st).2)
    = execs (hashr.trace st) ++ cmds
    ∧ (length cmds ≤ length sources)%nat
    ∧ Forall isPurge cmds.
Proof.
  induction sources as [|source sources IH]; intros st; simpl.
  { exists []. by rewrite app_nil_r. }
  unfold mbind, hashr.M_bind, hashr.bind.
  destruct (hashr.processSource h source st) as [[] st1] eqn:Hp.
  destruct (IH st1) as (cmds & Hc & Hlen & Hall).
  destruct (Source.QuickSHA256Hash source) as [q|e] eqn:Hq.
  - destruct (processSource_spec h source q st Hq) as (_ & _ & _ & _ & _ & _ & Hc1).
    rewrite Hp in Hc1. simpl in Hc1.
    exists (purge (baseDirOf source (hashr.fs st)) ++ cmds).
    rewrite Hc, Hc1, <- app_assoc. split; [done|].
    unfold purge, hashr.tempRoot.
    destruct (GoStrings.HasPrefix _ _) eqn:Hpre; simpl.
    + split; [lia|]. constructor; [|done]. eexists. by split.
    + split; [lia|done].
  - unfold hashr.processSource in Hp. rewrite Hq in Hp. injection Hp as <-.
    exists cmds. split; [done|]. split; [lia|done].
Qed.

(** The commands that the code of the worker starts itself (what a processor
    or an importer runs inside [ImageExport] or [Preprocess] is theirs and
    not counted here): over all the sources a worker receives there is at
    most one per source, and every one is [sudo rm -rf] on a path that
    begins with the bytes [/tmp/hashr]. *)
Theorem worker_runs_only_purges (h : hashr.HashR) (sources : list Source.t)
    (st : hashr.State) :
  ∃ cmds,
    execs (hashr.trace (hashr.processingWorker h sources st).2)
    = execs (hashr.trace st) ++ cmds
    ∧ (length cmds ≤ length sources)%nat
    ∧ Forall (λ cmd, ∃ path, cmd = ["sudo"; "rm"; "-rf"; path]
                             ∧ GoStrings.HasPrefix path "/tmp/hashr" = true)
             cmds.
Proof. exact (processingWorker_purges h sources st). Qed.

(** When preprocessing fails, the job is written as [discovered] and then as
    [failed] with the error of the preprocessing, and the iteration ends
    there: no command is run, so what the preprocessing left in the file
    system stays, and the cache is not touched. *)
Theorem preprocess_failure (h : hashr.HashR) (source : Source.t) (q : string)
    (st : hashr.State) (fs1 : os.FS) (e : error) :
  Source.QuickSHA256Hash source = Ok q →
  Source.Preprocess source (hashr.fs st) = (fs1, Err e) →
  let st1 := (hashr.processSource h source st).2 in
  statusesOf q (hashr.trace st1)
  = statusesOf q (hashr.trace st) ++ ["discovered"; "failed"]
  ∧ execs (hashr.trace st1) = execs (hashr.trace st)
  ∧ hashr.fs st1 = fs1
  ∧ hashr.cache st1 = hashr.cache st
  ∧ (ProcessingSource.Error <$> hashr.processingSources st1 !! q)
    = Some ("error while preprocessing: " +:+ Error e).
Proof.
  intros Hq Hpre st1. subst st1.
  unfold hashr.processSource, hashr.process. rewrite Hq.
  unfold hashr.handleError, hashr.updateJobs, hashr.updateSource,
    hashr.cleanupLocalStorage, mbind, hashr.M_bind, hashr.bind. simpl.
  rewrite lookup_insert_eq. simpl. rewrite Hpre. simpl.
  rewrite !lookup_alter_eq, lookup_insert_eq. simpl.
  rewrite !statusesOf_app, !execs_app. simpl.
  rewrite !app_nil_r, <- app_assoc.
  split; [by destruct (decide (q = q))|]. do 3 (split; [done|]).
  by rewrite !lookup_alter_eq, lookup_insert_eq.
Qed.

End WorkerMore.

Lemma worker_save_period_witness :
  0 ≤ hashr.cacheSaveCounter
        (hashr.processingWorker (H := TextRuntime.runtime)
           (Inputs.engine ∅ [] true) [Inputs.source1; Inputs.sourceHome]
           (Inputs.start Inputs.fsRun Inputs.cacheB)).2 ≤ 21.
Proof.
  apply (worker_save_period (H := TextRuntime.runtime)
           (Inputs.engine ∅ [] true) [Inputs.source1; Inputs.sourceHome]
           (Inputs.start Inputs.fsRun Inputs.cacheB)).
  simpl. lia.
Defined.

Lemma job_record_final_witness :
  ∃ p, hashr.processingSources
         (hashr.processSource (H := TextRuntime.runtime)
            (Inputs.engine ∅ [] true) Inputs.source1
            (Inputs.start Inputs.fsRun Inputs.cacheB)).2 !! "abc123" = Some p
       ∧ ProcessingSource.ID p = "src1".
Proof.
  destruct (job_record_final (H := TextRuntime.runtime)
              (Inputs.engine ∅ [] true) Inputs.source1 "abc123"
              (Inputs.start Inputs.fsRun Inputs.cacheB))
    as (p & _ & _ & Hp & _ & Hid & _).
  - reflexivity.
  - exists p. split; [exact Hp | exact Hid].
Defined.

Lemma preprocess_failure_witness :
  hashr.fs (hashr.processSource (H := TextRuntime.runtime)
              (Inputs.engine ∅ [] true) Inputs.sourceBroken
              (Inputs.start Inputs.fsEmpty ∅)).2
  = os.mkFS {[ "/tmp/hashr-src4-1/" := os.dir ]} 1000.
Proof.
  destruct (preprocess_failure (H := TextRuntime.runtime)
              (Inputs.engine ∅ [] true) Inputs.sourceBroken "bad404"
              (Inputs.start Inputs.fsEmpty ∅)
              (os.mkFS {[ "/tmp/hashr-src4-1/" := os.dir ]} 1000)
              (ErrNew "gzip: invalid header"))
    as (_ & _ & Hfs & _).
  - reflexivity.
  - reflexivity.
  - exact Hfs.
Defined.

(** * The cache and the exporter *)
Section CacheAndExporter.
Context `{Runtime}.
Import common.

Lemma checkLoop_digests ext clock l : ∀ i c,
  map Sha256 (cache.checkLoop ext clock i l c []).2 = map Sha256 l.
Proof.
  induction l as [|x l IH]; intros i c; simpl; [done|].
  pose proof (checkSample_export ext (clock i) c x) as (Hd & _).
  destruct (cache.checkSample ext (clock i) c x) as [c1 e].
  rewrite checkLoop_acc. simpl in *. by rewrite IH, Hd.
Qed.

Lemma Check_known_samples (fs : os.FS) (clock : nat → Z)
    (extraction : Extraction) (c : Cache) (samples : list Sample) :
  (cache.Check fs clock extraction c).2 = Ok samples →
  Forall (λ sample, is_Some ((cache.Check fs clock extraction c).1 !! Sha256 sample))
         samples.
Proof.
  unfold cache.Check. destruct (cache.readJSON fs extraction) as [l|e]; [|done].
  pose proof (checkLoop_digests extraction clock l 0 c) as Hd.
  pose proof (λ d, checkLoop_absent extraction clock l 0 c d) as Ha.
  destruct (cache.checkLoop extraction clock 0 l c []) as [c1 exports].
  simpl in *. intros [= <-]. apply Forall_forall. intros s Hs.
  destruct (c1 !! Sha256 s) eqn:E; [by eexists|].
  apply Ha in E as [_ E]. exfalso. apply E. rewrite <- Hd.
  apply list_elem_of_In, in_map, list_elem_of_In, Hs.
Qed.

Lemma stock_emit e :
  match e with hashr.EvExport _ => False | _ => True end →
  preserves stock (hashr.emit e).
Proof.
  intros He st. unfold stock. simpl. rewrite exportCalls_app.
  destruct e; try done; simpl; by rewrite app_nil_r.
Qed.

Ltac stock_tac :=
  repeat first
    [ apply preserves_ret
    | apply stock_emit; done
    | apply preserves_bind; [|intros ?]
    | match goal with
      | |- preserves _ (match ?x with _ => _ end) => destruct x
      | |- preserves _ (let '(_, _) := ?x in _) => destruct x
      | |- preserves _ (if ?x then _ else _) => destruct x
      end
    | progress unfold hashr.timeSince, hashr.updateSource, hashr.updateJobs,
        hashr.cleanupLocalStorage, hashr.handleError, hashr.cacheSave,
        hashr.lock, hashr.unlock, hashr.process, hashr.finishSource
    | by intros ? ].

Ltac stock_step v :=
  eapply hoare_bind;
    [apply (preserves_hoare stock (λ l, l = v)); stock_tac
    | intros ?; cbv beta].

Lemma stock_countExports q samples :
  preserves stock (hashr.countExports q samples).
Proof.
  induction samples as [|s l IH]; simpl; [apply preserves_ret|].
  apply preserves_bind; [|intros ?; exact IH]. stock_tac.
Qed.

Lemma stock_cacheCheck extraction c calls :
  hoare (λ st, stock st = (c, calls))
        (hashr.cacheCheck extraction)
        (λ r st, ∃ c1, stock st = (c1, calls)
                       ∧ match r with
                         | Ok samples =>
                             Forall (λ sample, is_Some (c1 !! Sha256 sample)) samples
                         | Err _ => True
                         end).
Proof.
  intros st. unfold stock, hashr.cacheCheck, mbind, hashr.M_bind, hashr.bind.
  simpl. intros [= <- <-].
  pose proof (Check_known_samples (hashr.fs st)
                (λ i, time_Now (hashr.ticks st + i)%nat) extraction (hashr.cache st))
    as Hreg.
  destruct (cache.Check _ _ extraction (hashr.cache st)) as [c1 [samples|e]];
    simpl in *.
  - exists c1. rewrite exportCalls_app, app_nil_r. split; [done|]. by apply Hreg.
  - exists c1. by rewrite exportCalls_app, app_nil_r.
Qed.

Lemma stock_exportSource h source q extraction samples c calls :
  Forall (λ sample, is_Some (c !! Sha256 sample)) samples →
  hoare (λ st, stock st = (c, calls))
        (hashr.exportSource h source q extraction samples)
        (λ _ st, ∃ new, stock st = (c, calls ++ new) ∧ Forall (registered c) new).
Proof.
  intros Hreg. unfold hashr.exportSource.
  stock_step (c, calls). stock_step (c, calls). stock_step (c, calls).
  destruct (hashr.Export h).
  - stock_step (c, calls).
    set (call := Exporter.mkCall _ _ _ _ _ _).
    eapply hoare_bind with (Q := λ _ st, stock st = (c, calls ++ [call])).
    { intros st. unfold stock. simpl. rewrite exportCalls_app.
      by intros [= -> ->]. }
    intros ?. cbv beta.
    eapply hoare_conseq with
      (Q' := λ _ st, stock st = (c, calls ++ [call])).
    + apply (preserves_hoare stock (λ l, l = (c, calls ++ [call]))).
      destruct (Exporter.Export (hashr.Exporter h) call).
      * stock_tac.
      * repeat first [apply stock_countExports | progress stock_tac].
    + by intros ??.
    + intros ? st Hst. exists [call]. split; [done|]. by constructor.
  - eapply hoare_conseq with (Q' := λ _ st, stock st = (c, calls)).
    + apply (preserves_hoare stock (λ l, l = (c, calls))). stock_tac.
    + by intros ??.
    + intros ? st Hst. exists []. by rewrite app_nil_r.
Qed.

(** Every sample that an iteration of the worker hands to the exporter has
    its digest in the cache when the iteration ends, whether the export
    succeeds or fails: the cache check registers the digests before the
    export, and a failed export takes nothing back.  Later checks on this
    cache therefore report these digests as known. *)
Theorem exported_samples_are_registered (h : hashr.HashR) (source : Source.t)
    (st : hashr.State) :
  ∃ calls,
    exportCalls (hashr.trace (hashr.processSource h source st).2)
    = exportCalls (hashr.trace st) ++ calls
    ∧ Forall (λ call,
                Forall (λ sample,
                          is_Some (hashr.cache (hashr.processSource h source st).2
                                     !! Sha256 sample))
                       (Exporter.samples call))
             calls.
Proof.
  set (c := hashr.cache st). set (calls := exportCalls (hashr.trace st)).
  enough (hoare (λ s, stock s = (c, calls)) (hashr.processSource h source)
            (λ _ s, ∃ c1 new, stock s = (c1, calls ++ new)
                              ∧ Forall (registered c1) new)) as Hh.
  { destruct (Hh st eq_refl) as (c1 & new & Hs & Hreg).
    injection Hs as Hc Ht. exists new. split; [exact Ht|]. by rewrite Hc. }
  assert (∀ A (m : hashr.M A) c1, preserves stock m →
    hoare (λ s, stock s = (c1, calls)) m
          (λ _ s, ∃ c2 new, stock s = (c2, calls ++ new)
                            ∧ Forall (registered c2) new)) as Hquiet.
  { intros A m c1 Hm s Hs. exists c1, []. rewrite app_nil_r, Hm. by split. }
  unfold hashr.processSource.
  destruct (Source.QuickSHA256Hash source) as [q|e];
    [|apply Hquiet, preserves_ret].
  stock_step (c, calls). stock_step (c, calls). stock_step (c, calls).
  stock_step (c, calls).
  eapply hoare_bind;
    [apply (preserves_hoare stock (λ l, l = (c, calls))); stock_tac
    | intros [extraction err]; cbv beta].
  destruct err as [err|]; [apply Hquiet; stock_tac|].
  stock_step (c, calls). stock_step (c, calls). stock_step (c, calls).
  eapply hoare_bind; [apply stock_cacheCheck | intros r; cbv beta].
  apply hoare_exists. intros c1. apply hoare_pure. intros Hreg.
  destruct r as [samples|err]; [|apply Hquiet; stock_tac].
  stock_step (c1, calls). stock_step (c1, calls).
  eapply hoare_conseq;
    [apply stock_exportSource; exact Hreg | intros ? Hpre; exact Hpre |].
  intros ? s (new & Hs & Hnew). by exists c1, new.
Qed.

End CacheAndExporter.

(** * The critical section of a worker *)
Section CriticalSection.
Context `{Runtime}.
Import common.

Lemma criticalEvents_app (t1 t2 : list hashr.Event) :
  criticalEvents (t1 ++ t2) = criticalEvents t1 ++ criticalEvents t2.
Proof.
  induction t1 as [|e t1 IH]; [done|]. destruct e; simpl; by rewrite ?IH.
Qed.

Lemma crit_emit_outside e :
  match e with hashr.EvUpdateJobs _ _ | hashr.EvExec _ => True | _ => False end →
  preserves crit (hashr.emit e).
Proof.
  intros He st. unfold crit. simpl. rewrite criticalEvents_app.
  destruct e; try done; simpl; by rewrite app_nil_r.
Qed.

Lemma crit_emit e b events :
  match e with hashr.EvUpdateJobs _ _ | hashr.EvExec _ => False | _ => True end →
  hoare (λ st, crit st = (b, events)) (hashr.emit e)
        (λ _ st, crit st = (b, events ++ [e])).
Proof.
  intros He st. unfold crit. simpl. rewrite criticalEvents_app.
  intros [= -> ->]. by destruct e.
Qed.

Ltac crit_tac :=
  repeat first
    [ apply preserves_ret
    | apply crit_emit_outside; done
    | apply preserves_bind; [|intros ?]
    | match goal with
      | |- preserves _ (match ?x with _ => _ end) => destruct x
      | |- preserves _ (let '(_, _) := ?x in _) => destruct x
      | |- preserves _ (if ?x then _ else _) => destruct x
      end
    | progress unfold hashr.timeSince, hashr.updateSource, hashr.updateJobs,
        hashr.cleanupLocalStorage, hashr.handleError, hashr.process
    | by intros ? ].

Ltac crit_step v :=
  eapply hoare_bind;
    [apply (preserves_hoare crit (λ l, l = v)); crit_tac
    | intros ?; cbv beta].

Lemma crit_countExports q samples :
  preserves crit (hashr.countExports q samples).
Proof.
  induction samples as [|s l IH]; simpl; [apply preserves_ret|].
  apply preserves_bind; [|intros ?; exact IH]. crit_tac.
Qed.

Lemma crit_lock b events :
  hoare (λ st, crit st = (b, events)) hashr.lock
        (λ _ st, crit st = (true, events ++ [hashr.EvLock])).
Proof.
  intros st. unfold crit, hashr.lock, mbind, hashr.M_bind, hashr.bind. simpl.
  rewrite criticalEvents_app. by intros [= _ ->].
Qed.

Lemma crit_unlock b events :
  hoare (λ st, crit st = (b, events)) hashr.unlock
        (λ _ st, crit st = (false, events ++ [hashr.EvUnlock])).
Proof.
  intros st. unfold crit, hashr.unlock, mbind, hashr.M_bind, hashr.bind. simpl.
  rewrite criticalEvents_app. by intros [= _ ->].
Qed.

Lemma crit_cacheSave h repoName b events :
  hoare (λ st, crit st = (b, events)) (hashr.cacheSave h repoName)
        (λ _ st, crit st = (b, events ++ [hashr.EvSave repoName])).
Proof.
  intros st. unfold crit, hashr.cacheSave, mbind, hashr.M_bind, hashr.bind.
  simpl. destruct (cache.Save _ _ _ _). simpl.
  rewrite criticalEvents_app. by intros [= -> ->].
Qed.

Lemma crit_cacheCheck extraction b events :
  hoare (λ st, crit st = (b, events)) (hashr.cacheCheck extraction)
        (λ _ st, crit st = (b, events ++ [hashr.EvCheck (SourceID extraction)])).
Proof.
  intros st. unfold crit, hashr.cacheCheck, mbind, hashr.M_bind, hashr.bind.
  simpl. destruct (cache.Check _ _ _ _) as [c1 [samples|e]]; simpl;
    rewrite criticalEvents_app; by intros [= -> ->].
Qed.

Lemma crit_exportSource h source q extraction samples b events :
  hoare (λ st, crit st = (b, events))
        (hashr.exportSource h source q extraction samples)
        (λ _ st, ∃ inside,
           crit st = (false, events ++ [hashr.EvLock] ++ inside ++ [hashr.EvUnlock])
           ∧ Forall isSaveOrExport inside).
Proof.
  unfold hashr.exportSource.
  eapply hoare_bind; [apply crit_lock | intros ?; cbv beta].
  eapply hoare_bind with
    (Q := λ a st, a = st ∧ crit st = (true, events ++ [hashr.EvLock]));
    [by intros st|].
  intros st0. cbv beta.
  eapply hoare_bind with
    (Q := λ _ st, ∃ saved, crit st = (true, events ++ [hashr.EvLock] ++ saved)
                           ∧ Forall isSaveOrExport saved).
  { destruct (Z.ltb 20 (hashr.cacheSaveCounter st0)).
    - eapply hoare_bind with
        (Q := λ _ st, crit st = (true, (events ++ [hashr.EvLock])
                                         ++ [hashr.EvSave (Source.RepoName source)])).
      { eapply hoare_conseq; [apply crit_cacheSave | by intros ? [_ ?] | done]. }
      intros ? st Hst. exists [hashr.EvSave (Source.RepoName source)].
      rewrite app_assoc. split; [exact Hst|]. by constructor.
    - intros st [_ Hst]. exists []. rewrite app_nil_r. by split. }
  intros ?. cbv beta. apply hoare_exists. intros saved. apply hoare_pure.
  intros Hsaved.
  assert (∀ A (m : hashr.M A) inside,
    Forall isSaveOrExport inside →
    preserves crit m →
    hoare (λ st, crit st = (true, events ++ [hashr.EvLock] ++ inside))
          (m;; hashr.unlock)
          (λ _ st, ∃ inside,
             crit st = (false, events ++ [hashr.EvLock] ++ inside ++ [hashr.EvUnlock])
             ∧ Forall isSaveOrExport inside)) as Hclose.
  { intros A m inside Hin Hm.
    eapply hoare_bind;
      [apply (preserves_hoare crit
                (λ l, l = (true, events ++ [hashr.EvLock] ++ inside))), Hm
      | intros ?; cbv beta].
    eapply hoare_conseq; [apply crit_unlock | intros ? Hpre; exact Hpre |].
    intros ? st Hst. exists inside. split; [|done].
    rewrite Hst. by rewrite <- !app_assoc. }
  assert (∀ inside,
    Forall isSaveOrExport inside →
    hoare (λ st, crit st = (true, events ++ [hashr.EvLock] ++ inside))
          (hashr.finishSource h q extraction)
          (λ _ st, ∃ inside,
             crit st = (false, events ++ [hashr.EvLock] ++ inside ++ [hashr.EvUnlock])
             ∧ Forall isSaveOrExport inside)) as Hfin.
  { intros inside Hin. unfold hashr.finishSource.
    crit_step (true, events ++ [hashr.EvLock] ++ inside).
    crit_step (true, events ++ [hashr.EvLock] ++ inside).
    crit_step (true, events ++ [hashr.EvLock] ++ inside).
    eapply hoare_bind; [apply crit_unlock | intros ?; cbv beta].
    eapply hoare_conseq;
      [apply (preserves_hoare crit
                (λ l, l = (false, (events ++ [hashr.EvLock] ++ inside)
                                    ++ [hashr.EvUnlock]))); crit_tac
      | by intros ?? |].
    intros ? st Hst. exists inside. split; [|done].
    rewrite Hst. by rewrite <- !app_assoc. }
  destruct (hashr.Export h).
  - crit_step (true, events ++ [hashr.EvLock] ++ saved).
    set (call := Exporter.mkCall _ _ _ _ _ _).
    eapply hoare_bind with
      (Q := λ _ st, crit st = (true, events ++ [hashr.EvLock]
                                       ++ (saved ++ [hashr.EvExport call]))).
    { eapply hoare_conseq;
        [by apply (crit_emit (hashr.EvExport call) true
                     (events ++ [hashr.EvLock] ++ saved))
        | intros ? Hpre; exact Hpre |].
      intros ? st Hst. rewrite Hst. by rewrite <- !app_assoc. }
    intros ?. cbv beta.
    assert (Forall isSaveOrExport (saved ++ [hashr.EvExport call])) as Hin.
    { apply Forall_app. split; [done|]. by constructor. }
    destruct (Exporter.Export (hashr.Exporter h) call).
    + apply Hclose; [done|]. crit_tac.
    + crit_step (true, events ++ [hashr.EvLock] ++ (saved ++ [hashr.EvExport call])).
      crit_step (true, events ++ [hashr.EvLock] ++ (saved ++ [hashr.EvExport call])).
      crit_step (true, events ++ [hashr.EvLock] ++ (saved ++ [hashr.EvExport call])).
      eapply hoare_bind;
        [apply (preserves_hoare crit
                  (λ l, l = (true, events ++ [hashr.EvLock]
                                     ++ (saved ++ [hashr.EvExport call])))),
           crit_countExports
        | intros ?; cbv beta].
      by apply Hfin.
  - eapply hoare_bind with
      (Q := λ _ st, crit st = (true, events ++ [hashr.EvLock] ++ saved));
      [by intros st|].
    intros st1. cbv beta.
    destruct (hashr.saveSamples _ _ _ _ _ _) as [fs1 [err|]].
    + crit_step (true, events ++ [hashr.EvLock] ++ saved).
      apply Hclose; [done|]. crit_tac.
    + crit_step (true, events ++ [hashr.EvLock] ++ saved).
      by apply Hfin.
Qed.

(** The critical section of an iteration of the worker.  The iteration
    calls [cache.Check] before it takes [h.mu], not under it; if the check
    succeeds it then takes the mutex once, makes the periodic save of the
    cache and the call of the exporter (if any) while it holds the mutex, and
    releases the mutex before the iteration ends, on the failure paths too.
    An iteration that fails before or in the check does not take the mutex.
    A worker that starts without the mutex ends each iteration without
    it. *)
Theorem iteration_locking (h : hashr.HashR) (source : Source.t)
    (st : hashr.State) :
  hashr.mu st = false →
  hashr.mu (hashr.processSource h source st).2 = false
  ∧ ∃ new,
      criticalEvents (hashr.trace (hashr.processSource h source st).2)
      = criticalEvents (hashr.trace st) ++ new
      ∧ (new = []
         ∨ ∃ id,
             new = [hashr.EvCheck id]
             ∨ ∃ inside,
                 new = [hashr.EvCheck id; hashr.EvLock] ++ inside ++ [hashr.EvUnlock]
                 ∧ Forall (λ e, match e with
                                | hashr.EvSave _ | hashr.EvExport _ => True
                                | _ => False
                                end) inside).
Proof.
  intros Hmu. set (events := criticalEvents (hashr.trace st)).
  enough (hoare (λ s, crit s = (false, events)) (hashr.processSource h source)
            (λ _ s, ∃ new, crit s = (false, events ++ new)
               ∧ (new = []
                  ∨ ∃ id,
                      new = [hashr.EvCheck id]
                      ∨ ∃ inside,
                          new = [hashr.EvCheck id; hashr.EvLock] ++ inside
                                ++ [hashr.EvUnlock]
                          ∧ Forall isSaveOrExport inside))) as Hh.
  { assert (crit st = (false, events)) as Hst by (unfold crit; by rewrite Hmu).
    destruct (Hh st Hst) as (new & Hc & Hnew).
    injection Hc as Hm Ht. split; [exact Hm|]. by exists new. }
  assert (∀ A (m : hashr.M A), preserves crit m →
    hoare (λ s, crit s = (false, events)) m
          (λ _ s, ∃ new, crit s = (false, events ++ new)
             ∧ (new = []
                ∨ ∃ id,
                    new = [hashr.EvCheck id]
                    ∨ ∃ inside,
                        new = [hashr.EvCheck id; hashr.EvLock] ++ inside
                              ++ [hashr.EvUnlock]
                        ∧ Forall isSaveOrExport inside))) as Hquiet.
  { intros A m Hm s Hs. exists []. rewrite app_nil_r, Hm. split; [done|by left]. }
  unfold hashr.processSource.
  destruct (Source.QuickSHA256Hash source) as [q|e];
    [|apply Hquiet, preserves_ret].
  crit_step (false, events). crit_step (false, events).
  crit_step (false, events). crit_step (false, events).
  eapply hoare_bind;
    [apply (preserves_hoare crit (λ l, l = (false, events))); crit_tac
    | intros [extraction err]; cbv beta].
  destruct err as [err|]; [apply Hquiet; crit_tac|].
  crit_step (false, events). crit_step (false, events). crit_step (false, events).
  eapply hoare_bind; [apply crit_cacheCheck | intros r; cbv beta].
  destruct r as [samples|err].
  2:{ eapply hoare_conseq;
        [apply (preserves_hoare crit
                  (λ l, l = (false, events ++ [hashr.EvCheck (SourceID extraction)])));
         crit_tac
        | by intros ?? |].
      intros ? s Hs. exists [hashr.EvCheck (SourceID extraction)].
      split; [done|]. right. exists (SourceID extraction). by left. }
  crit_step (false, events ++ [hashr.EvCheck (SourceID extraction)]).
  crit_step (false, events ++ [hashr.EvCheck (SourceID extraction)]).
  eapply hoare_conseq; [apply crit_exportSource | intros ? Hpre; exact Hpre |].
  intros ? s (inside & Hs & Hin).
  exists ([hashr.EvCheck (SourceID extraction); hashr.EvLock] ++ inside
          ++ [hashr.EvUnlock]).
  split; [rewrite Hs; by rewrite <- !app_assoc|].
  right. exists (SourceID extraction). right. by exists inside.
Qed.

End CriticalSection.

Lemma iteration_locking_witness :
  hashr.mu (hashr.processSource (H := TextRuntime.runtime)
              (Inputs.engine ∅ [] true) Inputs.source1
              (Inputs.start Inputs.fsRun Inputs.cacheB)).2
  = false.
Proof.
  apply (iteration_locking (H := TextRuntime.runtime)
           (Inputs.engine ∅ [] true) Inputs.source1
           (Inputs.start Inputs.fsRun Inputs.cacheB)).
  reflexivity.
Defined.

(** * The job store *)
Section JobStore.
Context `{Runtime}.

Lemma UpdateJobs_jobs (s : postgres.Storage) (q : string) (p : ProcessingSource.t) :
  postgres.jobs (postgres.UpdateJobs s q p)
  = <[q := postgres.values p]> (postgres.jobs s).
Proof.
  unfold postgres.UpdateJobs, postgres.rowExists.
  destruct (postgres.jobs s !! q) as [row|] eqn:Hrow; simpl; [|done].
  apply map_eq. intros k. destruct (decide (k = q)) as [->|Hne].
  - by rewrite lookup_alter_eq, lookup_insert_eq, Hrow.
  - by rewrite lookup_alter_ne, lookup_insert_ne.
Qed.

Lemma FetchJobs_insert (s : postgres.Storage) (q : string)
    (p : ProcessingSource.t) :
  postgres.FetchJobs (postgres.UpdateJobs s q p)
  = <[q := ProcessingSource.Status p]> (postgres.FetchJobs s).
Proof.
  unfold postgres.FetchJobs. rewrite UpdateJobs_jobs. by rewrite fmap_insert.
Qed.

Lemma replay_status (q : string) (tr : list hashr.Event) : ∀ db,
  postgres.FetchJobs (replay tr db) !! q
  = match last (statusesOf q tr) with
    | Some s => Some s
    | None => postgres.FetchJobs db !! q
    end.
Proof.
  induction tr as [|e tr IH]; intros db; [done|].
  destruct e as [q' p| | | | | |]; simpl; try apply IH.
  rewrite IH, FetchJobs_insert. destruct (decide (q' = q)) as [->|Hne].
  - rewrite lookup_insert_eq.
    destruct (statusesOf q tr) as [|s l] eqn:Hl; [done|].
    change (last (ProcessingSource.Status p :: s :: l)) with (last (s :: l)).
    by destruct (last (s :: l)) eqn:Hlast; [|by apply last_None in Hlast].
  - by rewrite lookup_insert_ne.
Qed.

(** A source that a worker has handled is not new any more: once the calls
    of [UpdateJobs] of the iteration have reached the PostgreSQL job store,
    the store holds the quick hash of the source in the state [exported] or
    [failed], and a later discovery that reads this store dispatches no
    source with this quick hash, unless the quick hash is on the list of
    sources to reprocess.  This holds for a failed source too: it is not
    tried again. *)
Theorem handled_source_is_not_new (h later : hashr.HashR) (source : Source.t)
    (q : string) (st : hashr.State) (db : postgres.Storage) (i : Importer.t)
    (sources : list Source.t) :
  Source.QuickSHA256Hash source = Ok q →
  Storage.FetchJobs (hashr.Storage later)
  = Ok (postgres.FetchJobs
          (replay (hashr.trace (hashr.processSource h source st).2) db)) →
  hashr.contains (hashr.SourcesForReprocessing later) q = false →
  Importer.DiscoverRepo i = Ok sources →
  (postgres.FetchJobs
     (replay (hashr.trace (hashr.processSource h source st).2) db) !! q
   = Some "exported"
   ∨ postgres.FetchJobs
       (replay (hashr.trace (hashr.processSource h source st).2) db) !! q
     = Some "failed")
  ∧ ∃ new, hashr.newSources later i = Ok new
           ∧ ∀ s, Source.QuickSHA256Hash s = Ok q → s ∉ new.
Proof.
  intros Hq Hf Hc Hd.
  destruct (processSource_spec h source q st Hq)
    as (seq & final & Hseq & Hlast & _ & Hw & _).
  set (jobs := postgres.FetchJobs _) in *.
  assert (jobs !! q = Some final) as Hj.
  { unfold jobs. rewrite replay_status, Hw.
    destruct seq as [|s0 seq]; [done|]. rewrite last_app, Hlast. done. }
  assert (final = hashr.exported ∨ final = hashr.failed) as Hfinal.
  { unfold lifecycles in Hseq.
    repeat (apply elem_of_cons in Hseq as [-> | Hseq];
            [injection Hlast as <-; auto|]).
    by apply elem_of_nil in Hseq. }
  split; [rewrite Hj; destruct Hfinal as [-> | ->]; auto|].
  unfold hashr.newSources. rewrite Hd, Hf.
  destruct (newSourcesLoop_spec later jobs sources []) as (kept & -> & _ & Hin).
  exists kept. split; [done|]. intros s Hs Hk.
  apply Hin in Hk as [_ (q' & Hq' & Hn)]. rewrite Hs in Hq'. injection Hq' as <-.
  destruct Hn as [Hn | [Hn | (status & Hn & Hfold)]].
  - congruence.
  - apply contains_spec in Hn. congruence.
  - rewrite Hj in Hn. injection Hn as <-.
    destruct Hfinal as [-> | ->]; discriminate.
Qed.

End JobStore.

Lemma handled_source_is_not_new_witness :
  ∃ new,
    hashr.newSources
      (Inputs.engine
         (postgres.FetchJobs
            (replay (hashr.trace
                       (hashr.processSource (H := TextRuntime.runtime)
                          (Inputs.engine ∅ [] true) Inputs.sourceBroken
                          (Inputs.start Inputs.fsEmpty ∅)).2)
                    (postgres.mkStorage ∅)))
         [] true)
      (Inputs.importer [Inputs.sourceBroken; Inputs.source1])
    = Ok new
    ∧ Inputs.sourceBroken ∉ new.
Proof.
  destruct (handled_source_is_not_new (H := TextRuntime.runtime)
              (Inputs.engine ∅ [] true)
              (Inputs.engine
                 (postgres.FetchJobs
                    (replay (hashr.trace
                               (hashr.processSource (H := TextRuntime.runtime)
                                  (Inputs.engine ∅ [] true) Inputs.sourceBroken
                                  (Inputs.start Inputs.fsEmpty ∅)).2)
                            (postgres.mkStorage ∅)))
                 [] true)
              Inputs.sourceBroken "bad404" (Inputs.start Inputs.fsEmpty ∅)
              (postgres.mkStorage ∅)
              (Inputs.importer [Inputs.sourceBroken; Inputs.source1])
              [Inputs.sourceBroken; Inputs.source1])
    as (_ & new & Hnew & Hout).
  - reflexivity.
  - reflexivity.
  - reflexivity.
  - reflexivity.
  - exists new. split; [exact Hnew|]. apply Hout. reflexivity.
Defined.

(** * The quick hash of an archive *)
Section QuickHash.
Context `{Runtime}.

Lemma substring_append_l (a b : string) :
  String.substring 0 (String.length a) (a +:+ b) = a.
Proof. induction a as [|c a IH]; simpl; [by destruct b|]. by rewrite IH. Qed.

Lemma substring_append_r (a b : string) (n : nat) :
  String.substring (String.length a) n (a +:+ b) = String.substring 0 n b.
Proof. induction a as [|c a IH]; simpl; [done|]. exact IH. Qed.

Lemma append_assoc (a b c : string) : (a +:+ b) +:+ c = a +:+ (b +:+ c).
Proof.
  induction a as [|x a IH]; [done|].
  change (String x ((a +:+ b) +:+ c) = String x (a +:+ (b +:+ c))). by f_equal.
Qed.

(** The quick hash of an archive of at least two chunks (20 MiB) is the
    digest of its first chunk followed by its last chunk: the bytes between
    them have no part in it, so archives that differ only there get the same
    quick hash. *)
Theorem QuickSHA256Hash_ignores_middle (fs : os.FS) (i : targz.TarGzFile)
    (f : os.Node) (head middle tail : string) :
  targz.quickSha256hash i = EmptyString →
  os.lookup fs (targz.remotePath i) = Some f →
  os.readable f = true →
  os.is_dir f = false →
  os.data f = head +:+ middle +:+ tail →
  String.length head = N.to_nat targz.chunkSize →
  String.length tail = N.to_nat targz.chunkSize →
  (targz.QuickSHA256Hash fs i).2 = Ok (sha256_hex (head +:+ tail)).
Proof.
  intros Hi Hf Hr Hd Hdata Hh Ht. unfold targz.QuickSHA256Hash, os.Open.
  rewrite Hi, Hf, Hr, Hd, Hdata. cbv beta iota zeta.
  change (negb (EmptyString =? EmptyString)%string) with false. cbv iota.
  remember targz.chunkSize as c eqn:Hc. clear Hc.
  rewrite !length_append, Hh, Ht.
  destruct (N.ltb_spec (N.of_nat (N.to_nat c + (String.length middle + N.to_nat c)))
                       (c * 2)) as [Hlt|Hge]; [lia|].
  cbv iota. unfold snd. do 2 f_equal. apply (f_equal2 String.append).
  - by rewrite <- Hh, substring_append_l.
  - replace (N.to_nat (N.of_nat (N.to_nat c + (String.length middle + N.to_nat c)) - c))
      with (String.length (head +:+ middle))
      by (rewrite length_append; lia).
    rewrite <- append_assoc, substring_append_r, <- Ht. apply substring_full.
Qed.

(** The quick hash is computed once per object: when a call succeeds, the
    object keeps the result, and every later call on it returns the same
    value without opening the file, whatever the file system holds then.
    A call that fails leaves the object as it was. *)
Theorem QuickSHA256Hash_once (fs : os.FS) (i : targz.TarGzFile) :
  (∀ data, sha256_hex data ≠ EmptyString) →
  match targz.QuickSHA256Hash fs i with
  | (i1, Ok q) => ∀ later, targz.QuickSHA256Hash later i1 = (i1, Ok q)
  | (i1, Err _) => i1 = i
  end.
Proof.
  intros Hsha. unfold targz.QuickSHA256Hash at 1.
  destruct (String.eqb_spec (targz.quickSha256hash i) EmptyString) as [He|Hne];
    simpl.
  - assert (∀ sum later,
      targz.QuickSHA256Hash later (targz.setQuickSha256hash (sha256_hex sum) i)
      = (targz.setQuickSha256hash (sha256_hex sum) i, Ok (sha256_hex sum)))
      as Hset.
    { intros sum later. unfold targz.QuickSHA256Hash. simpl.
      by destruct (String.eqb_spec (sha256_hex sum) EmptyString) as [E|E];
        [destruct (Hsha sum)|]. }
    destruct (os.Open fs (targz.remotePath i)) as [f|e]; [|done].
    destruct (N.ltb _ _); destruct (os.is_dir f); try done; apply Hset.
  - intros later. unfold targz.QuickSHA256Hash.
    by destruct (String.eqb_spec (targz.quickSha256hash i) EmptyString).
Qed.

End QuickHash.

Lemma length_pad (n : nat) : String.length (Inputs.pad n) = n.
Proof. induction n as [|n IH]; simpl; [done|]. by rewrite IH. Qed.

Lemma QuickSHA256Hash_ignores_middle_witness :
  (targz.QuickSHA256Hash (H := TextRuntime.runtime) Inputs.fsArchive
     Inputs.archive).2
  = Ok (sha256_hex (Runtime := TextRuntime.runtime)
          (Inputs.chunk +:+ Inputs.chunk)).
Proof.
  apply (QuickSHA256Hash_ignores_middle (H := TextRuntime.runtime)
           Inputs.fsArchive Inputs.archive
           (os.file (Inputs.chunk +:+ "middle" +:+ Inputs.chunk))
           Inputs.chunk "middle" Inputs.chunk).
  - reflexivity.
  - reflexivity.
  - reflexivity.
  - reflexivity.
  - reflexivity.
  - apply length_pad.
  - apply length_pad.
Defined.

Lemma QuickSHA256Hash_once_witness :
  targz.QuickSHA256Hash (H := TextRuntime.runtime) Inputs.fsEmpty
    (targz.QuickSHA256Hash (H := TextRuntime.runtime) Inputs.fsSmall
       Inputs.archive).1
  = (targz.setQuickSha256hash "sha256:small" Inputs.archive, Ok "sha256:small").
Proof.
  assert (∀ data, sha256_hex (Runtime := TextRuntime.runtime) data ≠ EmptyString)
    as Hsha by (intros data; discriminate).
  exact (QuickSHA256Hash_once (H := TextRuntime.runtime) Inputs.fsSmall
           Inputs.archive Hsha Inputs.fsEmpty).
Defined.

(** * The main loop *)
Section MainLoop.
Context `{Runtime}.
Import common.

Lemma written_emit q e :
  match e with hashr.EvUpdateJobs q' _ => q' ≠ q | _ => True end →
  preserves (λ st, statusesOf q (hashr.trace st)) (hashr.emit e).
Proof.
  intros He st. simpl. rewrite statusesOf_app.
  destruct e; simpl; rewrite ?app_nil_r; try done.
  by rewrite decide_False, app_nil_r.
Qed.

Lemma written_updateJobs q q' h :
  q' ≠ q → preserves (λ st, statusesOf q (hashr.trace st)) (hashr.updateJobs h q').
Proof.
  intros Hne. unfold hashr.updateJobs.
  apply preserves_bind; [by intros ?|]. intros st.
  destruct (hashr.processingSources st !! q'); [by apply written_emit|].
  apply preserves_ret.
Qed.

Ltac written_tac :=
  repeat first
    [ apply preserves_ret
    | apply written_emit; done
    | apply written_updateJobs; done
    | apply preserves_bind; [|intros ?]
    | match goal with
      | |- preserves _ (match ?x with _ => _ end) => destruct x
      | |- preserves _ (let '(_, _) := ?x in _) => destruct x
      | |- preserves _ (if ?x then _ else _) => destruct x
      end
    | progress unfold hashr.timeSince, hashr.updateSource,
        hashr.cleanupLocalStorage, hashr.handleError, hashr.cacheCheck,
        hashr.cacheSave, hashr.lock, hashr.unlock, hashr.process,
        hashr.finishSource
    | by intros ? ].

Lemma written_countExports q q' samples :
  preserves (λ st, statusesOf q (hashr.trace st)) (hashr.countExports q' samples).
Proof.
  induction samples as [|s l IH]; simpl; [apply preserves_ret|].
  apply preserves_bind; [|intros ?; exact IH]. written_tac.
Qed.

Lemma written_processSource q h source :
  Source.QuickSHA256Hash source ≠ Ok q →
  preserves (λ st, statusesOf q (hashr.trace st)) (hashr.processSource h source).
Proof.
  intros Hq. unfold hashr.processSource.
  destruct (Source.QuickSHA256Hash source) as [q'|e]; [|apply preserves_ret].
  assert (q' ≠ q) as Hne by congruence.
  unfold hashr.exportSource.
  repeat first
    [ apply written_countExports
    | progress written_tac ].
Qed.

Lemma written_processingWorker q h sources :
  Forall (λ source, Source.QuickSHA256Hash source ≠ Ok q) sources →
  preserves (λ st, statusesOf q (hashr.trace st)) (hashr.processingWorker h sources).
Proof.
  induction 1 as [|source sources Hq _ IH]; simpl; [apply preserves_ret|].
  apply preserves_bind; [by apply written_processSource | intros ?; exact IH].
Qed.

Lemma runImporters_cons (h : hashr.HashR)
    (fetch : list hashr.Event → Result (gmap string string))
    (importer : Importer.t) (rest : list Importer.t) (st : hashr.State) :
  hashr.runImporters h fetch (importer :: rest) st
  = match hashr.newSources (hashr.withJobs h (fetch (hashr.trace st))) importer with
    | Ok (source :: sources) =>
        let loaded :=
          cache.Load (hashr.fs st) (Importer.RepoName importer) (hashr.CacheDir h) in
        match loaded.2 with
        | Err _ => hashr.runImporters h fetch rest (hashr.setFs loaded.1 st).2
        | Ok c =>
            hashr.runImporters h fetch rest
              (hashr.cacheSave h (Importer.RepoName importer)
                 ((if decide (hashr.ProcessingWorkerCount h ≤ 0) then mret ()
                   else hashr.processingWorker h (source :: sources))
                    (hashr.setCache c (hashr.setFs loaded.1 st).2).2).2).2
        end
    | _ => hashr.runImporters h fetch rest st
    end.
Proof.
  cbn [hashr.runImporters]. unfold mbind at 1, hashr.M_bind at 1, hashr.bind at 1.
  cbn [hashr.get].
  destruct (hashr.newSources _ importer) as [[|source sources]|e]; try done.
  destruct (cache.Load _ _ _) as [fs1 [c|e]]; [|done].
  remember (source :: sources) as new eqn:Hn. clear Hn.
  unfold mbind, hashr.M_bind, hashr.bind. simpl.
  repeat (match goal with
          | |- context [let '(_, _) := ?x in _] => destruct x
          end; simpl).
  done.
Qed.

Lemma runImporters_settled (h : hashr.HashR) (db : postgres.Storage) (q status : string)
    (importers : list Importer.t) : ∀ st,
  postgres.FetchJobs (replay (hashr.trace st) db) !! q = Some status →
  GoStrings.EqualFold status hashr.reprocess = false →
  hashr.contains (hashr.SourcesForReprocessing h) q = false →
  statusesOf q (hashr.trace (hashr.runImporters h (fetchFrom db) importers st).2)
  = statusesOf q (hashr.trace st).
Proof.
  intros st Hj Hs Hc. revert st Hj.
  assert (∀ st st1 : hashr.State,
    statusesOf q (hashr.trace st1) = statusesOf q (hashr.trace st) →
    postgres.FetchJobs (replay (hashr.trace st) db) !! q = Some status →
    postgres.FetchJobs (replay (hashr.trace st1) db) !! q = Some status) as Hkeep.
  { intros st st1 Hw. by rewrite !replay_status, Hw. }
  induction importers as [|importer rest IH]; intros st Hj; [done|].
  rewrite runImporters_cons.
  destruct (hashr.newSources _ importer) as [new|e] eqn:Hnew; [|by apply IH].
  destruct new as [|source sources]; [by apply IH|].
  remember (source :: sources) as new eqn:Hn. clear Hn source sources.
  assert (Forall (λ s, Source.QuickSHA256Hash s ≠ Ok q) new) as Hother.
  { unfold hashr.newSources in Hnew.
    destruct (Importer.DiscoverRepo importer) as [found|]; [|done].
    simpl in Hnew. injection Hnew as Hnew.
    destruct (newSourcesLoop_spec
                (hashr.withJobs h (fetchFrom db (hashr.trace st)))
                (postgres.FetchJobs (replay (hashr.trace st) db)) found [])
      as (kept & Hk & _ & Hin).
    rewrite Hk in Hnew. simpl in Hnew. subst kept.
    apply Forall_forall. intros s Hsin Hsq.
    apply Hin in Hsin as [_ (q' & Hq' & Hn)].
    rewrite Hsq in Hq'. injection Hq' as <-.
    destruct Hn as [Hn | [Hn | (status' & Hn & Hfold)]].
    - congruence.
    - apply contains_spec in Hn. simpl in Hn. congruence.
    - rewrite Hj in Hn. injection Hn as <-. congruence. }
  destruct (cache.Load (hashr.fs st) (Importer.RepoName importer) (hashr.CacheDir h))
    as [fs1 [c|e]]; cbn [fst snd].
  - set (st0 := (hashr.setCache c (hashr.setFs fs1 st).2).2).
    assert (statusesOf q (hashr.trace
              ((if decide (hashr.ProcessingWorkerCount h ≤ 0) then mret ()
                else hashr.processingWorker h new) st0).2)
            = statusesOf q (hashr.trace st)) as Hw.
    { destruct (decide _); [done|].
      by rewrite (written_processingWorker q h _ Hother st0). }
    destruct ((if decide (hashr.ProcessingWorkerCount h ≤ 0) then mret ()
               else hashr.processingWorker h new) st0)
      as [[] st1].
    simpl in Hw. cbn [snd].
    pose proof (quiet_cacheSave q h (Importer.RepoName importer) st1) as Hsave.
    destruct (hashr.cacheSave h (Importer.RepoName importer) st1) as [err st2].
    simpl in Hsave. assert (statusesOf q (hashr.trace st2)
                            = statusesOf q (hashr.trace st)) as Hw2.
    { injection Hsave as _ Hsave _. by rewrite Hsave. }
    rewrite IH; [exact Hw2|]. by apply (Hkeep st).
  - by rewrite IH.
Qed.

(** A job that the job store holds in a state other than [reprocess], and
    whose quick hash is not on the list of sources to reprocess, is left
    alone by [Run]: no state is written for it, whatever the repositories
    list.  With the theorem on handled sources this makes a second run skip
    what the first one handled.  ([Run] with at most one worker per
    repository, on the PostgreSQL job store.) *)
Theorem Run_leaves_settled_jobs (h : hashr.HashR) (db : postgres.Storage)
    (q status : string) (st : hashr.State) :
  hashr.ProcessingWorkerCount h ≤ 1 →
  postgres.FetchJobs (replay (hashr.trace st) db) !! q = Some status →
  GoStrings.EqualFold status "reprocess" = false →
  hashr.contains (hashr.SourcesForReprocessing h) q = false →
  statusesOf q (hashr.trace (hashr.Run h (fetchFrom db) st).2)
  = statusesOf q (hashr.trace st).
Proof.
  intros _ Hj Hs Hc. unfold hashr.Run, mbind, hashr.M_bind, hashr.bind. simpl.
  set (st0 := hashr.mkState _ _ _ _ _ _ _).
  pose proof (runImporters_settled h db q status (hashr.Importers h) st0 Hj Hs Hc)
    as Hrun.
  by destruct (hashr.runImporters h (fetchFrom db) (hashr.Importers h) st0).
Qed.

Lemma runImporters_purges (h : hashr.HashR)
    (fetch : list hashr.Event → Result (gmap string string))
    (importers : list Importer.t) : ∀ st,
  ∃ cmds,
    execs (hashr.trace (hashr.runImporters h fetch importers st).2)
    = execs (hashr.trace st) ++ cmds
    ∧ Forall isPurge cmds.
Proof.
  induction importers as [|importer rest IH]; intros st.
  { exists []. by rewrite app_nil_r. }
  rewrite runImporters_cons.
  destruct (hashr.newSources _ importer) as [new|e]; [|by apply IH].
  destruct new as [|source sources]; [by apply IH|].
  remember (source :: sources) as new eqn:Hn. clear Hn source sources.
  destruct (cache.Load (hashr.fs st) (Importer.RepoName importer) (hashr.CacheDir h))
    as [fs1 [c|e]]; cbn [fst snd].
  - set (st0 := (hashr.setCache c (hashr.setFs fs1 st).2).2).
    assert (∃ cmds,
      execs (hashr.trace
               ((if decide (hashr.ProcessingWorkerCount h ≤ 0) then mret ()
                 else hashr.processingWorker h new) st0).2)
      = execs (hashr.trace st) ++ cmds ∧ Forall isPurge cmds) as (cmds & Hw & Hall).
    { destruct (decide _).
      - exists []. by rewrite app_nil_r.
      - destruct (processingWorker_purges h new st0)
          as (cmds & Hc & _ & Hall). by exists cmds. }
    destruct ((if decide (hashr.ProcessingWorkerCount h ≤ 0) then mret ()
               else hashr.processingWorker h new) st0)
      as [[] st1].
    simpl in Hw. cbn [snd].
    pose proof (quiet_cacheSave EmptyString h (Importer.RepoName importer) st1)
      as Hsave.
    destruct (hashr.cacheSave h (Importer.RepoName importer) st1) as [err st2].
    simpl in Hsave. injection Hsave as _ _ Hsave. cbn [snd].
    destruct (IH st2) as (cmds2 & Hc2 & Hall2).
    exists (cmds ++ cmds2). rewrite Hc2, Hsave, Hw, <- app_assoc.
    split; [done|]. by apply Forall_app.
  - apply (IH (hashr.setFs fs1 st).2).
Qed.

(** The commands that [Run] starts itself, over all repositories and
    sources (the commands of the importers and of the processor are theirs
    and not counted here): every one is [sudo rm -rf] on a path that begins
    with the bytes [/tmp/hashr].  ([Run] with at most one worker per
    repository.) *)
Theorem Run_runs_only_purges (h : hashr.HashR)
    (fetch : list hashr.Event → Result (gmap string string)) (st : hashr.State) :
  hashr.ProcessingWorkerCount h ≤ 1 →
  ∃ cmds,
    execs (hashr.trace (hashr.Run h fetch st).2) = execs (hashr.trace st) ++ cmds
    ∧ Forall (λ cmd, ∃ path, cmd = ["sudo"; "rm"; "-rf"; path]
                             ∧ GoStrings.HasPrefix path "/tmp/hashr" = true)
             cmds.
Proof.
  intros _. unfold hashr.Run, mbind, hashr.M_bind, hashr.bind. simpl.
  set (st0 := hashr.mkState _ _ _ _ _ _ _).
  destruct (runImporters_purges h fetch (hashr.Importers h) st0) as (cmds & Hc & Hall).
  exists cmds. by destruct (hashr.runImporters h fetch (hashr.Importers h) st0).
Qed.

End MainLoop.

Lemma Run_leaves_settled_jobs_witness :
  statusesOf "abc123"
    (hashr.trace
       (hashr.Run (H := TextRuntime.runtime) Inputs.engine1
          (fetchFrom (postgres.mkStorage {[ "abc123" := Inputs.rowExported ]}))
          (Inputs.start Inputs.fsRun ∅)).2)
  = statusesOf "abc123" (hashr.trace (Inputs.start Inputs.fsRun ∅)).
Proof.
  apply (Run_leaves_settled_jobs (H := TextRuntime.runtime) Inputs.engine1
           (postgres.mkStorage {[ "abc123" := Inputs.rowExported ]})
           "abc123" "exported" (Inputs.start Inputs.fsRun ∅)).
  - simpl. lia.
  - vm_compute. reflexivity.
  - vm_compute. reflexivity.
  - vm_compute. reflexivity.
Defined.

(** A run of the engine with one worker over a repository of two sources. *)
Lemma Run_runs_only_purges_witness :
  ∃ cmds,
    execs (hashr.trace
             (hashr.Run (H := TextRuntime.runtime) Inputs.engine1
                (fetchFrom (postgres.mkStorage ∅))
                (Inputs.start Inputs.fsRun ∅)).2)
    = execs (hashr.trace (Inputs.start Inputs.fsRun ∅)) ++ cmds
    ∧ Forall (λ cmd, ∃ path, cmd = ["sudo"; "rm"; "-rf"; path]
                             ∧ GoStrings.HasPrefix path "/tmp/hashr" = true)
             cmds.
Proof.
  apply (Run_runs_only_purges (H := TextRuntime.runtime) Inputs.engine1
           (fetchFrom (postgres.mkStorage ∅)) (Inputs.start Inputs.fsRun ∅)).
  simpl. lia.
Defined.

(** A run of the engine with one worker on a repository of two sources, the
    first of which the job store holds as exported: only the second one is
    handled, and it fails at the hashing stage. *)
Example Run_example :
  let st := (hashr.Run (H := TextRuntime.runtime) Inputs.engine1
               (fetchFrom (postgres.mkStorage {[ "abc123" := Inputs.rowExported ]}))
               (Inputs.start Inputs.fsRun ∅)).2 in
  statusesOf "fed987" (hashr.trace st) = ["discovered"; "failed"]
  ∧ statusesOf "abc123" (hashr.trace st) = []
  ∧ saves (hashr.trace st) = 1%nat.
Proof. vm_compute. done. Qed.

(** * What the export to the file system touches *)
Section SaveSamplesFrame.
Context `{Runtime}.
Import common.

Lemma firstValid_in (fs : os.FS) (paths : list string) :
  hashr.firstValid fs paths = EmptyString ∨ hashr.firstValid fs paths ∈ paths.
Proof.
  induction paths as [|path rest IH]; simpl; [by left|].
  destruct (os.Stat fs path).
  - destruct IH as [IH|IH]; [by left | right; by apply list_elem_of_further].
  - right. apply list_elem_of_here.
Qed.

Lemma saveSample_frame (destDir : string) (fs : os.FS) (sample : Sample) (q : string) :
  os.nodes (hashr.saveSample destDir fs sample).1 !! q = os.nodes fs !! q
  ∨ q ∈ exportTargets destDir [sample].
Proof.
  unfold hashr.saveSample, exportTargets. simpl.
  destruct (Upload sample); simpl; [|by left]. rewrite app_nil_r.
  destruct (decide (q = filepath_Join [destDir; Sha256 sample])) as [->|Hdir].
  { right. do 2 apply list_elem_of_further. apply list_elem_of_here. }
  pose proof (Mkdir_frame fs (filepath_Join [destDir; Sha256 sample]) q Hdir) as Hmk.
  destruct (os.Mkdir fs (filepath_Join [destDir; Sha256 sample])) as [fs1 [e|]];
    simpl in *; [by left|].
  destruct (os.ReadFile fs1 (hashr.firstValid fs1 (Paths sample))) as [input|e] eqn:Hread;
    simpl; [|by left].
  destruct (firstValid_in fs1 (Paths sample)) as [Hempty|Hin].
  { rewrite Hempty in Hread. by unfold os.ReadFile, os.lookup in Hread. }
  set (dest := filepath_Join [destDir; Sha256 sample;
                              filepath_Base (hashr.firstValid fs1 (Paths sample))]).
  destruct (decide (q = dest)) as [->|Hfile].
  { right. do 3 apply list_elem_of_further. apply list_elem_of_fmap.
    by exists (hashr.firstValid fs1 (Paths sample)). }
  pose proof (WriteFile_frame fs1 dest input q Hfile) as Hw.
  destruct (os.WriteFile fs1 dest input) as [fs2 [e|]]; simpl in *; left;
    by rewrite Hw.
Qed.

Lemma exportTargets_cons (destDir : string) (sample : Sample) (rest : list Sample)
    (q : string) :
  q ∈ exportTargets destDir (sample :: rest)
  ↔ q ∈ exportTargets destDir [sample] ∨ q ∈ exportTargets destDir rest.
Proof.
  unfold exportTargets. simpl. rewrite app_nil_r.
  rewrite !elem_of_cons, !elem_of_app. tauto.
Qed.

Lemma saveLoop_frame (destDir : string) (samples : list Sample) (q : string) :
  ∀ fs out,
    os.nodes (hashr.saveLoop destDir fs samples out).1 !! q = os.nodes fs !! q
    ∨ q ∈ exportTargets destDir samples.
Proof.
  induction samples as [|sample rest IH]; intros fs out; simpl; [by left|].
  rewrite exportTargets_cons.
  destruct (saveSample_frame destDir fs sample q) as [Hs|Hs]; [|by right; left].
  destruct (hashr.saveSample destDir fs sample) as [fs1 [s|e]]; simpl in Hs.
  - destruct (IH fs1 (out ++ [s])) as [Hl|Hl]; [|by right; right].
    left. by rewrite Hl.
  - by left.
Qed.

(** Whether it succeeds or fails, [saveSamples] changes no entry that
    exists outside the directory of the source in the export path.  An
    entry that differs afterwards is one of the targets (that directory,
    the manifest [samples.json], and for a sample to upload the directory
    of its digest and one file named after one of its paths), or it is a
    directory on the way to the directory of the source that was missing
    and that [os.MkdirAll] has made.  Every other entry of the file system,
    the extracted files among them, is left as it is. *)
Theorem saveSamples_touches_only_targets (h : hashr.HashR) (fs : os.FS)
    (sourceImporter sourceID sourceHash : string) (samples : list Sample)
    (path : string) :
  let destDir := hashr.destDirOf h sourceImporter sourceID sourceHash in
  let fs1 := (hashr.saveSamples h fs sourceImporter sourceID sourceHash samples).1 in
  os.nodes fs1 !! path = os.nodes fs !! path
  ∨ path ∈ exportTargets destDir samples
  ∨ (path ∈ os.ancestors destDir
     ∧ os.nodes fs !! path = None
     ∧ os.nodes fs1 !! path = Some os.dir).
Proof.
  intros destDir fs1. subst fs1. unfold hashr.saveSamples. fold destDir.
  destruct (decide (path = destDir)) as [->|Hdir].
  { right. left. apply list_elem_of_here. }
  destruct (decide (path = filepath_Join [destDir; "samples.json"])) as [->|Hman].
  { right. left. apply list_elem_of_further, list_elem_of_here. }
  assert (∀ fs0 : os.FS,
    os.nodes fs0 !! path = os.nodes (os.MkdirAll fs destDir).1 !! path →
    os.nodes fs0 !! path = os.nodes fs !! path
    ∨ path ∈ exportTargets destDir samples
    ∨ (path ∈ os.ancestors destDir
       ∧ os.nodes fs !! path = None
       ∧ os.nodes fs0 !! path = Some os.dir)) as Hmk.
  { intros fs0 H0.
    destruct (MkdirAll_frame fs destDir path) as [Hl|(Hin & Hnone & Hl)].
    - left. by rewrite H0.
    - right. right. apply elem_of_app in Hin as [Hin|Hin].
      + split; [done|]. split; [done|]. by rewrite H0.
      + by apply list_elem_of_singleton in Hin. }
  destruct (os.MkdirAll fs destDir) as [fs0 [e|]]; simpl in Hmk; [by apply Hmk|].
  destruct (saveLoop_frame destDir samples path fs0 []) as [Hl|Hl]; [|by right; left].
  destruct (hashr.saveLoop destDir fs0 samples []) as [fs1 [out|e]];
    simpl in Hl; [|by apply Hmk].
  destruct (json_Marshal out) as [jsonBytes|e]; [|by apply Hmk].
  apply Hmk. rewrite WriteFile_frame by done. exact Hl.
Qed.

End SaveSamplesFrame.

(** * Extraction of an archive *)
Section Extraction.
Context `{Runtime}.

Lemma Contains_prefix (s x : string) :
  String.prefix x s = true → GoStrings.Contains s x = true.
Proof. intros Hp. destruct s; cbn [GoStrings.Contains]; by rewrite Hp. Qed.

Lemma Contains_cons (a : ascii) (s x : string) :
  GoStrings.Contains s x = true → GoStrings.Contains (String a s) x = true.
Proof.
  intros Hc. cbn [GoStrings.Contains]. by destruct (String.prefix x (String a s)).
Qed.

Lemma Contains_append_r (a b x : string) :
  GoStrings.Contains b x = true → GoStrings.Contains (a +:+ b) x = true.
Proof.
  intros Hb. induction a as [|c a IH]; [done|].
  change (String c a +:+ b) with (String c (a +:+ b)). by apply Contains_cons.
Qed.

Lemma prefix_append (x b : string) : String.prefix x (x +:+ b) = true.
Proof.
  induction x as [|c x IH]; [by destruct b|].
  change (String c x +:+ b) with (String c (x +:+ b)). simpl.
  by destruct (ascii_dec c c).
Qed.

Lemma fieldsFrom_contains (f : ascii → bool) (x s : string) : ∀ cur,
  x ∈ GoStrings.fieldsFrom f cur s → GoStrings.Contains (cur +:+ s) x = true.
Proof.
  induction s as [|a s IH]; intros cur; simpl.
  - destruct (decide (cur = EmptyString)); [by intros ?%elem_of_nil|].
    intros ->%list_elem_of_singleton. apply Contains_prefix, prefix_append.
  - destruct (f a).
    + destruct (decide (cur = EmptyString)) as [->|Hne].
      * intros Hx. apply (IH EmptyString) in Hx. by apply Contains_cons.
      * intros [->|Hx]%elem_of_cons.
        -- apply Contains_prefix, prefix_append.
        -- apply (IH EmptyString) in Hx.
           by apply Contains_append_r, Contains_cons.
    + intros Hx. apply IH in Hx. by rewrite append_assoc in Hx.
Qed.

Lemma containsDotDot_spec (v : string) :
  importers.containsDotDot v = true
  ↔ ".." ∈ GoStrings.FieldsFunc v importers.isSlashRune.
Proof.
  unfold importers.containsDotDot. split.
  - destruct (GoStrings.Contains v ".."); cbn [negb]; [|done].
    intros (x & Hin & Hx)%existsb_exists. apply String.eqb_eq in Hx as <-.
    by apply list_elem_of_In.
  - intros Hin.
    pose proof (fieldsFrom_contains importers.isSlashRune ".." v EmptyString Hin)
      as Hc.
    change (EmptyString +:+ v) with v in Hc. rewrite Hc.
    cbn [negb]. apply existsb_exists. exists "..". split; [by apply list_elem_of_In|].
    by apply String.eqb_eq.
Qed.

Lemma extractedFrom_cons (outputFolder : string) (entry : importers.Entry)
    (rest : list importers.Entry) (fs fs1 : os.FS) (path : string) :
  os.nodes fs1 !! path = os.nodes fs !! path →
  extractedFrom outputFolder rest fs1 path →
  extractedFrom outputFolder (entry :: rest) fs path.
Proof.
  intros Hsame (e & He & Ht & Hdots & Hpath). exists e.
  split; [by apply list_elem_of_further|]. split; [done|]. split; [done|].
  destruct Hpath as [->|(Hd & Hin & Hnone)]; [by left|].
  right. by rewrite <- Hsame.
Qed.

Lemma extractLoop_frame (outputFolder : string) (final : option error)
    (entries : list importers.Entry) (path : string) : ∀ fs,
  os.nodes (importers.extractLoop fs outputFolder entries final).1 !! path
  = os.nodes fs !! path
  ∨ extractedFrom outputFolder entries fs path.
Proof.
  induction entries as [|entry rest IH]; intros fs; [by left|].
  assert (∀ fs1, os.nodes fs1 !! path = os.nodes fs !! path →
    os.nodes (importers.extractLoop fs1 outputFolder rest final).1 !! path
    = os.nodes fs !! path
    ∨ extractedFrom outputFolder (entry :: rest) fs path) as Hnext.
  { intros fs1 H1. destruct (IH fs1) as [Hl|Hl]; [left; by rewrite Hl|].
    right. by apply (extractedFrom_cons _ _ _ fs fs1). }
  cbn [importers.extractLoop].
  destruct (importers.containsDotDot (importers.Name entry)) eqn:Hdots;
    [by apply Hnext|].
  assert (".." ∉ GoStrings.FieldsFunc (importers.Name entry) importers.isSlashRune)
    as Hclean.
  { intros Hin. apply containsDotDot_spec in Hin. congruence. }
  set (dest := filepath_Join [outputFolder; importers.Name entry]).
  destruct (importers.Type_ entry) eqn:Ht.
  - destruct (decide (path = dest)) as [->|Hne].
    { right. exists entry. split; [apply list_elem_of_here|].
      split; [congruence|]. split; [done|]. by left. }
    pose proof (Create_frame fs dest path Hne) as Hc.
    destruct (os.Create fs dest) as [fs1 [e|]]; simpl in Hc; [by left|].
    pose proof (Write_frame fs1 dest (importers.body entry) path Hne) as Hw.
    destruct (os.Write fs1 dest (importers.body entry)) as [fs2 [e|]];
      simpl in Hw; [left; simpl; by rewrite Hw|].
    destruct (importers.bodyErr entry); [left; simpl; by rewrite Hw|].
    apply Hnext. by rewrite Hw.
  - destruct (os.IsNotExist (os.Stat fs dest)); [|by apply Hnext].
    destruct (MkdirAll_frame fs dest path) as [Hm|(Hin & Hnone & _)].
    + destruct (os.MkdirAll fs dest) as [fs1 [e|]]; simpl in Hm; [by left|].
      by apply Hnext.
    + right. exists entry. split; [apply list_elem_of_here|].
      split; [congruence|]. split; [done|].
      apply elem_of_app in Hin as [Hin|Hin].
      * right. by rewrite Ht.
      * left. by apply list_elem_of_singleton in Hin.
  - by apply Hnext.
Qed.

(** [ExtractTarGz] changes no entry that exists, except to write the files
    of the archive it reads.  An entry that differs afterwards is the
    output folder or a directory on the way to it that was missing, or it
    is there on account of an entry of the archive read from the bytes of
    the file at [tarGzPath]: a file or a directory, none of whose path
    components (between slashes or backslashes) is [..], at the output
    folder joined with its name or, for a directory, on the way there and
    missing before.  An entry with a component [..] is skipped, so no such
    name is ever joined to the output folder.  This holds whether the
    extraction succeeds or stops with an error. *)
Theorem ExtractTarGz_skips_traversal (untar : string → Result importers.Archive)
    (fs : os.FS) (tarGzPath outputFolder path : string) :
  let fs0 := if os.IsNotExist (os.Stat fs outputFolder)
             then (os.MkdirAll fs outputFolder).1 else fs in
  os.nodes (importers.ExtractTarGz untar fs tarGzPath outputFolder).1 !! path
  = os.nodes fs !! path
  ∨ (path ∈ os.ancestors outputFolder ++ [outputFolder]
     ∧ os.nodes fs !! path = None)
  ∨ ∃ gzFile entries final,
      os.Open fs0 tarGzPath = Ok gzFile
      ∧ untar (os.data gzFile) = Ok (entries, final)
      ∧ extractedFrom outputFolder entries fs path.
Proof.
  intros fs0.
  assert (os.nodes fs0 !! path = os.nodes fs !! path
          ∨ (path ∈ os.ancestors outputFolder ++ [outputFolder]
             ∧ os.nodes fs !! path = None)) as [H0|H0]; [|..|by right; left].
  { subst fs0. destruct (os.IsNotExist (os.Stat fs outputFolder)); [|by left].
    destruct (MkdirAll_frame fs outputFolder path) as [Hl|(Hin & Hnone & _)];
      [by left | by right]. }
  assert (let r := match os.Open fs0 tarGzPath with
                   | Err err => (fs0, Some err)
                   | Ok gzFile =>
                       match untar (os.data gzFile) with
                       | Err err => (fs0, Some err)
                       | Ok (entries, final) =>
                           importers.extractLoop fs0 outputFolder entries final
                       end
                   end in
          os.nodes r.1 !! path = os.nodes fs !! path
          ∨ ∃ gzFile entries final,
              os.Open fs0 tarGzPath = Ok gzFile
              ∧ untar (os.data gzFile) = Ok (entries, final)
              ∧ extractedFrom outputFolder entries fs path) as Htail.
  { destruct (os.Open fs0 tarGzPath) as [gzFile|e]; [|by left].
    destruct (untar (os.data gzFile)) as [[entries final]|e] eqn:Hu; [|by left].
    destruct (extractLoop_frame outputFolder final entries path fs0) as [Hl|Hl].
    - left. simpl. by rewrite Hl.
    - right. exists gzFile, entries, final. split; [done|]. split; [done|].
      destruct Hl as (entry & Hin & Ht & Hdots & Hpath). exists entry.
      split; [done|]. split; [done|]. split; [done|].
      destruct Hpath as [->|(Hd & Ha & Hnone)]; [by left|].
      right. by rewrite <- H0. }
  unfold importers.ExtractTarGz. subst fs0.
  destruct (os.IsNotExist (os.Stat fs outputFolder)).
  - destruct (os.MkdirAll fs outputFolder) as [fsm [e|]]; simpl in *; [by left|].
    destruct Htail as [Hl|Hl]; [by left | by right; right].
  - destruct Htail as [Hl|Hl]; [by left | by right; right].
Qed.

End Extraction.

(** Names with a component [..], and names that only contain two dots. *)
Example containsDotDot_examples :
  importers.containsDotDot "a/../b" = true
  ∧ importers.containsDotDot "../etc/passwd" = true
  ∧ importers.containsDotDot "a..b/c" = false
  ∧ importers.containsDotDot "dir/file.tar..gz" = false
  ∧ importers.containsDotDot "etc/passwd" = false.
Proof. vm_compute. done. Qed.
